(** * verify-cef-integrity.js: the binary integrity comparator

    A shallow embedding of the comparison core of [verify-cef-integrity.js]
    (the functions [isMachO], [hashFile], [hashMachOSegments], [compareFiles],
    [shouldSkipFile], [getAllFiles], [compareApps] and the verdict computed at
    the end of [main]) together with the properties of that code.

    Conventions of the embedding:
    - a JavaScript string is a [string]: a sequence of code units, here those
      below 256;
    - a JavaScript number that the script only uses as an integer is a [Z];
      the two numbers produced by [parseInt] are a [jsnum], which adds [NaN];
    - a [throw] is the constructor [Throw] of [completion], carrying the message;
      [try]/[catch] is a [match] on the result;
    - the file system, the external [otool] command and the digest are read
      through a [World]: what a directory and a path hold, what [otool -l]
      prints for a path, and the digest of a byte sequence. *)

From Stdlib Require Import ZArith List String Ascii Bool Lia Arith.
From Stdlib Require Import Strings.Byte.
Import ListNotations.

Local Open Scope string_scope.
Local Open Scope list_scope.
Local Open Scope Z_scope.

Infix "+++" := String.append (right associativity, at level 60).

(** ** Exceptions *)

Inductive completion (A : Type) : Type :=
| Ok (value : A)
| Throw (message : string).

Arguments Ok {A} value.
Arguments Throw {A} message.

Definition bind {A B : Type} (r : completion A) (k : A -> completion B) : completion B :=
  match r with
  | Ok a => k a
  | Throw m => Throw m
  end.

Notation "x <- r ;; k" := (bind r (fun x => k))
  (at level 61, r at next level, right associativity).

(** ** JavaScript numbers coming out of [parseInt] *)

Inductive jsnum : Type :=
| NaN
| Num (z : Z).

(** [x === 0]; [-0 === 0] holds in JavaScript, and both zeros are [Num 0]. *)
Definition is_zero (x : jsnum) : bool :=
  match x with
  | Num z => z =? 0
  | NaN => false
  end.

(** ** The world outside the script *)

(** One entry of [fs.readdirSync(dir, { withFileTypes: true })]. A directory
    entry carries the entries that reading that directory returns in turn;
    [DirentOther] is an entry that is neither a regular file nor a directory
    (a symbolic link, a socket). *)
#[local] Unset Elimination Schemes.
Inductive Dirent : Type :=
| DirentFile (name : string)
| DirentDirectory (name : string) (entries : list Dirent)
| DirentOther (name : string).
#[local] Set Elimination Schemes.

Record World : Type := {
  (** what is below a directory, as the successive [readdirSync] calls of a
      walk return it; a tree with a directory that cannot be listed, for
      which [readdirSync] throws, is not described, and nothing below is
      stated about it *)
  dir_tree : string -> list Dirent;
  (** the bytes of the regular file at a path; [None] when there is no
      file there that can be opened and read *)
  file_bytes : string -> option (list byte);
  (** the standard output of [otool -l "path"]; [None] when [execSync]
      throws: the command fails, or prints more than its buffer holds *)
  otool_l : string -> option string;
  (** [crypto.createHash('sha256').update(bytes).digest('hex')]; nothing is
      assumed of it *)
  sha256_hex : list byte -> string
}.

(** ** Node.js primitives used by the script *)

(** [buffer.constants.MAX_LENGTH]. The value is the one of Node.js 14 on a
    64-bit platform, the oldest release the README supports; later releases
    have a larger one. *)
Definition kMaxLength : Z := 2 ^ 32 - 1.

Definition MAX_SAFE_INTEGER : Z := 2 ^ 53 - 1.

Definition byte_val (b : byte) : Z := Z.of_N (Byte.to_N b).

(** [fs.readFileSync(filePath)]. Whether a path can be read is the world's;
    the message of the exception, which Node.js composes from the error code
    ([ENOENT], [EACCES], [EISDIR]), the system call and the path, is not
    modelled: the text below stands for it, and no statement depends on what
    it is. *)
Definition readFileSync (w : World) (filePath : string) : completion (list byte) :=
  match file_bytes w filePath with
  | Some content => Ok content
  | None => Throw "ENOENT: no such file or directory"
  end.

(** [fs.openSync(filePath, 'r')]: the descriptor stands for the content it
    gives access to. The message stands for the one of Node.js, as in
    [readFileSync]. *)
Definition openSync (w : World) (filePath : string) : completion (list byte) :=
  match file_bytes w filePath with
  | Some content => Ok content
  | None => Throw "ENOENT: no such file or directory"
  end.

(** [Buffer.alloc(size)]: a zero-filled buffer; a size that is not a number
    between 0 and [kMaxLength] throws. *)
Definition Buffer_alloc (size : jsnum) : completion (list byte) :=
  match size with
  | Num n =>
      if (0 <=? n) && (n <=? kMaxLength)
      then Ok (repeat "000"%byte (Z.to_nat n))
      else Throw "ERR_OUT_OF_RANGE"
  | NaN => Throw "ERR_OUT_OF_RANGE"
  end.

(** The largest signed 32-bit integer. *)
Definition INT32_MAX : Z := 2 ^ 31 - 1.

(** [ToInt32], which is what [length |= 0] leaves of a number: 0 for NaN,
    and for an integer the one congruent to it modulo 2^32 between -2^31 and
    2^31 - 1. *)
Definition ToInt32 (value : jsnum) : Z :=
  match value with
  | Num z => (z + 2 ^ 31) mod 2 ^ 32 - 2 ^ 31
  | NaN => 0
  end.

(** [fs.readSync(fd, buffer, offset, length, position)]: copies into
    [buffer], from index [offset], the at most [length] bytes the file has
    from [position] on, and leaves the rest of the buffer as it was. Reading
    at or past the end of the file reads nothing and does not throw. The
    number of bytes read, which is what the call returns, is ignored at both
    call sites; the embedding returns the buffer after the call. The
    operating system is taken to serve the call in one read, which it does
    for the lengths up to [READ_LIMIT] below; the statements about what is
    read are for those lengths.

    The checks are those of [lib/fs.js], in its order: the offset is
    validated, then [length |= 0] truncates the length to 32 bits, a length
    of 0 returns at once, an empty buffer is refused, and a length that is
    negative (as every length from 2^31 to 2^32 - 1 has become) or exceeds
    the room the buffer has from [offset] on is out of range. A position
    that is not an integer between 0 and [MAX_SAFE_INTEGER] is rejected, as
    the current releases do; Node.js 14 reads at the descriptor's current
    position instead, and so does every release for the position -1. The
    script passes the position 0 and the offsets of sections, which are
    positive integers; the statements below that depend on the position
    assume it is a safe integer, where all releases agree. *)
Definition readSync (fd : list byte) (buffer : list byte)
    (offset : Z) (length position : jsnum) : completion (list byte) :=
  if offset <? 0 then Throw "ERR_OUT_OF_RANGE"
  else
    let length := ToInt32 length in
    if length =? 0 then Ok buffer
    else if (List.length buffer =? 0)%nat then Throw "ERR_INVALID_ARG_VALUE"
    else if (length <? 0)
            || (Z.of_nat (List.length buffer) <? offset + length)
    then Throw "ERR_OUT_OF_RANGE"
    else
      match position with
      | Num position =>
          if (position <? 0) || (MAX_SAFE_INTEGER <? position)
          then Throw "ERR_OUT_OF_RANGE"
          else
            let data :=
              firstn (Z.to_nat length) (skipn (Z.to_nat position) fd) in
            Ok (firstn (Z.to_nat offset) buffer ++ data
                ++ skipn (Z.to_nat offset + List.length data) buffer)
      | NaN => Throw "ERR_OUT_OF_RANGE"
      end.

(** A length up to which one read of the operating system is complete:
    2^30. Close to 2^31 it need not be: Linux stops a read at 2^31 less a
    page, and macOS refuses a read that is too long. *)
Definition READ_LIMIT : Z := 2 ^ 30.

(** Four bytes as a little-endian unsigned 32-bit integer. *)
Definition uint32LE (b0 b1 b2 b3 : byte) : Z :=
  byte_val b0 + byte_val b1 * 2 ^ 8 + byte_val b2 * 2 ^ 16
  + byte_val b3 * 2 ^ 24.

(** [buffer.readUInt32LE(0)] *)
Definition readUInt32LE0 (buffer : list byte) : completion Z :=
  match buffer with
  | b0 :: b1 :: b2 :: b3 :: _ => Ok (uint32LE b0 b1 b2 b3)
  | _ => Throw "ERR_OUT_OF_RANGE"
  end.

(** ** [isMachO] *)

Definition MH_MAGIC : Z := 0xFEEDFACE.
Definition MH_MAGIC_64 : Z := 0xFEEDFACF.
Definition FAT_MAGIC : Z := 0xCAFEBABE.
Definition FAT_CIGAM : Z := 0xBEBAFECA.

(** The disjunction that [isMachO] returns. *)
Definition is_magic (magic : Z) : bool :=
  (magic =? MH_MAGIC) || (magic =? MH_MAGIC_64)
  || (magic =? FAT_MAGIC) || (magic =? FAT_CIGAM).

(** The body of the [try] block. *)
Definition isMachO_try (w : World) (filePath : string) : completion bool :=
  fd <- openSync w filePath ;;
  buffer <- Buffer_alloc (Num 4) ;;
  buffer <- readSync fd buffer 0 (Num 4) (Num 0) ;;
  magic <- readUInt32LE0 buffer ;;
  Ok (is_magic magic).

Definition isMachO (w : World) (filePath : string) : bool :=
  match isMachO_try w filePath with
  | Ok b => b
  | Throw _ => false
  end.

(** ** The report and the verdict of [main] *)

Record Report : Type := {
  matched : nat;
  modified : list string;
  signatureOnly : list string;
  missingInLocal : list string;
  missingInOriginal : list string
}.

(** [result.modified.length === 0 && result.missingInLocal.length === 0] *)
Definition isValid (r : Report) : bool :=
  (List.length (modified r) =? 0)%nat
  && (List.length (missingInLocal r) =? 0)%nat.

(** The status given to [process.exit]. *)
Definition exitCode (r : Report) : Z := if isValid r then 0 else 1.

(** ** Strings *)

(** [strip_prefix p s] is what follows [p] in [s] when [s] starts with [p]. *)
Fixpoint strip_prefix (p s : string) : option string :=
  match p, s with
  | EmptyString, _ => Some s
  | String a p', String b s' =>
      if Ascii.eqb a b then strip_prefix p' s' else None
  | String _ _, EmptyString => None
  end.

(** [s.includes(pattern)] *)
Fixpoint includes (s pattern : string) : bool :=
  match strip_prefix pattern s with
  | Some _ => true
  | None =>
      match s with
      | EmptyString => false
      | String _ s' => includes s' pattern
      end
  end.

(** ** The exclusion filter *)

Definition SIGNATURE_PATTERNS : list string :=
  [ "_CodeSignature";
    ".DS_Store";
    "CodeResources";
    "embedded.provisionprofile" ].

Definition shouldSkipFile (relativePath : string) : bool :=
  existsb (fun pattern => includes relativePath pattern) SIGNATURE_PATTERNS.

(** ** [parseInt] *)

Definition code (c : ascii) : Z := Z.of_N (N_of_ascii c).

(** The white space of [\s] and of [parseInt], among the code units below
    256: tab, line feed, vertical tab, form feed, carriage return, space and
    no-break space. *)
Definition is_space (c : ascii) : bool :=
  let n := code c in
  ((9 <=? n) && (n <=? 13)) || (n =? 32) || (n =? 160).

Definition is_digit (c : ascii) : bool :=
  let n := code c in (48 <=? n) && (n <=? 57).

Definition digitValue (c : ascii) : option Z :=
  let n := code c in
  if (48 <=? n) && (n <=? 57) then Some (n - 48)
  else if (97 <=? n) && (n <=? 122) then Some (n - 97 + 10)
  else if (65 <=? n) && (n <=? 90) then Some (n - 65 + 10)
  else None.

Fixpoint trimStart (s : string) : string :=
  match s with
  | String c s' => if is_space c then trimStart s' else s
  | EmptyString => s
  end.

(** The value of the longest prefix of [s] made of digits of the radix,
    continuing from the digits read so far; [None] when there is no digit. *)
Fixpoint parse_digits (radix : Z) (s : string) (acc : option Z) : option Z :=
  match s with
  | String c s' =>
      match digitValue c with
      | Some d =>
          if d <? radix
          then parse_digits radix s'
                 (Some (match acc with Some v => v * radix + d | None => d end))
          else acc
      | None => acc
      end
  | EmptyString => acc
  end.

(** [parseInt(string, radix)] as ECMAScript defines it. The result is kept
    exact: the script compares it with 0 and passes it to [Buffer.alloc] and
    [fs.readSync], whose range checks have bounds of at most 2^53, and
    rounding to a double changes neither answer; [length |= 0] is reached
    only by a size that [Buffer.alloc] has accepted, which is exact. *)
Definition parseInt (s : string) (radix : Z) : jsnum :=
  let s := trimStart s in
  let '(sign, s) :=
    match s with
    | String "-" s' => (-1, s')
    | String "+" s' => (1, s')
    | _ => (1, s)
    end in
  if (negb (radix =? 0)) && ((radix <? 2) || (36 <? radix)) then NaN
  else
    let stripPrefix := (radix =? 0) || (radix =? 16) in
    let radix := if radix =? 0 then 10 else radix in
    let '(radix, s) :=
      if stripPrefix then
        match s with
        | String "0" (String "x" s') => (16, s')
        | String "0" (String "X" s') => (16, s')
        | _ => (radix, s)
        end
      else (radix, s) in
    match parse_digits radix s None with
    | Some v => Num (sign * v)
    | None => NaN
    end.

(** ** The section regular expression

    [/sectname (\S+)\s+segname (\S+)\s+addr \S+\s+size (\S+)\s+offset (\d+)/g]

    Every quantified class of the expression is followed by something its
    own characters cannot start ([\S+] by [\s+], [\s+] by a letter, the last
    [\d+] by nothing), so the greedy choice is the only one that can lead to
    a match and the matcher needs no backtracking. *)

(** The longest prefix of [s] whose characters satisfy [p], and the rest. *)
Fixpoint span (p : ascii -> bool) (s : string) : string * string :=
  match s with
  | String c s' =>
      if p c then let '(run, rest) := span p s' in (String c run, rest)
      else (EmptyString, s)
  | EmptyString => (EmptyString, EmptyString)
  end.

(** [c+] for a character class [c]. *)
Definition plus (p : ascii -> bool) (s : string) : option (string * string) :=
  match span p s with
  | (EmptyString, _) => None
  | (run, rest) => Some (run, rest)
  end.

Definition non_space (c : ascii) : bool := negb (is_space c).

(** The capture groups of one match. *)
Record SectionMatch : Type := {
  m_sectname : string;
  m_segname : string;
  m_sizeHex : string;
  m_offsetStr : string
}.

Notation "'let?' x := r 'in' k" :=
  (match r with Some x => k | None => None end)
  (at level 10, x pattern, r at level 100, k at level 200).

(** A match of the expression that starts at the first character of [s]:
    its groups and what follows the match. *)
Definition sectionRegex_at (s : string) : option (SectionMatch * string) :=
  let? s := strip_prefix "sectname " s in
  let? (sectname, s) := plus non_space s in
  let? (_, s) := plus is_space s in
  let? s := strip_prefix "segname " s in
  let? (segname, s) := plus non_space s in
  let? (_, s) := plus is_space s in
  let? s := strip_prefix "addr " s in
  let? (_, s) := plus non_space s in
  let? (_, s) := plus is_space s in
  let? s := strip_prefix "size " s in
  let? (sizeHex, s) := plus non_space s in
  let? (_, s) := plus is_space s in
  let? s := strip_prefix "offset " s in
  let? (offsetStr, s) := plus is_digit s in
  Some ({| m_sectname := sectname; m_segname := segname;
           m_sizeHex := sizeHex; m_offsetStr := offsetStr |}, s).

(** [sectionRegex.exec] on what is left of the output from [lastIndex] on:
    the leftmost match, and what is left after it. *)
Fixpoint sectionRegex_exec (s : string) : option (SectionMatch * string) :=
  match sectionRegex_at s with
  | Some r => Some r
  | None =>
      match s with
      | String _ s' => sectionRegex_exec s'
      | EmptyString => None
      end
  end.

(** ** [hashMachOSegments] *)

Record Section : Type := {
  name : string;
  offset : jsnum;
  size : jsnum
}.

(** The [while] loop over the matches. Every match consumes at least one
    character, so the loop runs at most once more than the output is long;
    [fuel] bounds the number of iterations. *)
Fixpoint parseSections_loop (fuel : nat) (otoolOutput : string) : list Section :=
  match fuel with
  | O => []
  | S fuel =>
      match sectionRegex_exec otoolOutput with
      | None => []
      | Some (m, rest) =>
          let offset := parseInt (m_offsetStr m) 10 in
          let size := parseInt (m_sizeHex m) 16 in
          if String.eqb (m_segname m) "__LINKEDIT"
          then parseSections_loop fuel rest
          else if is_zero offset then parseSections_loop fuel rest
          else if is_zero size then parseSections_loop fuel rest
          else {| name := m_segname m +++ "." +++ m_sectname m;
                  offset := offset;
                  size := size |} :: parseSections_loop fuel rest
      end
  end.

Definition parseSections (otoolOutput : string) : list Section :=
  parseSections_loop (S (String.length otoolOutput)) otoolOutput.

(** The section table of an [otool] output: all the matches of the
    expression, in the order of the output, before any is skipped. *)
Fixpoint sectionTable_loop (fuel : nat) (otoolOutput : string) : list SectionMatch :=
  match fuel with
  | O => []
  | S fuel =>
      match sectionRegex_exec otoolOutput with
      | None => []
      | Some (m, rest) => m :: sectionTable_loop fuel rest
      end
  end.

Definition sectionTable (otoolOutput : string) : list SectionMatch :=
  sectionTable_loop (S (String.length otoolOutput)) otoolOutput.

(** A row of the table that the loop keeps. *)
Definition comparable (m : SectionMatch) : bool :=
  negb (String.eqb (m_segname m) "__LINKEDIT")
  && negb (is_zero (parseInt (m_offsetStr m) 10))
  && negb (is_zero (parseInt (m_sizeHex m) 16)).

Definition section_of (m : SectionMatch) : Section :=
  {| name := m_segname m +++ "." +++ m_sectname m;
     offset := parseInt (m_offsetStr m) 10;
     size := parseInt (m_sizeHex m) 16 |}.

(** [execSync(`otool -l "${filePath}"`, { encoding: 'utf8' })] *)
Definition execSync_otool (w : World) (filePath : string) : completion string :=
  match otool_l w filePath with
  | Some output => Ok output
  | None => Throw "Command failed: otool -l"
  end.

(** The loop that hashes each section. The state of the streaming digest is
    the bytes it has been given so far. *)
Fixpoint hashSections (fd : list byte) (sections : list Section)
    (hash : list byte) : completion (list byte) :=
  match sections with
  | [] => Ok hash
  | section :: rest =>
      buffer <- Buffer_alloc (size section) ;;
      buffer <- readSync fd buffer 0 (size section) (offset section) ;;
      hashSections fd rest (hash ++ buffer)
  end.

(** The body of the [try] block. *)
Definition hashMachOSegments_try (w : World) (filePath : string) : completion string :=
  otoolOutput <- execSync_otool w filePath ;;
  let sections := parseSections otoolOutput in
  if (List.length sections =? 0)%nat then Throw "No sections found"
  else
    fd <- openSync w filePath ;;
    hash <- hashSections fd sections [] ;;
    Ok (sha256_hex w hash).

Definition hashMachOSegments (w : World) (filePath tempDir prefix : string)
    : completion string :=
  match hashMachOSegments_try w filePath with
  | Ok digest => Ok digest
  | Throw message => Throw ("Failed to hash segments: " +++ message)
  end.

(** ** [hashFile] and [compareFiles] *)

Definition hashFile (w : World) (filePath : string) : completion string :=
  content <- readFileSync w filePath ;;
  Ok (sha256_hex w content).

(** The three strings ['match'], ['signature-only'] and ['modified']. *)
Inductive Comparison : Type :=
| Match
| SignatureOnly
| Modified.

Definition compareFiles (w : World)
    (localPath originalPath relativePath tempDir : string) : completion Comparison :=
  localHash <- hashFile w localPath ;;
  originalHash <- hashFile w originalPath ;;
  if String.eqb localHash originalHash then Ok Match
  else if isMachO w localPath then
    match
      (localSegmentHash <- hashMachOSegments w localPath tempDir "local" ;;
       originalSegmentHash <- hashMachOSegments w originalPath tempDir "original" ;;
       Ok (String.eqb localSegmentHash originalSegmentHash))
    with
    | Ok true => Ok SignatureOnly
    | Ok false => Ok Modified
    | Throw _ => Ok Modified
    end
  else Ok Modified.

(** ** [getAllFiles] *)

Record FileEntry : Type := {
  absolutePath : string;
  relativePath : string
}.

(** [path.join(currentDir, entry.name)], for a directory path without a
    trailing separator and an entry name as [readdirSync] returns them. *)
Definition path_join (currentDir entryName : string) : string :=
  currentDir +++ "/" +++ entryName.

(** [path.relative(baseDir, fullPath)], for a [fullPath] below [baseDir],
    which is the case of every path the walk builds. *)
Definition path_relative (baseDir fullPath : string) : string :=
  match strip_prefix (baseDir +++ "/") fullPath with
  | Some rest => rest
  | None => fullPath
  end.

(** The part of [walk] that handles one entry of a directory. *)
Fixpoint walk_entry (baseDir currentDir : string) (entry : Dirent)
    : list FileEntry :=
  match entry with
  | DirentDirectory entryName entries =>
      let fullPath := path_join currentDir entryName in
      flat_map (walk_entry baseDir fullPath) entries
  | DirentFile entryName =>
      let fullPath := path_join currentDir entryName in
      [ {| absolutePath := fullPath;
           relativePath := path_relative baseDir fullPath |} ]
  | DirentOther _ => []
  end.

(** [walk(currentDir)], given the entries of [currentDir]. *)
Definition walk (baseDir currentDir : string) (entries : list Dirent)
    : list FileEntry :=
  flat_map (walk_entry baseDir currentDir) entries.

Definition getAllFiles (w : World) (dir baseDir : string) : list FileEntry :=
  walk baseDir dir (dir_tree w dir).

(** ** JavaScript [Set] of strings: the elements in insertion order *)

Definition Set_has (s : list string) (x : string) : bool :=
  existsb (String.eqb x) s.

Definition Set_add (s : list string) (x : string) : list string :=
  if Set_has s x then s else s ++ [x].

(** [new Set(values)] *)
Definition Set_new (values : list string) : list string :=
  fold_left Set_add values [].

(** ** [compareApps] *)

Definition push_missingInLocal (r : Report) (relPath : string) : Report :=
  {| matched := matched r;
     modified := modified r;
     signatureOnly := signatureOnly r;
     missingInLocal := missingInLocal r ++ [relPath];
     missingInOriginal := missingInOriginal r |}.

Definition push_missingInOriginal (r : Report) (relPath : string) : Report :=
  {| matched := matched r;
     modified := modified r;
     signatureOnly := signatureOnly r;
     missingInLocal := missingInLocal r;
     missingInOriginal := missingInOriginal r ++ [relPath] |}.

(** The three branches that follow a comparison. *)
Definition tally (r : Report) (comparison : Comparison) (relPath : string)
    : Report :=
  match comparison with
  | Match =>
      {| matched := S (matched r);
         modified := modified r;
         signatureOnly := signatureOnly r;
         missingInLocal := missingInLocal r;
         missingInOriginal := missingInOriginal r |}
  | SignatureOnly =>
      {| matched := matched r;
         modified := modified r;
         signatureOnly := signatureOnly r ++ [relPath];
         missingInLocal := missingInLocal r;
         missingInOriginal := missingInOriginal r |}
  | Modified =>
      {| matched := matched r;
         modified := modified r ++ [relPath];
         signatureOnly := signatureOnly r;
         missingInLocal := missingInLocal r;
         missingInOriginal := missingInOriginal r |}
  end.

(** The first loop: the files of the original that the local build lacks. *)
Definition checkMissingInLocal (localSet originalSet : list string)
    (result : Report) : Report :=
  fold_left
    (fun result relPath =>
       if shouldSkipFile relPath then result
       else if negb (Set_has localSet relPath)
       then push_missingInLocal result relPath
       else result)
    originalSet result.

(** The second loop: the files of the local build that the original lacks. *)
Definition checkMissingInOriginal (localSet originalSet : list string)
    (result : Report) : Report :=
  fold_left
    (fun result relPath =>
       if shouldSkipFile relPath then result
       else if negb (Set_has originalSet relPath)
       then push_missingInOriginal result relPath
       else result)
    localSet result.

(** The third loop: the files present on both sides are compared. Reading
    [originalFile.absolutePath] when [find] has found nothing throws a
    [TypeError]. *)
Fixpoint compareMatching (w : World) (originalSet : list string)
    (originalFiles : list FileEntry) (tempDir : string)
    (localFiles : list FileEntry) (result : Report) : completion Report :=
  match localFiles with
  | [] => Ok result
  | localFile :: rest =>
      if shouldSkipFile (relativePath localFile)
      then compareMatching w originalSet originalFiles tempDir rest result
      else if negb (Set_has originalSet (relativePath localFile))
      then compareMatching w originalSet originalFiles tempDir rest result
      else
        match find (fun f => String.eqb (relativePath f) (relativePath localFile))
                   originalFiles with
        | None => Throw "TypeError: Cannot read properties of undefined"
        | Some originalFile =>
            comparison <- compareFiles w (absolutePath localFile)
                            (absolutePath originalFile)
                            (relativePath localFile) tempDir ;;
            compareMatching w originalSet originalFiles tempDir rest
              (tally result comparison (relativePath localFile))
        end
  end.

Definition compareApps (w : World) (localApp originalApp tempDir : string)
    : completion Report :=
  let result :=
    {| matched := 0;
       modified := [];
       signatureOnly := [];
       missingInLocal := [];
       missingInOriginal := [] |} in
  let localFiles := getAllFiles w localApp localApp in
  let originalFiles := getAllFiles w originalApp originalApp in
  let localSet := Set_new (map relativePath localFiles) in
  let originalSet := Set_new (map relativePath originalFiles) in
  let result := checkMissingInLocal localSet originalSet result in
  let result := checkMissingInOriginal localSet originalSet result in
  compareMatching w originalSet originalFiles tempDir localFiles result.

(** ** Notions used in the statements *)

(** The buffer that the section loop hashes for a section: the bytes the
    file has from the section's offset on, at most as many as its size, and
    zero bytes up to the size where the file has none. *)
Definition section_bytes (content : list byte) (s : Section) : list byte :=
  match offset s, size s with
  | Num position, Num length =>
      let data :=
        firstn (Z.to_nat length) (skipn (Z.to_nat position) content) in
      data ++ repeat "000"%byte (Z.to_nat length - List.length data)
  | _, _ => []
  end.

(** A section whose buffer can be allocated and read into: its size is a
    number from 1 to [READ_LIMIT], which [Buffer.alloc] accepts,
    [length |= 0] leaves as it is and one read serves, and its offset is a
    safe integer, which every release of Node.js accepts as a read
    position. *)
Definition readable_section (s : Section) : bool :=
  match offset s, size s with
  | Num position, Num length =>
      (1 <=? length) && (length <=? READ_LIMIT)
      && (0 <=? position) && (position <=? MAX_SAFE_INTEGER)
  | _, _ => false
  end.


(** ** Example worlds *)

(** A stand-in for the digest in the examples: the bytes themselves. *)
Definition example_digest (bytes : list byte) : string :=
  string_of_list_byte bytes.

(** An executable of six bytes whose only section is declared at offset 4
    with size 8. *)
Definition truncated_content : list byte := [xcf; xfa; xed; xfe; x01; x02].



(** ** Notions used in the statements about the tree differ *)

Definition entry_name (entry : Dirent) : string :=
  match entry with
  | DirentFile entryName => entryName
  | DirentDirectory entryName _ => entryName
  | DirentOther entryName => entryName
  end.

(** The paths of the regular files of a tree, relative to its root, in the
    order of the walk; [prefix] is the path of the directory being walked,
    with its trailing separator. *)
Fixpoint tree_paths_entry (prefix : string) (entry : Dirent) : list string :=
  match entry with
  | DirentDirectory entryName entries =>
      flat_map (tree_paths_entry (prefix +++ entryName +++ "/")) entries
  | DirentFile entryName => [prefix +++ entryName]
  | DirentOther _ => []
  end.

Definition tree_paths (entries : list Dirent) : list string :=
  flat_map (tree_paths_entry "") entries.

(** [marker] occurs in [s]. *)
Definition contains (s marker : string) : Prop :=
  exists before after, s = before +++ marker +++ after.

(** A path that contains one of the signature markers. *)
Definition excluded (relPath : string) : Prop :=
  exists marker, In marker SIGNATURE_PATTERNS /\ contains relPath marker.

Definition not_skipped (f : FileEntry) : bool :=
  negb (shouldSkipFile (relativePath f)).

(** The files of both trees that are not skipped can be read. *)
Definition readable_files (w : World) (localApp originalApp : string) : Prop :=
  forall f,
    In f (getAllFiles w localApp localApp)
    \/ In f (getAllFiles w originalApp originalApp) ->
    not_skipped f = true ->
    file_bytes w (absolutePath f) <> None.

(** Two worlds with the same two trees and the same digest, which agree on
    every file of the trees that is not skipped; they may differ on the
    skipped files. *)
Definition same_outside_skipped (w w' : World) (localApp originalApp : string)
    : Prop :=
  dir_tree w' localApp = dir_tree w localApp
  /\ dir_tree w' originalApp = dir_tree w originalApp
  /\ (forall bytes, sha256_hex w' bytes = sha256_hex w bytes)
  /\ forall f,
       In f (getAllFiles w localApp localApp)
       \/ In f (getAllFiles w originalApp originalApp) ->
       not_skipped f = true ->
       file_bytes w' (absolutePath f) = file_bytes w (absolutePath f)
       /\ otool_l w' (absolutePath f) = otool_l w (absolutePath f).

(** The report after a sequence of classified paths. *)
Definition tally_all (r : Report) (classified : list (string * Comparison))
    : Report :=
  fold_left (fun r pc => tally r (snd pc) (fst pc)) classified r.

Definition is_match (pc : string * Comparison) : bool :=
  match snd pc with Match => true | _ => false end.

Definition is_signatureOnly (pc : string * Comparison) : bool :=
  match snd pc with SignatureOnly => true | _ => false end.

Definition is_modified (pc : string * Comparison) : bool :=
  match snd pc with Modified => true | _ => false end.

(** A local file that the third loop compares: not skipped, and present in
    the original. *)
Definition compared (originalSet : list string) (f : FileEntry) : bool :=
  negb (shouldSkipFile (relativePath f))
  && Set_has originalSet (relativePath f).

(** One classified path: the answer of [compareFiles] for a compared local
    file and the file of the original that has the same relative path. *)
Definition classification_of (w : World) (originalSet : list string)
    (originalFiles localFiles : list FileEntry) (tempDir : string)
    (pc : string * Comparison) : Prop :=
  exists f g,
    In f localFiles /\ relativePath f = fst pc
    /\ compared originalSet f = true
    /\ In g originalFiles /\ relativePath g = fst pc
    /\ compareFiles w (absolutePath f) (absolutePath g) (fst pc) tempDir
       = Ok (snd pc).

(** The paths that are in both trees and not skipped, each once. *)
Definition common_paths (w : World) (localApp originalApp : string)
    : list string :=
  let localSet :=
    Set_new (map relativePath (getAllFiles w localApp localApp)) in
  let originalSet :=
    Set_new (map relativePath (getAllFiles w originalApp originalApp)) in
  filter (fun p => negb (shouldSkipFile p) && Set_has originalSet p) localSet.

(** Directory listings as a file system gives them: no name contains the
    separator and the names of a directory are distinct. *)
Fixpoint distinct (names : list string) : bool :=
  match names with
  | [] => true
  | x :: rest => negb (Set_has rest x) && distinct rest
  end.

Fixpoint well_formed (entry : Dirent) : bool :=
  negb (includes (entry_name entry) "/")
  && match entry with
     | DirentDirectory _ entries =>
         distinct (map entry_name entries) && forallb well_formed entries
     | _ => true
     end.

Definition well_formed_tree (entries : list Dirent) : bool :=
  distinct (map entry_name entries) && forallb well_formed entries.

(** A re-signed build next to its original. The executable [b.bin] differs
    from the original only in its last byte, which is in [__LINKEDIT]; the
    original has one more file, [c.txt]; the local build has a signature
    directory, whose file cannot be read. *)
Definition signed_otool : string :=
  "Section sectname __text segname __TEXT addr 0x0000000100000f50 size 0x0000000000000003 offset 4 "
  +++ "Section sectname __bss segname __DATA addr 0x0000000100001000 size 0x0000000000000010 offset 0 "
  +++ "Section sectname __sig segname __LINKEDIT addr 0x0000000100002000 size 0x0000000000000001 offset 7".

Definition signed_world : World :=
  {| dir_tree := fun dir =>
       if String.eqb dir "/local" then
         [ DirentFile "a.txt"; DirentFile "b.bin";
           DirentDirectory "_CodeSignature" [ DirentFile "CodeResources" ] ]
       else if String.eqb dir "/original" then
         [ DirentFile "a.txt"; DirentFile "b.bin"; DirentFile "c.txt" ]
       else [];
     file_bytes := fun path =>
       if String.eqb path "/local/b.bin"
       then Some [xcf; xfa; xed; xfe; x01; x02; x03; xaa]
       else if String.eqb path "/original/b.bin"
       then Some [xcf; xfa; xed; xfe; x01; x02; x03; xbb]
       else if String.eqb path "/local/a.txt" then Some [x68; x69]
       else if String.eqb path "/original/a.txt" then Some [x68; x69]
       else if String.eqb path "/original/c.txt" then Some [x68; x6f]
       else if String.eqb path "/local/note.txt" then Some [x01]
       else if String.eqb path "/original/note.txt" then Some [x02]
       else None;
     otool_l := fun path =>
       if includes path "b.bin" then Some signed_otool else None;
     sha256_hex := example_digest |}.

(** A build next to a copy of itself: the same tree under every root, and
    the same bytes in every file. *)
Definition mirror_world : World :=
  {| dir_tree := fun _ =>
       [ DirentFile "Info.plist";
         DirentDirectory "_CodeSignature" [ DirentFile "CodeResources" ];
         DirentDirectory "MacOS" [ DirentFile "cefclient"; DirentOther "link" ] ];
     file_bytes := fun _ => Some [x68; x69];
     otool_l := fun _ => None;
     sha256_hex := example_digest |}.
From Stdlib Require Import Numbers.DecimalString.

(** ** [findCefClientApp] *)

(** The test of [if (found)]: [null] and the empty string are falsy. *)
Definition truthy (found : option string) : bool :=
  match found with
  | Some EmptyString => false
  | Some _ => true
  | None => false
  end.

(** The first entry for which the body of the [for] loop returns, and what
    it returns; [None] is the [return null] after the loop. *)
Fixpoint first_return (returns : list (option string)) : option string :=
  match returns with
  | [] => None
  | Some found :: _ => Some found
  | None :: rest => first_return rest
  end.

(** The body of the loop of [find] for one entry of [currentDir]: [Some] is
    a [return], [None] lets the loop go on. *)
Fixpoint find_entry (currentDir : string) (entry : Dirent) : option string :=
  match entry with
  | DirentDirectory entryName entries =>
      let fullPath := path_join currentDir entryName in
      if String.eqb entryName "cefclient.app" then Some fullPath
      else
        let found := first_return (map (find_entry fullPath) entries) in
        if truthy found then found else None
  | DirentFile _ => None
  | DirentOther _ => None
  end.

(** [find(currentDir)], given the entries of [currentDir]. *)
Definition find_in (currentDir : string) (entries : list Dirent) : option string :=
  first_return (map (find_entry currentDir) entries).

Definition findCefClientApp (w : World) (dir : string) : option string :=
  find_in dir (dir_tree w dir).

(** ** [split] and [join] *)

(** [s.split(sep)] for a separator of one character. *)
Fixpoint split_on (sep : ascii) (s : string) : list string :=
  match s with
  | EmptyString => [EmptyString]
  | String c s' =>
      if Ascii.eqb c sep then EmptyString :: split_on sep s'
      else
        match split_on sep s' with
        | part :: parts => String c part :: parts
        | [] => [String c EmptyString]
        end
  end.

(** [parts.join(sep)] *)
Fixpoint join_with (sep : string) (parts : list string) : string :=
  match parts with
  | [] => EmptyString
  | [part] => part
  | part :: rest => part +++ sep +++ join_with sep rest
  end.

(** [s.startsWith(prefix)] *)
Definition startsWith (s prefix : string) : bool :=
  match strip_prefix prefix s with
  | Some _ => true
  | None => false
  end.

(** ** [detectCefVersion] *)

(** What [plist.CFBundleShortVersionString] is: a string; a falsy value
    that is not a string ([undefined] when the key is absent, [null],
    [false], [0]); or a truthy value that is not a string (a number, an
    object), on which [split] is not a function. *)
Inductive PlistField : Type :=
| FieldString (s : string)
| FieldFalsy
| FieldTruthy.

Record PlistTool : Type := {
  (** [fs.existsSync(path)] *)
  plist_exists : string -> bool;
  (** the field read from [JSON.parse] of the output of [plutil] for a
      path; a [Throw] when [plutil] fails or its output does not parse *)
  plutil_field : string -> completion PlistField
}.

(** The body of the [try] block. *)
Definition detectCefVersion_try (t : PlistTool) (infoPlistPath : string)
    : completion string :=
  bundleVersion <- plutil_field t infoPlistPath ;;
  match bundleVersion with
  | FieldFalsy => Throw "CFBundleShortVersionString not found"
  | FieldTruthy => Throw "bundleVersion.split is not a function"
  | FieldString EmptyString => Throw "CFBundleShortVersionString not found"
  | FieldString bundleVersion =>
      let parts := split_on "." bundleVersion in
      Ok (join_with "." (firstn 3 parts))
  end.

Definition detectCefVersion (t : PlistTool) (appPath : string)
    : completion string :=
  let infoPlistPath := path_join (path_join appPath "Contents") "Info.plist" in
  if negb (plist_exists t infoPlistPath)
  then Throw "Could not find Info.plist to detect version"
  else
    match detectCefVersion_try t infoPlistPath with
    | Ok version => Ok version
    | Throw message => Throw ("Failed to parse Info.plist: " +++ message)
    end.

(** ** [findOriginalCefBuild] *)

(** The index of builds, as far as the script reads it. [None] stands for a
    key that is absent. *)
Record IndexFile : Type := {
  file_type : string;
  file_name : string;
  file_sha1 : string;
  file_size : Z
}.

Record Build : Type := {
  cef_version : option string;
  files : option (list IndexFile)
}.

Record CefIndex : Type := {
  macosx64 : option (list Build);
  macosarm64 : option (list Build)
}.

Record BuildDescriptor : Type := {
  url : string;
  sha1 : string;
  size_bytes : Z;
  archive_name : string
}.

(** [build.files?.find(f => f.type === 'client')] *)
Definition clientFileOf (build : Build) : option IndexFile :=
  match files build with
  | Some fs => List.find (fun f => String.eqb (file_type f) "client") fs
  | None => None
  end.

(** The loop over the builds of one platform: [Some] is the [return]. *)
Fixpoint search_builds (majorVersion : string) (fullVersion : option string)
    (builds : list Build) : option BuildDescriptor :=
  match builds with
  | [] => None
  | build :: rest =>
      match cef_version build with
      | None => search_builds majorVersion fullVersion rest
      | Some EmptyString => search_builds majorVersion fullVersion rest
      | Some buildVersion =>
          let matches :=
            if truthy fullVersion then
              match fullVersion with
              | Some fullVersion => startsWith buildVersion (fullVersion +++ "+")
              | None => false
              end
            else startsWith buildVersion (majorVersion +++ ".") in
          if matches then
            match clientFileOf build with
            | Some clientFile =>
                Some {| url := "https://cef-builds.spotifycdn.com/"
                               +++ file_name clientFile;
                        sha1 := file_sha1 clientFile;
                        size_bytes := file_size clientFile;
                        archive_name := file_name clientFile |}
            | None => search_builds majorVersion fullVersion rest
            end
          else search_builds majorVersion fullVersion rest
      end
  end.

(** [index[platform]?.versions || []] *)
Definition versions_of (platform : option (list Build)) : list Build :=
  match platform with
  | Some builds => builds
  | None => []
  end.

(** [findOriginalCefBuild(version)], given what [fetchJson] of the index
    resolves or rejects with. *)
Definition findOriginalCefBuild (fetched : completion CefIndex)
    (version : string) : completion BuildDescriptor :=
  index <- fetched ;;
  let versionParts := split_on "." version in
  let majorVersion := hd EmptyString versionParts in
  let fullVersion :=
    if (3 <=? List.length versionParts)%nat then Some version else None in
  match search_builds majorVersion fullVersion (versions_of (macosx64 index)) with
  | Some found => Ok found
  | None =>
      match search_builds majorVersion fullVersion
              (versions_of (macosarm64 index)) with
      | Some found => Ok found
      | None =>
          Throw ("Could not find CEF build for version " +++ version
                 +++ ". Check https://cef-builds.spotifycdn.com/index.html")
      end
  end.

(** ** Notions used in the statements about the collaborators *)

(** The directories of a tree in depth-first order, a directory before what
    it contains: the path and the name of each. *)
Fixpoint directories (currentDir : string) (entry : Dirent)
    : list (string * string) :=
  match entry with
  | DirentDirectory entryName entries =>
      (path_join currentDir entryName, entryName)
      :: flat_map (directories (path_join currentDir entryName)) entries
  | DirentFile _ => []
  | DirentOther _ => []
  end.

Definition named_app (d : string * string) : bool :=
  String.eqb (snd d) "cefclient.app".

(** The number of components of a dotted version. *)
Definition components (version : string) : nat :=
  List.length (split_on "." version).

(** A build that a search for [version] accepts: its version is a string
    that is not empty and starts with [version] and a plus sign when
    [version] has three components or more, with the first component of
    [version] and a dot otherwise; and it has a file of type [client]. *)
Definition version_matches (version buildVersion : string) : bool :=
  if (3 <=? components version)%nat
  then startsWith buildVersion (version +++ "+")
  else startsWith buildVersion
         (hd EmptyString (split_on "." version) +++ ".").

Definition acceptable (version : string) (build : Build) : bool :=
  match cef_version build, clientFileOf build with
  | Some buildVersion, Some _ =>
      negb (String.eqb buildVersion EmptyString)
      && version_matches version buildVersion
  | _, _ => false
  end.

Definition descriptor_of (clientFile : IndexFile) : BuildDescriptor :=
  {| url := "https://cef-builds.spotifycdn.com/" +++ file_name clientFile;
     sha1 := file_sha1 clientFile;
     size_bytes := file_size clientFile;
     archive_name := file_name clientFile |}.

(** The builds of the index in the order the search visits them. *)
Definition all_builds (index : CefIndex) : list Build :=
  versions_of (macosx64 index) ++ versions_of (macosarm64 index).

(** ** [hashFileSha1] and [main] *)

(** What [main] reaches beyond the comparator. Every field is what the
    call it stands for returns at the one moment the script makes it; the
    world holds the file system as the calls after the extractions and the
    download find it. *)
Record Env : Type := {
  env_world : World;
  (** [fs.existsSync(path)] *)
  env_existsSync : string -> bool;
  (** [fs.mkdtempSync(path.join(os.tmpdir(), 'cef-verify-'))] *)
  env_mkdtempSync : completion string;
  (** [fs.mkdirSync(dir)] followed by [execSync] of [unzip -q zip -d dir] *)
  env_unzip : string -> string -> completion unit;
  (** the field that [detectCefVersion] reads through [plutil] *)
  env_plutil : string -> completion PlistField;
  (** [fetchJson(CEF_BUILDS_INDEX)] *)
  env_fetchIndex : completion CefIndex;
  (** [downloadFile(url, outputPath)] *)
  env_downloadFile : string -> string -> completion unit;
  (** [crypto.createHash('sha1').update(bytes).digest('hex')] *)
  env_sha1_hex : list byte -> string;
  (** [fs.mkdirSync(dir)] followed by [execSync] of [tar -xjf archive -C dir] *)
  env_untar : string -> string -> completion unit
}.

Definition hashFileSha1 (e : Env) (filePath : string) : completion string :=
  content <- readFileSync (env_world e) filePath ;;
  Ok (env_sha1_hex e content).

Definition newline : string := String "010"%char EmptyString.

(** The body of the [try] block of [main]: the status it gives to
    [process.exit], or what it throws. *)
Definition main_try (e : Env) (localZipPath : string)
    (cefVersionArg : option string) (tempDir : string) : completion Z :=
  let localExtractDir := path_join tempDir "local" in
  let originalExtractDir := path_join tempDir "original" in
  _ <- env_unzip e localZipPath localExtractDir ;;
  let localAppPath := findCefClientApp (env_world e) localExtractDir in
  match localAppPath with
  | None => Throw "Could not find cefclient.app in local archive"
  | Some EmptyString => Throw "Could not find cefclient.app in local archive"
  | Some localAppPath =>
      cefVersion <-
        (match cefVersionArg with
         | Some (String c v) => Ok (String c v)
         | _ =>
             detectCefVersion
               {| plist_exists := env_existsSync e;
                  plutil_field := env_plutil e |} localAppPath
         end) ;;
      originalBuild <- findOriginalCefBuild (env_fetchIndex e) cefVersion ;;
      let originalZipPath := path_join tempDir "original.tar.bz2" in
      _ <- env_downloadFile e (url originalBuild) originalZipPath ;;
      actualSha1 <- hashFileSha1 e originalZipPath ;;
      if negb (String.eqb actualSha1 (sha1 originalBuild))
      then Throw ("SHA1 mismatch!" +++ newline
                  +++ "  Expected: " +++ sha1 originalBuild +++ newline
                  +++ "  Actual:   " +++ actualSha1)
      else
        _ <- env_untar e originalZipPath originalExtractDir ;;
        let originalAppPath := findCefClientApp (env_world e) originalExtractDir in
        match originalAppPath with
        | None => Throw "Could not find cefclient.app in original archive"
        | Some EmptyString =>
            Throw "Could not find cefclient.app in original archive"
        | Some originalAppPath =>
            result <- compareApps (env_world e) localAppPath originalAppPath
                        tempDir ;;
            Ok (exitCode result)
        end
  end.

(** How a run ends: the exit status, and whether the [finally] block has
    removed the temporary directory. *)
Record Exit : Type := {
  exit_code : Z;
  cleaned_up : bool
}.

(** [main], with [args] for [process.argv.slice(2)], together with the
    [catch] that follows its call. [process.exit] ends the process at once,
    so when the [try] block reaches it the [finally] block does not run;
    when the block throws, the [finally] block runs and the [catch] exits
    with status 1. *)
Definition main (e : Env) (args : list string) : Exit :=
  match args with
  | [] => {| exit_code := 1; cleaned_up := false |}
  | localZipPath :: rest =>
      let cefVersionArg := hd_error rest in
      if negb (env_existsSync e localZipPath)
      then {| exit_code := 1; cleaned_up := false |}
      else
        match env_mkdtempSync e with
        | Throw _ => {| exit_code := 1; cleaned_up := false |}
        | Ok tempDir =>
            match main_try e localZipPath cefVersionArg tempDir with
            | Ok status => {| exit_code := status; cleaned_up := false |}
            | Throw _ => {| exit_code := 1; cleaned_up := true |}
            end
        end
  end.

(** The environment with another property-list reader. *)
Definition with_plutil (e : Env) (plutil : string -> completion PlistField)
    : Env :=
  {| env_world := env_world e;
     env_existsSync := env_existsSync e;
     env_mkdtempSync := env_mkdtempSync e;
     env_unzip := env_unzip e;
     env_plutil := plutil;
     env_fetchIndex := env_fetchIndex e;
     env_downloadFile := env_downloadFile e;
     env_sha1_hex := env_sha1_hex e;
     env_untar := env_untar e |}.

(** ** [download-release.js] *)

Record Asset : Type := {
  asset_name : string;
  asset_size : Z;
  browser_download_url : string
}.

Record GitHub : Type := {
  (** [fetchJson(url)]: the assets of the release that the API describes *)
  gh_fetchJson : string -> completion (list Asset);
  (** [downloadFile(url, outputPath)] *)
  gh_downloadFile : string -> string -> completion unit
}.

(** The requests that a run makes, in order. *)
Inductive Request : Type :=
| Fetch (apiUrl : string)
| Download (downloadUrl outputPath : string).

Definition dquote : string := String "034"%char EmptyString.

Definition downloadGitHubRelease (gh : GitHub)
    (owner repo tag assetName outputPath : string)
    : list Request * completion unit :=
  let isLatest := String.eqb tag "latest" in
  let apiUrl :=
    if isLatest
    then "https://api.github.com/repos/" +++ owner +++ "/" +++ repo
         +++ "/releases/latest"
    else "https://api.github.com/repos/" +++ owner +++ "/" +++ repo
         +++ "/releases/tags/" +++ tag in
  match gh_fetchJson gh apiUrl with
  | Throw message => ([Fetch apiUrl], Throw message)
  | Ok assets =>
      match List.find (fun a => String.eqb (asset_name a) assetName) assets with
      | None =>
          let availableAssets := join_with ", " (map asset_name assets) in
          ([Fetch apiUrl],
           Throw ("Asset " +++ dquote +++ assetName +++ dquote
                  +++ " not found. Available: "
                  +++ match availableAssets with
                      | EmptyString => "none"
                      | _ => availableAssets
                      end))
      | Some asset =>
          ([Fetch apiUrl; Download (browser_download_url asset) outputPath],
           gh_downloadFile gh (browser_download_url asset) outputPath)
      end
  end.

(** The script run from the command line: the requests it makes and its
    exit status. *)
Definition download_release_cli (gh : GitHub) (args : list string)
    : list Request * Z :=
  match args with
  | owner :: repo :: tag :: assetName :: rest =>
      let outputPath :=
        match rest with
        | [] => assetName
        | outputPath :: _ => outputPath
        end in
      match downloadGitHubRelease gh owner repo tag assetName outputPath with
      | (requests, Ok _) => (requests, 0)
      | (requests, Throw _) => (requests, 1)
      end
  | _ => ([], 1)
  end.

(** ** Notions used in the statements about [main] *)

(** The version that a run searches the index for: the second argument when
    there is one and it is not empty, what [detectCefVersion] finds in the
    local application otherwise. *)
Definition version_for (e : Env) (cefVersionArg : option string)
    (localAppPath cefVersion : string) : Prop :=
  (exists c v, cefVersionArg = Some (String c v) /\ cefVersion = String c v)
  \/ ((cefVersionArg = None \/ cefVersionArg = Some EmptyString)
      /\ detectCefVersion
           {| plist_exists := env_existsSync e; plutil_field := env_plutil e |}
           localAppPath = Ok cefVersion).

(** The steps that a [try] block that reaches [process.exit] has gone
    through. *)
Definition verified_run (e : Env) (localZipPath : string)
    (cefVersionArg : option string) (tempDir : string) (report : Report)
    : Prop :=
  exists localAppPath cefVersion originalBuild content originalAppPath,
    env_unzip e localZipPath (path_join tempDir "local") = Ok tt
    /\ findCefClientApp (env_world e) (path_join tempDir "local")
       = Some localAppPath
    /\ version_for e cefVersionArg localAppPath cefVersion
    /\ findOriginalCefBuild (env_fetchIndex e) cefVersion = Ok originalBuild
    /\ env_downloadFile e (url originalBuild)
         (path_join tempDir "original.tar.bz2") = Ok tt
    /\ file_bytes (env_world e) (path_join tempDir "original.tar.bz2")
       = Some content
    /\ env_sha1_hex e content = sha1 originalBuild
    /\ env_untar e (path_join tempDir "original.tar.bz2")
         (path_join tempDir "original") = Ok tt
    /\ findCefClientApp (env_world e) (path_join tempDir "original")
       = Some originalAppPath
    /\ compareApps (env_world e) localAppPath originalAppPath tempDir
       = Ok report.

(** ** Notions used in the statements about [download-release.js] *)

(** The URL of the API that describes a release. *)
Definition release_api_url (owner repo tag : string) : string :=
  "https://api.github.com/repos/" +++ owner +++ "/" +++ repo
  +++ (if String.eqb tag "latest" then "/releases/latest"
       else "/releases/tags/" +++ tag).

Definition is_download (r : Request) : bool :=
  match r with
  | Download _ _ => true
  | Fetch _ => false
  end.

(** ** Notions used in the further statements about the comparator *)

(** Every character of [s] satisfies [p]. *)
Fixpoint all_chars (p : ascii -> bool) (s : string) : bool :=
  match s with
  | EmptyString => true
  | String c s' => p c && all_chars p s'
  end.

(** A compared local file one side of which cannot be read. *)
Definition unreadable_pair (w : World) (originalSet : list string)
    (originalFiles : list FileEntry) (f : FileEntry) : Prop :=
  compared originalSet f = true
  /\ (file_bytes w (absolutePath f) = None
      \/ exists g,
           List.find (fun g => String.eqb (relativePath g) (relativePath f))
             originalFiles = Some g
           /\ file_bytes w (absolutePath g) = None).

(** ** [formatBytes] *)

(** The decimal digits of an integer, as [String(n)] gives them. *)
Definition decimal (n : Z) : string :=
  DecimalString.NilZero.string_of_int (Z.to_int n).

(** [(num / den).toFixed(1)] for a quotient that is not negative and that
    a double holds exactly, as is the quotient of an integer below 2^53 by a
    power of two: the tenths nearest to the quotient, the larger of the two
    when it is half way, then the integer part, a point and one digit. *)
Definition tenths_of (num den : Z) : Z := (20 * num + den) / (2 * den).

Definition toFixed1 (num den : Z) : string :=
  let tenths := tenths_of num den in
  decimal (tenths / 10) +++ "." +++ decimal (tenths mod 10).

(** [formatBytes(bytes)] for an integer number of bytes of at most 2^53 - 1,
    which a number holds exactly: the quotients by 1024 and by 1024 * 1024
    are then exact too, and far below 10^21, from where on [toFixed] prints
    the exponent notation. Beyond that range the function is not the
    script's. *)
Definition formatBytes (bytes : Z) : string :=
  if bytes <? 1024 then decimal bytes +++ " B"
  else if bytes <? 1024 * 1024 then toFixed1 bytes 1024 +++ " KB"
  else toFixed1 bytes (1024 * 1024) +++ " MB".

(** ** Example environment *)

(** A run of the script on a re-signed archive of CEF 73.1.5: the local
    archive unpacks to the application with a signature directory, the index
    lists one build with a client file, the download has the checksum of the
    index, and the original unpacks to the application nested in the
    directories of the distribution. The executable differs from the
    original in its last byte, which is in [__LINKEDIT]. *)
Definition example_app : list Dirent :=
  [ DirentDirectory "Contents"
      [ DirentFile "Info.plist";
        DirentDirectory "MacOS" [ DirentFile "cefclient" ] ] ].

Definition example_signed_app : list Dirent :=
  [ DirentDirectory "Contents"
      [ DirentFile "Info.plist";
        DirentDirectory "MacOS" [ DirentFile "cefclient" ];
        DirentDirectory "_CodeSignature" [ DirentFile "CodeResources" ] ] ].

Definition example_archive : list byte := [x42; x5a; x68; x39].

Definition example_world : World :=
  {| dir_tree := fun dir =>
       if String.eqb dir "/tmp/cef-verify-1/local"
       then [ DirentFile "README.txt";
              DirentDirectory "cefclient.app" example_signed_app ]
       else if String.eqb dir "/tmp/cef-verify-1/original"
       then [ DirentDirectory "cef_binary_client"
                [ DirentDirectory "Release"
                    [ DirentDirectory "cefclient.app" example_app ] ] ]
       else if String.eqb dir "/tmp/cef-verify-1/local/cefclient.app"
       then example_signed_app
       else if String.eqb dir
                 "/tmp/cef-verify-1/original/cef_binary_client/Release/cefclient.app"
       then example_app
       else [];
     file_bytes := fun path =>
       if String.eqb path "/tmp/cef-verify-1/original.tar.bz2"
       then Some example_archive
       else if String.eqb path
                 "/tmp/cef-verify-1/local/cefclient.app/Contents/MacOS/cefclient"
       then Some [xcf; xfa; xed; xfe; x01; x02; x03; xaa]
       else if String.eqb path
                 "/tmp/cef-verify-1/original/cef_binary_client/Release/cefclient.app/Contents/MacOS/cefclient"
       then Some [xcf; xfa; xed; xfe; x01; x02; x03; xbb]
       else if includes path "Info.plist" then Some [x3c; x3f]
       else None;
     otool_l := fun path =>
       if includes path "MacOS/cefclient" then Some signed_otool else None;
     sha256_hex := example_digest |}.

Definition example_index : CefIndex :=
  {| macosx64 :=
       Some [ {| cef_version := Some "74.1.19+gb62bacf+chromium-74.0.3729.157";
                 files := Some [ {| file_type := "client";
                                    file_name := "cef_binary_74.1.19_client.tar.bz2";
                                    file_sha1 := "0000";
                                    file_size := 1 |} ] |};
              {| cef_version := Some "73.1.50+g0000000+chromium-73.0.3683.75";
                 files := None |};
              {| cef_version := Some "73.1.5+g4a68f1d+chromium-73.0.3683.75";
                 files := Some [ {| file_type := "standard";
                                    file_name := "cef_binary_73.1.5.tar.bz2";
                                    file_sha1 := "1111";
                                    file_size := 98765432 |};
                                 {| file_type := "client";
                                    file_name := "cef_binary_73.1.5_client.tar.bz2";
                                    file_sha1 := example_digest example_archive;
                                    file_size := 75497472 |} ] |} ];
     macosarm64 := None |}.

Definition example_env : Env :=
  {| env_world := example_world;
     env_existsSync := fun path =>
       String.eqb path "cefclient.zip" || includes path "Info.plist";
     env_mkdtempSync := Ok "/tmp/cef-verify-1";
     env_unzip := fun _ _ => Ok tt;
     env_plutil := fun _ => Ok (FieldString "73.1.5.0");
     env_fetchIndex := Ok example_index;
     env_downloadFile := fun _ _ => Ok tt;
     env_sha1_hex := example_digest;
     env_untar := fun _ _ => Ok tt |}.

Definition example_github : GitHub :=
  {| gh_fetchJson := fun apiUrl =>
       if String.eqb apiUrl
            "https://api.github.com/repos/wowlocal/cef-build-macos/releases/tags/73"
       then Ok [ {| asset_name := "notes.txt"; asset_size := 120;
                    browser_download_url := "https://example.org/notes.txt" |};
                 {| asset_name := "cefclient.zip"; asset_size := 75497472;
                    browser_download_url := "https://example.org/cefclient.zip" |} ]
       else Throw "API request failed with status 404";
     gh_downloadFile := fun _ _ => Ok tt |}.

(** ** Notions used in the statement about the failures of the section digest *)

(** A size that the section loop can hash: a number from 1 to
    [READ_LIMIT]. *)
Definition readable_size (n : jsnum) : bool :=
  match n with
  | Num length => (1 <=? length) && (length <=? READ_LIMIT)
  | NaN => false
  end.

(** A section that the releases of Node.js from 14 on, and the platforms,
    treat alike. Its offset is a safe integer that is not negative: what is
    above is rejected by the current releases and read at the current
    position by Node.js 14, and is rounded by [parseInt]. Its size, if it is
    a number, is at most [READ_LIMIT], or is from 2^31 to 2^32 - 1, where
    [Buffer.alloc] or, after [length |= 0], [fs.readSync] throws before
    anything is read. Between the two the platforms differ; a size above
    2^32 - 1 is refused by [Buffer.alloc] in Node.js 14 and wrapped by
    [length |= 0] in the releases that can allocate it. *)
Definition portable_section (s : Section) : bool :=
  match offset s with
  | Num position =>
      (0 <=? position) && (position <=? MAX_SAFE_INTEGER)
      && match size s with
         | Num length =>
             (length <=? READ_LIMIT)
             || ((INT32_MAX <? length) && (length <=? kMaxLength))
         | NaN => true
         end
  | NaN => false
  end.

(** An executable whose only section is declared with the size 2^31. *)
Definition oversized_otool : string :=
  "Section sectname __text segname __TEXT addr 0x0000000100000f50 size 0x0000000080000000 offset 4 align 2^4 (16)".

Definition oversized_world : World :=
  {| dir_tree := fun _ => [];
     file_bytes := fun path =>
       if String.eqb path "/app/bin" then Some truncated_content else None;
     otool_l := fun path =>
       if String.eqb path "/app/bin" then Some oversized_otool else None;
     sha256_hex := example_digest |}.

(** ** Notions used in the statements about the outcomes *)

(** The two whole-file digests exist and differ. *)
Definition digests_differ (w : World) (localPath originalPath : string) : Prop :=
  exists localHash originalHash,
    hashFile w localPath = Ok localHash
    /\ hashFile w originalPath = Ok originalHash
    /\ localHash <> originalHash.

(** The local file is an executable and the two section digests exist and
    are equal. *)
Definition sections_agree (w : World) (localPath originalPath tempDir : string)
    : Prop :=
  isMachO w localPath = true
  /\ exists digest,
       hashMachOSegments w localPath tempDir "local" = Ok digest
       /\ hashMachOSegments w originalPath tempDir "original" = Ok digest.

(** A section block as [otool -l] prints it, the white space between the
    fields left open, followed by [rest]. *)
Definition section_block (sectname ws1 segname ws2 addr ws3 sizeHex ws4
    offsetStr rest : string) : string :=
  "sectname " +++ sectname +++ ws1
  +++ "segname " +++ segname +++ ws2
  +++ "addr " +++ addr +++ ws3
  +++ "size " +++ sizeHex +++ ws4
  +++ "offset " +++ offsetStr +++ rest.

(** A field: characters that are not white space, at least one. *)
Definition is_token (s : string) : bool :=
  negb (String.eqb s EmptyString) && all_chars non_space s.

(** White space between two fields. *)
Definition is_gap (s : string) : bool :=
  negb (String.eqb s EmptyString) && all_chars is_space s.

(** [s] does not begin with a digit. *)
Definition no_digit_ahead (s : string) : bool :=
  match s with
  | EmptyString => true
  | String c _ => negb (is_digit c)
  end.

(** * Properties *)

(** ** Tactics and basic facts *)

(** Splits the boolean hypotheses and goals into arithmetic ones. *)
Ltac bool_to_prop :=
  repeat match goal with
  | H : _ && _ = true |- _ => apply andb_true_iff in H; destruct H
  | H : _ || _ = true |- _ => apply orb_true_iff in H; destruct H
  | H : _ || _ = false |- _ => apply orb_false_iff in H; destruct H
  | H : _ && _ = false |- _ => apply andb_false_iff in H; destruct H
  | H : negb _ = true |- _ => apply negb_true_iff in H
  | H : negb _ = false |- _ => apply negb_false_iff in H
  | H : (_ =? _)%Z = true |- _ => apply Z.eqb_eq in H
  | H : (_ =? _)%Z = false |- _ => apply Z.eqb_neq in H
  | H : (_ <=? _)%Z = true |- _ => apply Z.leb_le in H
  | H : (_ <=? _)%Z = false |- _ => apply Z.leb_gt in H
  | H : (_ <? _)%Z = true |- _ => apply Z.ltb_lt in H
  | H : (_ <? _)%Z = false |- _ => apply Z.ltb_ge in H
  end.

Lemma byte_val_range (b : byte) : 0 <= byte_val b <= 255.
Proof.
  unfold byte_val. pose proof (Byte.to_N_bounded b). lia.
Qed.

Lemma length_zero_nil {A : Type} (l : list A) :
  (List.length l =? 0)%nat = true <-> l = [].
Proof.
  destruct l; simpl; split; intro H; try reflexivity; discriminate.
Qed.

(** ** The verdict *)

(** C1. The verdict is a pass exactly when [missingInLocal] and [modified]
    are both empty; it does not depend on [signatureOnly] or on
    [missingInOriginal] (nor on [matched]), so what those hold never makes
    the verification fail; and the exit status is 0 exactly on a pass. *)
Theorem verdict_pass_iff (r : Report) :
  (isValid r = true <-> missingInLocal r = [] /\ modified r = [])
  /\ (forall (n : nat) (sigOnly extra : list string),
        isValid {| matched := n;
                   modified := modified r;
                   signatureOnly := sigOnly;
                   missingInLocal := missingInLocal r;
                   missingInOriginal := extra |} = isValid r)
  /\ (exitCode r = 0 <-> isValid r = true).
Proof.
  split; [ | split ].
  - unfold isValid. rewrite andb_true_iff, !length_zero_nil. tauto.
  - intros; reflexivity.
  - unfold exitCode. destruct (isValid r); split; intro H;
      try reflexivity; discriminate.
Qed.

(** ** The format sniffer *)

Lemma is_magic_In (magic : Z) :
  is_magic magic = true
  <-> In magic [MH_MAGIC; MH_MAGIC_64; FAT_MAGIC; FAT_CIGAM].
Proof.
  unfold is_magic. rewrite !orb_true_iff, !Z.eqb_eq. simpl.
  intuition congruence.
Qed.

(** A value whose top byte is zero is none of the four magic numbers: this
    is what a file of fewer than four bytes gives, the buffer being zero
    where nothing was read. *)
Lemma small_not_magic (magic : Z) :
  0 <= magic < 2 ^ 24 -> is_magic magic = false.
Proof.
  intro H. unfold is_magic, MH_MAGIC, MH_MAGIC_64, FAT_MAGIC, FAT_CIGAM.
  rewrite !orb_false_iff, !Z.eqb_neq. lia.
Qed.

(** What [isMachO] computes, by the length of the file. *)
Lemma isMachO_unfold (w : World) (filePath : string) :
  isMachO w filePath =
  match file_bytes w filePath with
  | None => false
  | Some (b0 :: b1 :: b2 :: b3 :: _) => is_magic (uint32LE b0 b1 b2 b3)
  | Some [b0; b1; b2] => is_magic (uint32LE b0 b1 b2 "000"%byte)
  | Some [b0; b1] => is_magic (uint32LE b0 b1 "000"%byte "000"%byte)
  | Some [b0] => is_magic (uint32LE b0 "000"%byte "000"%byte "000"%byte)
  | Some [] =>
      is_magic (uint32LE "000"%byte "000"%byte "000"%byte "000"%byte)
  end.
Proof.
  unfold isMachO, isMachO_try, openSync.
  destruct (file_bytes w filePath) as [content | ]; [ | reflexivity ].
  destruct content as [ | b0 [ | b1 [ | b2 [ | b3 rest ] ] ] ]; reflexivity.
Qed.

(** C6. [isMachO] is a total function to booleans: whatever its [try] block
    throws, the [catch] returns [false]. It answers [true] exactly when the
    file can be read, has at least four bytes, and the first four, read as a
    little-endian 32-bit integer, are one of the four magic numbers. In
    particular it answers [false] for a file that cannot be opened and for a
    file shorter than four bytes. *)
Theorem isMachO_iff_magic (w : World) (filePath : string) :
  (isMachO w filePath = true
   <-> exists b0 b1 b2 b3 rest,
         file_bytes w filePath = Some (b0 :: b1 :: b2 :: b3 :: rest)
         /\ In (uint32LE b0 b1 b2 b3)
              [MH_MAGIC; MH_MAGIC_64; FAT_MAGIC; FAT_CIGAM])
  /\ (isMachO w filePath = false
      <-> ~ exists b0 b1 b2 b3 rest,
            file_bytes w filePath = Some (b0 :: b1 :: b2 :: b3 :: rest)
            /\ In (uint32LE b0 b1 b2 b3)
                 [MH_MAGIC; MH_MAGIC_64; FAT_MAGIC; FAT_CIGAM])
  /\ (file_bytes w filePath = None -> isMachO w filePath = false)
  /\ (forall content,
        file_bytes w filePath = Some content ->
        (List.length content < 4)%nat ->
        isMachO w filePath = false)
  /\ (forall message,
        isMachO_try w filePath = Throw message ->
        isMachO w filePath = false).
Proof.
  assert (Hiff : isMachO w filePath = true
   <-> exists b0 b1 b2 b3 rest,
         file_bytes w filePath = Some (b0 :: b1 :: b2 :: b3 :: rest)
         /\ In (uint32LE b0 b1 b2 b3)
              [MH_MAGIC; MH_MAGIC_64; FAT_MAGIC; FAT_CIGAM]).
  { rewrite isMachO_unfold.
    destruct (file_bytes w filePath) as [content | ].
    - destruct content as [ | b0 [ | b1 [ | b2 [ | b3 rest ] ] ] ].
      1-4: rewrite small_not_magic;
        [ split; [ discriminate | intros (? & ? & ? & ? & ? & Heq & _); discriminate ]
        | unfold uint32LE;
          repeat match goal with
                 | |- context [byte_val ?b] =>
                     lazymatch b with
                     | "000"%byte => change (byte_val b) with 0
                     | _ => pose proof (byte_val_range b);
                            generalize dependent (byte_val b); intros
                     end
                 end; lia ].
      rewrite is_magic_In. split.
      + intro H. exists b0, b1, b2, b3, rest. split; [ reflexivity | exact H ].
      + intros (c0 & c1 & c2 & c3 & rest' & Heq & Hin).
        injection Heq as -> -> -> -> _. exact Hin.
    - split; [ discriminate | intros (? & ? & ? & ? & ? & Heq & _); discriminate ]. }
  split; [ exact Hiff | ].
  split; [ | split; [ | split ] ].
  - rewrite <- Hiff. destruct (isMachO w filePath); split; intro H;
      try reflexivity; try discriminate; congruence.
  - intro Hnone. rewrite isMachO_unfold, Hnone. reflexivity.
  - intros content Hsome Hlen.
    apply not_true_is_false. intro E.
    apply Hiff in E. destruct E as (? & ? & ? & ? & ? & Heq & _).
    rewrite Hsome in Heq. injection Heq as ->. simpl in Hlen. lia.
  - intros message Hthrow. unfold isMachO. rewrite Hthrow. reflexivity.
Qed.

(** ** The file-pair classifier *)

Lemma compareFiles_differ (w : World)
    (localPath originalPath relativePath tempDir localHash originalHash : string) :
  hashFile w localPath = Ok localHash ->
  hashFile w originalPath = Ok originalHash ->
  localHash <> originalHash ->
  compareFiles w localPath originalPath relativePath tempDir =
  if isMachO w localPath then
    match hashMachOSegments w localPath tempDir "local",
          hashMachOSegments w originalPath tempDir "original" with
    | Ok localSegmentHash, Ok originalSegmentHash =>
        if String.eqb localSegmentHash originalSegmentHash
        then Ok SignatureOnly else Ok Modified
    | _, _ => Ok Modified
    end
  else Ok Modified.
Proof.
  intros Hl Ho Hne. unfold compareFiles. rewrite Hl, Ho. simpl.
  apply String.eqb_neq in Hne. rewrite Hne.
  destruct (isMachO w localPath); [ | reflexivity ].
  destruct (hashMachOSegments w localPath tempDir "local") as [l | ml];
    simpl; [ | reflexivity ].
  destruct (hashMachOSegments w originalPath tempDir "original") as [o | mo];
    simpl; [ | reflexivity ].
  destruct (String.eqb l o); reflexivity.
Qed.

(** C2. When the two whole-file digests differ and the local file is an
    executable image, the answer is [SignatureOnly] exactly when the section
    digest is computed for both files and the two digests are equal, and
    [Modified] in every other case: when the computation throws for the
    local file, when it throws for the original file, and when the two
    digests differ. The answer is never [Match] and the call never throws. *)
Theorem compareFiles_executable (w : World)
    (localPath originalPath relativePath tempDir localHash originalHash : string) :
  hashFile w localPath = Ok localHash ->
  hashFile w originalPath = Ok originalHash ->
  localHash <> originalHash ->
  isMachO w localPath = true ->
  let answer := compareFiles w localPath originalPath relativePath tempDir in
  let localSegments := hashMachOSegments w localPath tempDir "local" in
  let originalSegments := hashMachOSegments w originalPath tempDir "original" in
  (answer = Ok SignatureOnly
   <-> exists digest,
         localSegments = Ok digest /\ originalSegments = Ok digest)
  /\ (answer = Ok Modified
      <-> ~ exists digest,
            localSegments = Ok digest /\ originalSegments = Ok digest)
  /\ (forall message, localSegments = Throw message -> answer = Ok Modified)
  /\ (forall message, originalSegments = Throw message -> answer = Ok Modified)
  /\ (forall l o,
        localSegments = Ok l -> originalSegments = Ok o -> l <> o ->
        answer = Ok Modified)
  /\ (answer = Ok SignatureOnly \/ answer = Ok Modified).
Proof.
  intros Hl Ho Hne Hexe answer localSegments originalSegments.
  assert (Hanswer : answer =
    match localSegments, originalSegments with
    | Ok l, Ok o => if String.eqb l o then Ok SignatureOnly else Ok Modified
    | _, _ => Ok Modified
    end).
  { unfold answer. rewrite (compareFiles_differ _ _ _ _ _ _ _ Hl Ho Hne), Hexe.
    reflexivity. }
  clearbody answer localSegments originalSegments. subst answer.
  destruct localSegments as [l | ml], originalSegments as [o | mo];
    try (repeat split; intros; try discriminate; try reflexivity; auto;
         match goal with
         | H : exists _, _ /\ _ |- _ => destruct H as (? & ? & ?); discriminate
         | |- ~ _ => intros (? & ? & ?); discriminate
         end).
  destruct (String.eqb_spec l o) as [-> | Hlo].
  - repeat split; intros; try discriminate; try reflexivity; auto.
    + exists o; split; reflexivity.
    + exfalso. apply H. exists o; split; reflexivity.
    + congruence.
  - repeat split; intros; try discriminate; try reflexivity; auto.
    + destruct H as (d & H1 & H2). congruence.
    + intros (d & H1 & H2). congruence.
Qed.

(** C3. When the two whole-file digests differ and [isMachO] does not
    recognise the local file, the answer is [Modified]. *)
Theorem compareFiles_not_executable (w : World)
    (localPath originalPath relativePath tempDir localHash originalHash : string) :
  hashFile w localPath = Ok localHash ->
  hashFile w originalPath = Ok originalHash ->
  localHash <> originalHash ->
  isMachO w localPath = false ->
  compareFiles w localPath originalPath relativePath tempDir = Ok Modified.
Proof.
  intros Hl Ho Hne Hexe.
  rewrite (compareFiles_differ _ _ _ _ _ _ _ Hl Ho Hne), Hexe. reflexivity.
Qed.

(** ** The section table and the section loop *)

Lemma strip_prefix_length (p s rest : string) :
  strip_prefix p s = Some rest ->
  String.length s = (String.length p + String.length rest)%nat.
Proof.
  revert s. induction p as [ | a p IH]; intros s H; simpl in *.
  - injection H as ->. reflexivity.
  - destruct s as [ | b s]; [ discriminate | ].
    destruct (Ascii.eqb a b); [ | discriminate ].
    simpl. f_equal. apply IH. exact H.
Qed.

Lemma span_length (p : ascii -> bool) (s run rest : string) :
  span p s = (run, rest) ->
  String.length s = (String.length run + String.length rest)%nat.
Proof.
  revert run rest. induction s as [ | c s IH]; intros run rest H; simpl in *.
  - injection H as <- <-. reflexivity.
  - destruct (p c).
    + destruct (span p s) as [run' rest'] eqn:E.
      injection H as <- <-. simpl. f_equal. apply IH. reflexivity.
    + injection H as <- <-. reflexivity.
Qed.

Lemma plus_length (p : ascii -> bool) (s run rest : string) :
  plus p s = Some (run, rest) ->
  (String.length rest < String.length s)%nat.
Proof.
  unfold plus. destruct (span p s) as [run' rest'] eqn:E.
  apply span_length in E.
  destruct run' as [ | c run']; [ discriminate | ].
  intro H. injection H as <- <-. simpl in E. lia.
Qed.

(** A match is not empty: what is left after it is shorter. *)
Lemma sectionRegex_at_shorter (s rest : string) (m : SectionMatch) :
  sectionRegex_at s = Some (m, rest) ->
  (String.length rest < String.length s)%nat.
Proof.
  unfold sectionRegex_at. intro H.
  repeat match type of H with
  | match strip_prefix ?p ?x with _ => _ end = _ =>
      let E := fresh "E" in
      destruct (strip_prefix p x) eqn:E;
        [ apply strip_prefix_length in E; cbv beta iota in H | discriminate ]
  | match plus ?p ?x with _ => _ end = _ =>
      let E := fresh "E" in
      destruct (plus p x) as [ [? ?] | ] eqn:E;
        [ apply plus_length in E; cbv beta iota in H | discriminate ]
  end.
  inversion H; subst. simpl in *. lia.
Qed.

Lemma sectionRegex_exec_shorter (s rest : string) (m : SectionMatch) :
  sectionRegex_exec s = Some (m, rest) ->
  (String.length rest < String.length s)%nat.
Proof.
  induction s as [ | c s IH]; cbn [sectionRegex_exec].
  - destruct (sectionRegex_at "") as [ [m' rest'] | ] eqn:E; [ | discriminate ].
    intro H. injection H as -> ->. apply sectionRegex_at_shorter in E. exact E.
  - destruct (sectionRegex_at (String c s)) as [ [m' rest'] | ] eqn:E.
    + intro H. injection H as -> ->. apply sectionRegex_at_shorter in E. exact E.
    + intro H. apply IH in H. simpl. lia.
Qed.

(** Once the fuel exceeds the length of the output, more fuel changes
    nothing: the bounded loop is the [while] loop. *)
Lemma parseSections_loop_fuel (fuel : nat) (otoolOutput : string) :
  (String.length otoolOutput < fuel)%nat ->
  parseSections_loop fuel otoolOutput = parseSections otoolOutput.
Proof.
  unfold parseSections.
  remember (String.length otoolOutput) as n eqn:Hn.
  assert (Hle : (String.length otoolOutput <= n)%nat) by lia. clear Hn.
  revert otoolOutput fuel Hle.
  induction n as [ | n IH]; intros s fuel Hle Hlt.
  - destruct fuel as [ | fuel]; [ lia | ]. simpl.
    destruct (sectionRegex_exec s) as [ [m rest] | ] eqn:E; [ | reflexivity ].
    apply sectionRegex_exec_shorter in E. lia.
  - destruct fuel as [ | fuel]; [ lia | ].
    cbn [parseSections_loop].
    destruct (sectionRegex_exec s) as [ [m rest] | ] eqn:E; [ | reflexivity ].
    apply sectionRegex_exec_shorter in E.
    assert (Hrest : (String.length rest <= n)%nat) by lia.
    assert (Hf : parseSections_loop fuel rest = parseSections_loop (S n) rest).
    { destruct (Nat.eq_dec fuel (S n)) as [-> | Hne]; [ reflexivity | ].
      destruct (Nat.le_gt_cases (S (S n)) fuel).
      - rewrite (IH rest fuel Hrest) by lia. reflexivity.
      - lia. }
    rewrite Hf. reflexivity.
Qed.

Lemma parseSections_loop_table (fuel : nat) (otoolOutput : string) :
  parseSections_loop fuel otoolOutput =
  map section_of (filter comparable (sectionTable_loop fuel otoolOutput)).
Proof.
  revert otoolOutput. induction fuel as [ | fuel IH]; intro s; simpl.
  - reflexivity.
  - destruct (sectionRegex_exec s) as [ [m rest] | ]; [ | reflexivity ].
    simpl. unfold comparable.
    destruct (String.eqb (m_segname m) "__LINKEDIT"); simpl; [ apply IH | ].
    destruct (is_zero (parseInt (m_offsetStr m) 10)); simpl; [ apply IH | ].
    destruct (is_zero (parseInt (m_sizeHex m) 16)); simpl; [ apply IH | ].
    unfold section_of at 1. f_equal. apply IH.
Qed.

Lemma comparable_spec (m : SectionMatch) :
  comparable m = true ->
  m_segname m <> "__LINKEDIT"
  /\ offset (section_of m) <> Num 0
  /\ size (section_of m) <> Num 0.
Proof.
  unfold comparable. intro H.
  apply andb_true_iff in H. destruct H as [H Hsize].
  apply andb_true_iff in H. destruct H as [Hseg Hoff].
  apply negb_true_iff in Hseg, Hoff, Hsize.
  repeat split.
  - apply String.eqb_neq. exact Hseg.
  - simpl. intro E. rewrite E in Hoff. discriminate.
  - simpl. intro E. rewrite E in Hsize. discriminate.
Qed.

Lemma parseSections_nonzero (otoolOutput : string) (s : Section) :
  In s (parseSections otoolOutput) ->
  size s <> Num 0 /\ offset s <> Num 0.
Proof.
  unfold parseSections. rewrite parseSections_loop_table. intro Hin.
  apply in_map_iff in Hin. destruct Hin as (m & <- & Hm).
  apply filter_In in Hm. destruct Hm as [_ Hm].
  apply comparable_spec in Hm. tauto.
Qed.

(** C4. The sections that are hashed are the rows of the section table
    that are not in [__LINKEDIT] and have a non-zero offset and a non-zero
    size, in the order of the table; so none of them has size 0 or offset 0
    and each comes from a row of another segment than [__LINKEDIT]. When
    none is left, [hashMachOSegments] throws ("No sections found", wrapped
    by the [catch]) and gives no digest. The fuel of the loop is enough. *)
Theorem parseSections_filtered (otoolOutput : string) :
  parseSections otoolOutput =
    map section_of (filter comparable (sectionTable otoolOutput))
  /\ Forall (fun s => size s <> Num 0 /\ offset s <> Num 0)
       (parseSections otoolOutput)
  /\ (forall s, In s (parseSections otoolOutput) ->
        exists m, In m (sectionTable otoolOutput)
                  /\ s = section_of m /\ m_segname m <> "__LINKEDIT")
  /\ (forall w filePath tempDir prefix,
        otool_l w filePath = Some otoolOutput ->
        parseSections otoolOutput = [] ->
        hashMachOSegments w filePath tempDir prefix
        = Throw "Failed to hash segments: No sections found")
  /\ (forall fuel, (String.length otoolOutput < fuel)%nat ->
        parseSections_loop fuel otoolOutput = parseSections otoolOutput).
Proof.
  assert (Heq : parseSections otoolOutput =
    map section_of (filter comparable (sectionTable otoolOutput))).
  { apply parseSections_loop_table. }
  split; [ exact Heq | ].
  split; [ | split; [ | split ] ].
  - apply Forall_forall. intros s Hin.
    apply (parseSections_nonzero otoolOutput). exact Hin.
  - intros s Hin. rewrite Heq in Hin.
    apply in_map_iff in Hin. destruct Hin as (m & <- & Hm).
    apply filter_In in Hm. destruct Hm as [Hm Hc].
    apply comparable_spec in Hc. exists m. tauto.
  - intros w filePath tempDir prefix Hotool Hnil.
    unfold hashMachOSegments, hashMachOSegments_try, execSync_otool.
    rewrite Hotool. simpl. rewrite Hnil. reflexivity.
  - intros fuel. apply parseSections_loop_fuel.
Qed.

(** ** Reading the sections *)

Lemma skipn_repeat_zero (k n : nat) (b : byte) :
  skipn k (repeat b n) = repeat b (n - k).
Proof.
  revert k. induction n as [ | n IH]; intro k.
  - destruct k; reflexivity.
  - destruct k as [ | k]; [ reflexivity | ]. simpl. apply IH.
Qed.

Lemma ToInt32_small (z : Z) :
  - 2 ^ 31 <= z <= INT32_MAX -> ToInt32 (Num z) = z.
Proof.
  unfold ToInt32, INT32_MAX. intro H. rewrite Z.mod_small; lia.
Qed.

Lemma ToInt32_wraps (z : Z) :
  INT32_MAX < z <= kMaxLength -> ToInt32 (Num z) = z - 2 ^ 32.
Proof.
  unfold ToInt32, INT32_MAX, kMaxLength. intro H.
  replace (z + 2 ^ 31) with (z - 2 ^ 31 + 1 * 2 ^ 32) by lia.
  rewrite Z.mod_add by lia. rewrite Z.mod_small; lia.
Qed.

(** What the allocation and the read of one iteration leave in the buffer. *)
Lemma read_section (fd : list byte) (s : Section) :
  readable_section s = true ->
  (buffer <- Buffer_alloc (size s) ;;
   readSync fd buffer 0 (size s) (offset s)) = Ok (section_bytes fd s).
Proof.
  unfold readable_section, section_bytes, Buffer_alloc, readSync.
  destruct (offset s) as [ | position]; [ discriminate | ].
  destruct (size s) as [ | length]; [ discriminate | ].
  intro H. bool_to_prop.
  assert (Hlimit : READ_LIMIT < INT32_MAX) by (vm_compute; reflexivity).
  assert (Hmax : INT32_MAX < kMaxLength) by (vm_compute; reflexivity).
  replace ((0 <=? length) && (length <=? kMaxLength)) with true
    by (symmetry; apply andb_true_iff; split; apply Z.leb_le; lia).
  cbn [bind].
  rewrite repeat_length, ToInt32_small by lia.
  change (0 <? 0) with false. cbv iota.
  replace (length =? 0) with false by (symmetry; apply Z.eqb_neq; lia).
  replace (Z.to_nat length =? 0)%nat with false
    by (symmetry; apply Nat.eqb_neq; lia).
  replace ((length <? 0)
           || (Z.of_nat (Z.to_nat length) <? 0 + length)) with false.
  2: { symmetry. rewrite !orb_false_iff, !Z.ltb_ge. lia. }
  replace ((position <? 0) || (MAX_SAFE_INTEGER <? position)) with false.
  2: { symmetry. rewrite !orb_false_iff, !Z.ltb_ge. lia. }
  change (Z.to_nat 0) with 0%nat. cbn [firstn app Nat.add].
  rewrite skipn_repeat_zero. reflexivity.
Qed.

Lemma hashSections_bytes (fd : list byte) (sections : list Section)
    (hash : list byte) :
  forallb readable_section sections = true ->
  hashSections fd sections hash
  = Ok (hash ++ flat_map (section_bytes fd) sections).
Proof.
  revert hash. induction sections as [ | s rest IH]; intros hash H; simpl.
  - rewrite app_nil_r. reflexivity.
  - simpl in H. apply andb_true_iff in H. destruct H as [Hs Hrest].
    pose proof (read_section fd s Hs) as Hread.
    destruct (Buffer_alloc (size s)) as [buffer | m]; simpl in *;
      [ | discriminate ].
    rewrite Hread. simpl. rewrite (IH _ Hrest), app_assoc. reflexivity.
Qed.


(** Every section that can be read gives a digest, wherever it ends. *)
Lemma hashMachOSegments_digest (w : World)
    (filePath tempDir prefix otoolOutput : string) (content : list byte) :
  file_bytes w filePath = Some content ->
  otool_l w filePath = Some otoolOutput ->
  parseSections otoolOutput <> [] ->
  forallb readable_section (parseSections otoolOutput) = true ->
  hashMachOSegments w filePath tempDir prefix
  = Ok (sha256_hex w
          (flat_map (section_bytes content) (parseSections otoolOutput))).
Proof.
  intros Hfile Hotool Hne Hread.
  unfold hashMachOSegments, hashMachOSegments_try, execSync_otool, openSync.
  rewrite Hotool, Hfile. cbn [bind].
  destruct (parseSections otoolOutput) as [ | s rest] eqn:E;
    [ contradiction | ].
  cbn [List.length Nat.eqb].
  rewrite (hashSections_bytes _ _ _ Hread). reflexivity.
Qed.




(** ** Strings *)

Lemma append_assoc (a b c : string) : (a +++ b) +++ c = a +++ b +++ c.
Proof.
  induction a as [ | x a IH]; simpl; [ reflexivity | ].
  rewrite IH. reflexivity.
Qed.

Lemma append_nil_r (a : string) : a +++ "" = a.
Proof.
  induction a as [ | x a IH]; simpl; [ reflexivity | ].
  rewrite IH. reflexivity.
Qed.

Lemma append_inj_l (a b c : string) : a +++ b = a +++ c -> b = c.
Proof.
  induction a as [ | x a IH]; simpl; intro H; [ exact H | ].
  injection H as H. apply IH. exact H.
Qed.

Lemma strip_prefix_append (p rest : string) :
  strip_prefix p (p +++ rest) = Some rest.
Proof.
  induction p as [ | x p IH]; simpl; [ reflexivity | ].
  rewrite Ascii.eqb_refl. exact IH.
Qed.

Lemma strip_prefix_Some (p s rest : string) :
  strip_prefix p s = Some rest <-> s = p +++ rest.
Proof.
  split.
  - revert s. induction p as [ | x p IH]; intros s H; simpl in *.
    + injection H as ->. reflexivity.
    + destruct s as [ | y s]; [ discriminate | ].
      destruct (Ascii.eqb_spec x y) as [-> | ]; [ | discriminate ].
      f_equal. apply IH. exact H.
  - intros ->. apply strip_prefix_append.
Qed.

(** [includes] decides [contains]. *)
Lemma includes_contains (s marker : string) :
  includes s marker = true <-> contains s marker.
Proof.
  unfold contains. split.
  - induction s as [ | c s IH].
    + simpl. destruct (strip_prefix marker "") as [after | ] eqn:E;
        [ | discriminate ].
      intros _. apply strip_prefix_Some in E. exists "", after. exact E.
    + cbn [includes].
      destruct (strip_prefix marker (String c s)) as [after | ] eqn:E.
      * intros _. apply strip_prefix_Some in E. exists "", after. exact E.
      * intro H. destruct (IH H) as (before & after & ->).
        exists (String c before), after. reflexivity.
  - intros (before & after & ->).
    induction before as [ | c before IH].
    + simpl. destruct (marker +++ after) eqn:E;
        cbn [includes]; rewrite <- E, strip_prefix_append; reflexivity.
    + change (String c before +++ marker +++ after)
        with (String c (before +++ marker +++ after)).
      cbn [includes].
      destruct (strip_prefix marker (String c (before +++ marker +++ after)));
        [ reflexivity | exact IH ].
Qed.

Lemma shouldSkipFile_excluded (relPath : string) :
  shouldSkipFile relPath = true <-> excluded relPath.
Proof.
  unfold shouldSkipFile, excluded. rewrite existsb_exists.
  split; intros (marker & Hin & H); exists marker; split; try exact Hin;
    apply includes_contains; exact H.
Qed.

(** ** Sets *)

Lemma Set_has_In (s : list string) (x : string) :
  Set_has s x = true <-> In x s.
Proof.
  unfold Set_has. rewrite existsb_exists. split.
  - intros (y & Hin & Heq). apply String.eqb_eq in Heq. subst. exact Hin.
  - intro Hin. exists x. split; [ exact Hin | apply String.eqb_refl ].
Qed.

Lemma Set_has_false (s : list string) (x : string) :
  Set_has s x = false <-> ~ In x s.
Proof.
  rewrite <- Set_has_In. destruct (Set_has s x); split; intro H;
    try reflexivity; try discriminate; congruence.
Qed.

Lemma Set_add_In (s : list string) (x y : string) :
  In y (Set_add s x) <-> In y s \/ y = x.
Proof.
  unfold Set_add. destruct (Set_has s x) eqn:E.
  - apply Set_has_In in E. split; [ tauto | ].
    intros [H | ->]; assumption.
  - rewrite in_app_iff. simpl. intuition congruence.
Qed.

Lemma Set_add_NoDup (s : list string) (x : string) :
  NoDup s -> NoDup (Set_add s x).
Proof.
  intro H. unfold Set_add. destruct (Set_has s x) eqn:E; [ exact H | ].
  apply Set_has_false in E. apply NoDup_app; [ exact H | | ].
  - constructor; [ intros [] | constructor ].
  - intros a Ha [<- | []]. exact (E Ha).
Qed.

Lemma fold_Set_add_In (values acc : list string) (y : string) :
  In y (fold_left Set_add values acc) <-> In y acc \/ In y values.
Proof.
  revert acc. induction values as [ | x values IH]; intro acc; simpl.
  - tauto.
  - rewrite IH, Set_add_In. intuition congruence.
Qed.

Lemma fold_Set_add_NoDup (values acc : list string) :
  NoDup acc -> NoDup (fold_left Set_add values acc).
Proof.
  revert acc. induction values as [ | x values IH]; intros acc H; simpl.
  - exact H.
  - apply IH, Set_add_NoDup, H.
Qed.

Lemma Set_new_In (values : list string) (y : string) :
  In y (Set_new values) <-> In y values.
Proof.
  unfold Set_new. rewrite fold_Set_add_In. simpl. tauto.
Qed.

Lemma Set_new_NoDup (values : list string) : NoDup (Set_new values).
Proof.
  apply fold_Set_add_NoDup. constructor.
Qed.

Lemma Set_new_has (values : list string) (y : string) :
  Set_has (Set_new values) y = Set_has values y.
Proof.
  destruct (Set_has values y) eqn:E.
  - apply Set_has_In, Set_new_In, Set_has_In, E.
  - apply Set_has_false. rewrite Set_new_In. apply Set_has_false, E.
Qed.

(** A list without duplicates is its own set. *)
Lemma fold_Set_add_NoDup_id (values acc : list string) :
  NoDup (acc ++ values) -> fold_left Set_add values acc = acc ++ values.
Proof.
  revert acc. induction values as [ | x values IH]; intros acc H; simpl.
  - rewrite app_nil_r. reflexivity.
  - assert (Hx : Set_has acc x = false).
    { apply Set_has_false. intro Hin.
      apply NoDup_remove_2 in H. apply H. apply in_app_iff. left. exact Hin. }
    unfold Set_add at 2. rewrite Hx.
    rewrite IH; rewrite <- app_assoc; simpl; [ reflexivity | exact H ].
Qed.

Lemma Set_new_NoDup_id (values : list string) :
  NoDup values -> Set_new values = values.
Proof.
  intro H. unfold Set_new. rewrite fold_Set_add_NoDup_id; [ reflexivity | exact H ].
Qed.

(** ** The two loops over the sets *)

Lemma checkMissingInLocal_fields (localSet originalSet : list string) (r : Report) :
  let r' := checkMissingInLocal localSet originalSet r in
  matched r' = matched r
  /\ modified r' = modified r
  /\ signatureOnly r' = signatureOnly r
  /\ missingInLocal r' =
       missingInLocal r
       ++ filter (fun p => negb (shouldSkipFile p) && negb (Set_has localSet p))
            originalSet
  /\ missingInOriginal r' = missingInOriginal r.
Proof.
  unfold checkMissingInLocal. revert r.
  induction originalSet as [ | p rest IH]; intro r; simpl.
  - rewrite app_nil_r. tauto.
  - destruct (shouldSkipFile p); simpl; [ apply IH | ].
    destruct (Set_has localSet p); simpl; [ apply IH | ].
    destruct (IH (push_missingInLocal r p)) as (H1 & H2 & H3 & H4 & H5).
    simpl in *. rewrite H1, H2, H3, H4, H5, <- app_assoc. tauto.
Qed.

Lemma checkMissingInOriginal_fields (localSet originalSet : list string) (r : Report) :
  let r' := checkMissingInOriginal localSet originalSet r in
  matched r' = matched r
  /\ modified r' = modified r
  /\ signatureOnly r' = signatureOnly r
  /\ missingInLocal r' = missingInLocal r
  /\ missingInOriginal r' =
       missingInOriginal r
       ++ filter (fun p => negb (shouldSkipFile p) && negb (Set_has originalSet p))
            localSet.
Proof.
  unfold checkMissingInOriginal. revert r.
  induction localSet as [ | p rest IH]; intro r; simpl.
  - rewrite app_nil_r. tauto.
  - destruct (shouldSkipFile p); simpl; [ apply IH | ].
    destruct (Set_has originalSet p); simpl; [ apply IH | ].
    destruct (IH (push_missingInOriginal r p)) as (H1 & H2 & H3 & H4 & H5).
    simpl in *. rewrite H1, H2, H3, H4, H5, <- app_assoc. tauto.
Qed.

(** ** The tally *)

Lemma tally_all_fields (classified : list (string * Comparison)) (r : Report) :
  let r' := tally_all r classified in
  matched r' = (matched r + List.length (filter is_match classified))%nat
  /\ modified r' = modified r ++ map fst (filter is_modified classified)
  /\ signatureOnly r' =
       signatureOnly r ++ map fst (filter is_signatureOnly classified)
  /\ missingInLocal r' = missingInLocal r
  /\ missingInOriginal r' = missingInOriginal r.
Proof.
  unfold tally_all. revert r.
  induction classified as [ | [p c] rest IH]; intro r; simpl.
  - rewrite !app_nil_r. repeat split. lia.
  - destruct (IH (tally r c p)) as (H1 & H2 & H3 & H4 & H5).
    rewrite H1, H2, H3, H4, H5.
    unfold is_match, is_modified, is_signatureOnly.
    destruct c; simpl; rewrite <- ?app_assoc; repeat split; lia.
Qed.

(** The three outcomes partition the classified paths. *)
Lemma classified_partition (classified : list (string * Comparison)) :
  (List.length (filter is_match classified)
   + List.length (filter is_signatureOnly classified)
   + List.length (filter is_modified classified))%nat
  = List.length classified.
Proof.
  induction classified as [ | [p c] rest IH]; simpl; [ reflexivity | ].
  unfold is_match, is_modified, is_signatureOnly in *.
  destruct c; simpl; lia.
Qed.

Lemma classified_NoDup (classified : list (string * Comparison)) :
  NoDup (map fst classified) ->
  NoDup (map fst (filter is_modified classified)
         ++ map fst (filter is_signatureOnly classified)).
Proof.
  induction classified as [ | [p c] rest IH]; simpl; intro H.
  - constructor.
  - apply NoDup_cons_iff in H. destruct H as [Hp Hrest].
    specialize (IH Hrest).
    assert (Hnot : forall f, ~ In p (map fst (filter f rest))).
    { intros f Hin. apply Hp. apply in_map_iff in Hin.
      destruct Hin as (x & <- & Hx). apply filter_In in Hx.
      apply in_map. tauto. }
    unfold is_modified at 1, is_signatureOnly at 1.
    destruct c; simpl.
    + exact IH.
    + apply NoDup_Add with (a := p)
        (l := map fst (filter is_modified rest)
              ++ map fst (filter is_signatureOnly rest)).
      * apply Add_app.
      * split; [ exact IH | ].
        rewrite in_app_iff. intros [Hin | Hin]; exact (Hnot _ Hin).
    + constructor; [ | exact IH ].
      rewrite in_app_iff. intros [Hin | Hin]; exact (Hnot _ Hin).
Qed.

(** ** The loop over the local files *)

Lemma find_relativePath (originalFiles : list FileEntry) (p : string) :
  In p (map relativePath originalFiles) ->
  exists g, find (fun f => String.eqb (relativePath f) p) originalFiles = Some g.
Proof.
  induction originalFiles as [ | g rest IH]; simpl; [ intros [] | ].
  intros [<- | Hin].
  - rewrite String.eqb_refl. exists g. reflexivity.
  - destruct (String.eqb (relativePath g) p); [ exists g; reflexivity | ].
    apply IH, Hin.
Qed.

(** When the loop completes, the report is the tally of one classification
    for each compared local file, in the order of the files. *)
Lemma compareMatching_tally (w : World) (originalSet : list string)
    (originalFiles : list FileEntry) (tempDir : string)
    (localFiles : list FileEntry) (r r' : Report) :
  compareMatching w originalSet originalFiles tempDir localFiles r = Ok r' ->
  exists classified,
    map fst classified
    = map relativePath (filter (compared originalSet) localFiles)
    /\ r' = tally_all r classified
    /\ Forall (classification_of w originalSet originalFiles localFiles tempDir)
         classified.
Proof.
  revert r. induction localFiles as [ | f rest IH]; intros r H.
  - simpl in H. injection H as <-. exists []. repeat split. constructor.
  - cbn [compareMatching] in H. cbn [filter]. unfold compared at 1.
    assert (Hweaken : forall classified,
      Forall (classification_of w originalSet originalFiles rest tempDir) classified ->
      Forall (classification_of w originalSet originalFiles (f :: rest) tempDir) classified).
    { intros classified. apply Forall_impl.
      intros pc (f' & g & Hf & Hrest). exists f', g.
      split; [ right; exact Hf | exact Hrest ]. }
    destruct (shouldSkipFile (relativePath f)) eqn:Eskip; cbn [negb andb].
    { destruct (IH _ H) as (classified & ? & ? & ?).
      exists classified. auto. }
    destruct (Set_has originalSet (relativePath f)) eqn:Ehas; cbn [negb] in *.
    2: { destruct (IH _ H) as (classified & ? & ? & ?).
         exists classified. auto. }
    destruct (find (fun f0 => String.eqb (relativePath f0) (relativePath f))
                originalFiles) as [g | ] eqn:Efind; [ | discriminate ].
    destruct (compareFiles w (absolutePath f) (absolutePath g)
                (relativePath f) tempDir) as [c | m] eqn:Ecmp;
      [ | discriminate ].
    cbn [bind] in H.
    destruct (IH _ H) as (classified & Hmap & Hr' & Hall).
    exists ((relativePath f, c) :: classified).
    split; [ simpl; f_equal; exact Hmap | ].
    split; [ exact Hr' | ].
    constructor; [ | auto ].
    apply find_some in Efind. destruct Efind as [Hg Heq].
    apply String.eqb_eq in Heq.
    exists f, g. cbn [fst snd]. unfold compared. rewrite Eskip, Ehas.
    repeat split; auto. left; reflexivity.
Qed.

Lemma hashFile_returns (w : World) (filePath : string) :
  file_bytes w filePath <> None ->
  exists digest, hashFile w filePath = Ok digest.
Proof.
  unfold hashFile, readFileSync.
  destruct (file_bytes w filePath) as [content | ]; [ | contradiction ].
  intros _. exists (sha256_hex w content). reflexivity.
Qed.

Lemma compareFiles_returns (w : World)
    (localPath originalPath relativePath tempDir : string) :
  file_bytes w localPath <> None ->
  file_bytes w originalPath <> None ->
  exists comparison,
    compareFiles w localPath originalPath relativePath tempDir = Ok comparison.
Proof.
  intros Hl Ho. unfold compareFiles.
  destruct (hashFile_returns w localPath Hl) as (l & ->).
  destruct (hashFile_returns w originalPath Ho) as (o & ->).
  cbn [bind].
  destruct (String.eqb l o); [ eexists; reflexivity | ].
  destruct (isMachO w localPath); [ | eexists; reflexivity ].
  match goal with
  | |- exists _, match ?x with _ => _ end = _ => destruct x as [ [ | ] | ]
  end; eexists; reflexivity.
Qed.

(** The loop completes when the files it compares can be read. *)
Lemma compareMatching_returns (w : World) (originalSet : list string)
    (originalFiles : list FileEntry) (tempDir : string)
    (localFiles : list FileEntry) (r : Report) :
  (forall p, In p originalSet -> In p (map relativePath originalFiles)) ->
  (forall f, In f localFiles -> not_skipped f = true ->
             file_bytes w (absolutePath f) <> None) ->
  (forall g, In g originalFiles -> not_skipped g = true ->
             file_bytes w (absolutePath g) <> None) ->
  exists r', compareMatching w originalSet originalFiles tempDir localFiles r
             = Ok r'.
Proof.
  intros Hset Hlocal Horiginal. revert r.
  induction localFiles as [ | f rest IH]; intro r.
  - exists r. reflexivity.
  - assert (IH' := IH (fun f' Hf' => Hlocal f' (or_intror Hf'))).
    cbn [compareMatching].
    destruct (shouldSkipFile (relativePath f)) eqn:Eskip; [ apply IH' | ].
    destruct (Set_has originalSet (relativePath f)) eqn:Ehas;
      cbn [negb]; [ | apply IH' ].
    apply Set_has_In in Ehas.
    destruct (find_relativePath originalFiles _ (Hset _ Ehas)) as (g & Efind).
    rewrite Efind.
    apply find_some in Efind. destruct Efind as [Hg Heq].
    apply String.eqb_eq in Heq.
    destruct (compareFiles_returns w (absolutePath f) (absolutePath g)
                (relativePath f) tempDir) as (c & ->).
    + apply Hlocal; [ left; reflexivity | ].
      unfold not_skipped. rewrite Eskip. reflexivity.
    + apply Horiginal; [ exact Hg | ].
      unfold not_skipped. rewrite Heq, Eskip. reflexivity.
    + cbn [bind]. apply IH'.
Qed.

(** ** [compareApps] as a whole *)

(** The shape of every report that [compareApps] returns. *)
Lemma compareApps_report (w : World) (localApp originalApp tempDir : string)
    (report : Report) :
  compareApps w localApp originalApp tempDir = Ok report ->
  let localFiles := getAllFiles w localApp localApp in
  let originalFiles := getAllFiles w originalApp originalApp in
  let localSet := Set_new (map relativePath localFiles) in
  let originalSet := Set_new (map relativePath originalFiles) in
  exists classified,
    map fst classified
    = map relativePath (filter (compared originalSet) localFiles)
    /\ Forall (classification_of w originalSet originalFiles localFiles tempDir)
         classified
    /\ matched report = List.length (filter is_match classified)
    /\ modified report = map fst (filter is_modified classified)
    /\ signatureOnly report = map fst (filter is_signatureOnly classified)
    /\ missingInLocal report =
         filter (fun p => negb (shouldSkipFile p) && negb (Set_has localSet p))
           originalSet
    /\ missingInOriginal report =
         filter (fun p => negb (shouldSkipFile p) && negb (Set_has originalSet p))
           localSet.
Proof.
  intros H localFiles originalFiles localSet originalSet.
  unfold compareApps in H. cbv zeta in H.
  fold localFiles originalFiles in H. fold localSet originalSet in H.
  apply compareMatching_tally in H.
  destruct H as (classified & Hmap & -> & Hall).
  exists classified.
  split; [ exact Hmap | ]. split; [ exact Hall | ].
  match goal with
  | |- context [tally_all ?r0 classified] =>
      destruct (tally_all_fields classified r0) as (H1 & H2 & H3 & H4 & H5);
      destruct (checkMissingInOriginal_fields localSet originalSet
                  (checkMissingInLocal localSet originalSet
                     {| matched := 0; modified := []; signatureOnly := [];
                        missingInLocal := []; missingInOriginal := [] |}))
        as (G1 & G2 & G3 & G4 & G5);
      destruct (checkMissingInLocal_fields localSet originalSet
                  {| matched := 0; modified := []; signatureOnly := [];
                     missingInLocal := []; missingInOriginal := [] |})
        as (K1 & K2 & K3 & K4 & K5)
  end.
  cbv zeta in *.
  rewrite H1, H2, H3, H4, H5, G1, G2, G3, G4, G5, K1, K2, K3, K4, K5.
  simpl. repeat split.
Qed.

(** [compareApps] returns a report when the files that are not skipped can
    be read. *)
Lemma compareApps_returns (w : World) (localApp originalApp tempDir : string) :
  readable_files w localApp originalApp ->
  exists report, compareApps w localApp originalApp tempDir = Ok report.
Proof.
  intro H. unfold compareApps. apply compareMatching_returns.
  - intros p Hp. apply (proj1 (Set_new_In _ _)) in Hp. exact Hp.
  - intros f Hf. apply H. left. exact Hf.
  - intros g Hg. apply H. right. exact Hg.
Qed.

(** C7. [compareApps] returns a report when the files that are not skipped
    can be read, and in every report it returns [missingInLocal] is, as a
    set, the paths of the original that are not paths of the local build and
    are not skipped, and [missingInOriginal] the paths of the local build
    that are not paths of the original and are not skipped; neither list
    repeats a path. *)
Theorem compareApps_missing (w : World) (localApp originalApp tempDir : string) :
  let L := map relativePath (getAllFiles w localApp localApp) in
  let R := map relativePath (getAllFiles w originalApp originalApp) in
  (readable_files w localApp originalApp ->
   exists report, compareApps w localApp originalApp tempDir = Ok report)
  /\ forall report,
       compareApps w localApp originalApp tempDir = Ok report ->
       (forall p, In p (missingInLocal report)
                  <-> In p R /\ ~ In p L /\ shouldSkipFile p = false)
       /\ (forall p, In p (missingInOriginal report)
                     <-> In p L /\ ~ In p R /\ shouldSkipFile p = false)
       /\ NoDup (missingInLocal report)
       /\ NoDup (missingInOriginal report).
Proof.
  intros L R. split; [ apply compareApps_returns | ].
  intros report H.
  destruct (compareApps_report _ _ _ _ _ H)
    as (classified & _ & _ & _ & _ & _ & HmL & HmO).
  fold L R in HmL, HmO. rewrite HmL, HmO.
  repeat split.
  - apply filter_In in H0. destruct H0 as [H0 _].
    apply (proj1 (Set_new_In _ _)) in H0. exact H0.
  - apply filter_In in H0. destruct H0 as [_ H0].
    apply andb_true_iff in H0. destruct H0 as [_ H0].
    apply negb_true_iff, Set_has_false in H0.
    rewrite Set_new_In in H0. exact H0.
  - apply filter_In in H0. destruct H0 as [_ H0].
    apply andb_true_iff in H0. destruct H0 as [H0 _].
    apply negb_true_iff in H0. exact H0.
  - intros (HR & HL & Hskip). apply filter_In.
    split; [ apply (proj2 (Set_new_In _ _)); exact HR | ].
    rewrite Hskip. simpl. apply negb_true_iff, Set_has_false.
    rewrite Set_new_In. exact HL.
  - apply filter_In in H0. destruct H0 as [H0 _].
    apply (proj1 (Set_new_In _ _)) in H0. exact H0.
  - apply filter_In in H0. destruct H0 as [_ H0].
    apply andb_true_iff in H0. destruct H0 as [_ H0].
    apply negb_true_iff, Set_has_false in H0.
    rewrite Set_new_In in H0. exact H0.
  - apply filter_In in H0. destruct H0 as [_ H0].
    apply andb_true_iff in H0. destruct H0 as [H0 _].
    apply negb_true_iff in H0. exact H0.
  - intros (HL & HR & Hskip). apply filter_In.
    split; [ apply (proj2 (Set_new_In _ _)); exact HL | ].
    rewrite Hskip. simpl. apply negb_true_iff, Set_has_false.
    rewrite Set_new_In. exact HR.
  - apply NoDup_filter, Set_new_NoDup.
  - apply NoDup_filter, Set_new_NoDup.
Qed.

(** ** What the comparison of two files reads *)

Lemma hashFile_agree (w w' : World) (filePath : string) :
  (forall bytes, sha256_hex w' bytes = sha256_hex w bytes) ->
  file_bytes w' filePath = file_bytes w filePath ->
  hashFile w' filePath = hashFile w filePath.
Proof.
  intros Hsha Hfile. unfold hashFile, readFileSync. rewrite Hfile.
  destruct (file_bytes w filePath); simpl; [ rewrite Hsha | ]; reflexivity.
Qed.

Lemma isMachO_agree (w w' : World) (filePath : string) :
  file_bytes w' filePath = file_bytes w filePath ->
  isMachO w' filePath = isMachO w filePath.
Proof.
  intro Hfile. unfold isMachO, isMachO_try, openSync. rewrite Hfile.
  reflexivity.
Qed.

Lemma hashMachOSegments_agree (w w' : World) (filePath tempDir prefix : string) :
  (forall bytes, sha256_hex w' bytes = sha256_hex w bytes) ->
  file_bytes w' filePath = file_bytes w filePath ->
  otool_l w' filePath = otool_l w filePath ->
  hashMachOSegments w' filePath tempDir prefix
  = hashMachOSegments w filePath tempDir prefix.
Proof.
  intros Hsha Hfile Hotool.
  unfold hashMachOSegments, hashMachOSegments_try, execSync_otool, openSync.
  rewrite Hfile, Hotool.
  destruct (otool_l w filePath) as [output | ]; [ | reflexivity ].
  cbn [bind].
  destruct (List.length (parseSections output) =? 0)%nat; [ reflexivity | ].
  destruct (file_bytes w filePath) as [content | ]; [ | reflexivity ].
  cbn [bind].
  destruct (hashSections content (parseSections output) []);
    cbn [bind]; [ rewrite Hsha | ]; reflexivity.
Qed.

Lemma compareFiles_agree (w w' : World)
    (localPath originalPath relativePath tempDir : string) :
  (forall bytes, sha256_hex w' bytes = sha256_hex w bytes) ->
  file_bytes w' localPath = file_bytes w localPath ->
  otool_l w' localPath = otool_l w localPath ->
  file_bytes w' originalPath = file_bytes w originalPath ->
  otool_l w' originalPath = otool_l w originalPath ->
  compareFiles w' localPath originalPath relativePath tempDir
  = compareFiles w localPath originalPath relativePath tempDir.
Proof.
  intros Hsha Hl1 Hl2 Ho1 Ho2. unfold compareFiles.
  rewrite (hashFile_agree w w' localPath Hsha Hl1).
  rewrite (hashFile_agree w w' originalPath Hsha Ho1).
  rewrite (isMachO_agree w w' localPath Hl1).
  rewrite (hashMachOSegments_agree w w' localPath tempDir "local" Hsha Hl1 Hl2).
  rewrite (hashMachOSegments_agree w w' originalPath tempDir "original"
             Hsha Ho1 Ho2).
  reflexivity.
Qed.

Lemma compareMatching_agree (w w' : World) (originalSet : list string)
    (originalFiles : list FileEntry) (tempDir : string)
    (localFiles : list FileEntry) (r : Report) :
  (forall bytes, sha256_hex w' bytes = sha256_hex w bytes) ->
  (forall f, In f localFiles \/ In f originalFiles ->
             not_skipped f = true ->
             file_bytes w' (absolutePath f) = file_bytes w (absolutePath f)
             /\ otool_l w' (absolutePath f) = otool_l w (absolutePath f)) ->
  compareMatching w' originalSet originalFiles tempDir localFiles r
  = compareMatching w originalSet originalFiles tempDir localFiles r.
Proof.
  intros Hsha Hagree. revert r.
  induction localFiles as [ | f rest IH]; intro r; [ reflexivity | ].
  assert (IH' : forall r,
    compareMatching w' originalSet originalFiles tempDir rest r
    = compareMatching w originalSet originalFiles tempDir rest r).
  { apply IH. intros f' [Hf' | Hf']; apply Hagree; [ left; right | right ];
      exact Hf'. }
  cbn [compareMatching].
  destruct (shouldSkipFile (relativePath f)) eqn:Eskip; [ apply IH' | ].
  destruct (Set_has originalSet (relativePath f)); cbn [negb]; [ | apply IH' ].
  destruct (find (fun f0 => String.eqb (relativePath f0) (relativePath f))
              originalFiles) as [g | ] eqn:Efind; [ | reflexivity ].
  apply find_some in Efind. destruct Efind as [Hg Heq].
  apply String.eqb_eq in Heq.
  destruct (Hagree f) as [Hf1 Hf2].
  { left; left; reflexivity. }
  { unfold not_skipped. rewrite Eskip. reflexivity. }
  destruct (Hagree g) as [Hg1 Hg2].
  { right; exact Hg. }
  { unfold not_skipped. rewrite Heq, Eskip. reflexivity. }
  rewrite (compareFiles_agree w w' _ _ _ _ Hsha Hf1 Hf2 Hg1 Hg2).
  destruct (compareFiles w (absolutePath f) (absolutePath g)
              (relativePath f) tempDir); cbn [bind]; [ apply IH' | reflexivity ].
Qed.

Lemma compareApps_agree (w w' : World) (localApp originalApp tempDir : string) :
  same_outside_skipped w w' localApp originalApp ->
  compareApps w' localApp originalApp tempDir
  = compareApps w localApp originalApp tempDir.
Proof.
  intros (Hl & Ho & Hsha & Hagree).
  unfold compareApps, getAllFiles in *. rewrite Hl, Ho.
  apply compareMatching_agree; assumption.
Qed.

Lemma classified_not_skipped (originalSet : list string)
    (localFiles : list FileEntry)
    (classified : list (string * Comparison)) (p : string) :
  map fst classified
  = map relativePath (filter (compared originalSet) localFiles) ->
  In p (map fst classified) ->
  shouldSkipFile p = false.
Proof.
  intros Hmap Hin. rewrite Hmap in Hin.
  apply in_map_iff in Hin. destruct Hin as (f & <- & Hf).
  apply filter_In in Hf. destruct Hf as [_ Hf].
  unfold compared in Hf. apply andb_true_iff in Hf. destruct Hf as [Hf _].
  apply negb_true_iff in Hf. exact Hf.
Qed.

Lemma in_map_fst_filter (f : string * Comparison -> bool)
    (classified : list (string * Comparison)) (p : string) :
  In p (map fst (filter f classified)) -> In p (map fst classified).
Proof.
  intro Hin. apply in_map_iff in Hin. destruct Hin as (x & <- & Hx).
  apply filter_In in Hx. apply in_map. tauto.
Qed.

(** C8. A path that contains one of the signature markers is in none of the
    four lists of a report. Such a path is not classified either: the
    outcome of [compareApps], report or exception, is the same in two
    worlds that differ only on the files whose path contains a marker (they
    may even be unreadable). And it is not counted: [matched] is at most
    the number of local files whose path contains no marker. The report
    exists when the other files can be read. *)
Theorem compareApps_excluded (w : World) (localApp originalApp tempDir : string) :
  (readable_files w localApp originalApp ->
   exists report, compareApps w localApp originalApp tempDir = Ok report)
  /\ (forall report p,
        compareApps w localApp originalApp tempDir = Ok report ->
        excluded p ->
        ~ In p (modified report)
        /\ ~ In p (signatureOnly report)
        /\ ~ In p (missingInLocal report)
        /\ ~ In p (missingInOriginal report))
  /\ (forall w',
        same_outside_skipped w w' localApp originalApp ->
        compareApps w' localApp originalApp tempDir
        = compareApps w localApp originalApp tempDir)
  /\ (forall report,
        compareApps w localApp originalApp tempDir = Ok report ->
        (matched report
         <= List.length
              (filter not_skipped (getAllFiles w localApp localApp)))%nat).
Proof.
  split; [ apply compareApps_returns | ].
  split; [ | split; [ intros w'; apply compareApps_agree | ] ].
  - intros report p H Hex.
    apply shouldSkipFile_excluded in Hex.
    destruct (compareApps_report _ _ _ _ _ H)
      as (classified & Hmap & _ & _ & Hmod & Hsig & HmL & HmO).
    rewrite Hmod, Hsig, HmL, HmO.
    repeat split; intro Hin.
    + apply in_map_fst_filter in Hin.
      rewrite (classified_not_skipped _ _ _ _ Hmap Hin) in Hex.
      discriminate.
    + apply in_map_fst_filter in Hin.
      rewrite (classified_not_skipped _ _ _ _ Hmap Hin) in Hex.
      discriminate.
    + apply filter_In in Hin. destruct Hin as [_ Hin].
      rewrite Hex in Hin. discriminate.
    + apply filter_In in Hin. destruct Hin as [_ Hin].
      rewrite Hex in Hin. discriminate.
  - intros report H.
    destruct (compareApps_report _ _ _ _ _ H)
      as (classified & Hmap & _ & Hmatched & _).
    rewrite Hmatched.
    pose proof (classified_partition classified) as Hpart.
    assert (Hlen : List.length classified
      = List.length (filter
          (compared (Set_new (map relativePath
                       (getAllFiles w originalApp originalApp))))
          (getAllFiles w localApp localApp))).
    { rewrite <- (length_map fst classified), Hmap, length_map. reflexivity. }
    assert (Hle : forall (oset : list string) (l : list FileEntry),
      (List.length (filter (compared oset) l)
       <= List.length (filter not_skipped l))%nat).
    { intros oset l. induction l as [ | f l IH]; simpl; [ lia | ].
      unfold compared at 1, not_skipped at 1.
      destruct (shouldSkipFile (relativePath f)); simpl; [ exact IH | ].
      destruct (Set_has oset (relativePath f)); simpl; lia. }
    specialize (Hle (Set_new (map relativePath
                       (getAllFiles w originalApp originalApp)))
                    (getAllFiles w localApp localApp)).
    lia.
Qed.

(** ** The walk *)

(** Induction on a tree of entries. *)
Lemma Dirent_induction (P : Dirent -> Prop) :
  (forall entryName, P (DirentFile entryName)) ->
  (forall entryName entries,
     Forall P entries -> P (DirentDirectory entryName entries)) ->
  (forall entryName, P (DirentOther entryName)) ->
  forall entry, P entry.
Proof.
  intros Hfile Hdir Hother.
  fix IH 1. intros [entryName | entryName entries | entryName].
  - apply Hfile.
  - apply Hdir. induction entries as [ | e rest IHrest].
    + constructor.
    + constructor; [ apply IH | exact IHrest ].
  - apply Hother.
Qed.

Lemma path_join_below (baseDir currentDir prefix entryName : string) :
  currentDir +++ "/" = baseDir +++ "/" +++ prefix ->
  path_join currentDir entryName = baseDir +++ "/" +++ prefix +++ entryName.
Proof.
  intro H. unfold path_join.
  change (currentDir +++ "/" +++ entryName)
    with (currentDir +++ ("/" +++ entryName)).
  rewrite <- append_assoc, H, !append_assoc. reflexivity.
Qed.

Lemma path_relative_below (baseDir rest : string) :
  path_relative baseDir (baseDir +++ "/" +++ rest) = rest.
Proof.
  unfold path_relative. rewrite <- append_assoc, strip_prefix_append.
  reflexivity.
Qed.

(** The walk below [currentDir], itself [prefix] below [baseDir], records
    the relative paths of the tree, and every absolute path is the base
    directory joined with the relative path. *)
Lemma walk_entry_paths (baseDir : string) (entry : Dirent) :
  forall currentDir prefix,
    currentDir +++ "/" = baseDir +++ "/" +++ prefix ->
    map relativePath (walk_entry baseDir currentDir entry)
    = tree_paths_entry prefix entry
    /\ forall f, In f (walk_entry baseDir currentDir entry) ->
                 absolutePath f = path_join baseDir (relativePath f).
Proof.
  induction entry as [entryName | entryName entries IH | entryName]
    using Dirent_induction; intros currentDir prefix H.
  - cbn [walk_entry tree_paths_entry]. cbv zeta.
    cbn [map relativePath].
    rewrite (path_join_below _ _ _ _ H). rewrite path_relative_below.
    split; [ reflexivity | ].
    intros f [<- | []]. reflexivity.
  - cbn [walk_entry tree_paths_entry]. cbv zeta.
    assert (Hsub : path_join currentDir entryName +++ "/"
                   = baseDir +++ "/" +++ (prefix +++ entryName +++ "/")).
    { rewrite (path_join_below _ _ _ _ H), !append_assoc. reflexivity. }
    induction IH as [ | e rest He _ IHrest]; cbn [flat_map].
    + split; [ reflexivity | intros f [] ].
    + destruct (He _ _ Hsub) as [He1 He2]. destruct IHrest as [Hr1 Hr2].
      split.
      * rewrite map_app, He1, Hr1. reflexivity.
      * intros f Hf. apply in_app_iff in Hf. destruct Hf; auto.
  - split; [ reflexivity | intros f [] ].
Qed.

Lemma getAllFiles_paths (w : World) (root : string) :
  map relativePath (getAllFiles w root root) = tree_paths (dir_tree w root)
  /\ forall f, In f (getAllFiles w root root) ->
               absolutePath f = path_join root (relativePath f).
Proof.
  unfold getAllFiles, walk, tree_paths.
  induction (dir_tree w root) as [ | e rest [IH1 IH2] ]; cbn [flat_map].
  - split; [ reflexivity | intros f [] ].
  - destruct (walk_entry_paths root e root "") as [He1 He2]; [ reflexivity | ].
    split.
    + rewrite map_app, He1, IH1. reflexivity.
    + intros f Hf. apply in_app_iff in Hf. destruct Hf; auto.
Qed.

(** ** A tree against a copy of itself *)

Lemma compareFiles_same_bytes (w : World)
    (localPath originalPath relativePath tempDir : string) (content : list byte) :
  file_bytes w localPath = Some content ->
  file_bytes w originalPath = Some content ->
  compareFiles w localPath originalPath relativePath tempDir = Ok Match.
Proof.
  intros Hl Ho. unfold compareFiles, hashFile, readFileSync.
  rewrite Hl, Ho. cbn [bind]. rewrite String.eqb_refl. reflexivity.
Qed.

Lemma filter_none {A : Type} (f : A -> bool) (l : list A) :
  (forall x, In x l -> f x = false) -> filter f l = [].
Proof.
  induction l as [ | x l IH]; intro H; simpl; [ reflexivity | ].
  rewrite (H x) by (left; reflexivity).
  apply IH. intros y Hy. apply H. right. exact Hy.
Qed.

Lemma filter_all {A : Type} (f : A -> bool) (l : list A) :
  (forall x, In x l -> f x = true) -> filter f l = l.
Proof.
  induction l as [ | x l IH]; intro H; simpl; [ reflexivity | ].
  rewrite (H x) by (left; reflexivity).
  f_equal. apply IH. intros y Hy. apply H. right. exact Hy.
Qed.

Lemma filter_compared_paths (originalSet : list string) (l : list FileEntry) :
  map relativePath (filter (compared originalSet) l)
  = filter (fun p => negb (shouldSkipFile p) && Set_has originalSet p)
      (map relativePath l).
Proof.
  induction l as [ | f l IH]; simpl; [ reflexivity | ].
  unfold compared at 1.
  destruct (negb (shouldSkipFile (relativePath f))
            && Set_has originalSet (relativePath f)); simpl; rewrite IH;
    reflexivity.
Qed.

(** C9. When the original tree is the local tree and each file that is
    not skipped has the same bytes on both sides, [compareApps] returns a
    report in which [missingInLocal], [missingInOriginal], [modified] (and
    [signatureOnly]) are empty and [matched] is the number of files of the
    tree whose path is not skipped. *)
Theorem compareApps_identical (w : World) (localApp originalApp tempDir : string) :
  dir_tree w originalApp = dir_tree w localApp ->
  (forall p, In p (tree_paths (dir_tree w localApp)) ->
             shouldSkipFile p = false ->
             exists content,
               file_bytes w (path_join localApp p) = Some content
               /\ file_bytes w (path_join originalApp p) = Some content) ->
  exists report,
    compareApps w localApp originalApp tempDir = Ok report
    /\ missingInLocal report = []
    /\ missingInOriginal report = []
    /\ modified report = []
    /\ signatureOnly report = []
    /\ matched report
       = List.length
           (filter (fun p => negb (shouldSkipFile p))
              (tree_paths (dir_tree w localApp))).
Proof.
  intros Htree Hbytes.
  destruct (getAllFiles_paths w localApp) as [HL HLabs].
  destruct (getAllFiles_paths w originalApp) as [HR HRabs].
  rewrite Htree in HR.
  assert (Hread : readable_files w localApp originalApp).
  { intros f [Hf | Hf] Hskip; unfold not_skipped in Hskip;
      apply negb_true_iff in Hskip.
    - rewrite (HLabs f Hf).
      destruct (Hbytes (relativePath f)) as (content & -> & _);
        [ rewrite <- HL; apply in_map; exact Hf | exact Hskip | discriminate ].
    - rewrite (HRabs f Hf).
      destruct (Hbytes (relativePath f)) as (content & _ & ->);
        [ rewrite <- HR; apply in_map; exact Hf | exact Hskip | discriminate ]. }
  destruct (compareApps_returns w localApp originalApp tempDir Hread)
    as (report & Hreport).
  exists report. split; [ exact Hreport | ].
  destruct (compareApps_report _ _ _ _ _ Hreport)
    as (classified & Hmap & Hall & Hmatched & Hmod & Hsig & HmL & HmO).
  rewrite HL, HR in *.
  assert (Hmatch : forall pc, In pc classified -> snd pc = Match).
  { intros pc Hpc. rewrite Forall_forall in Hall.
    destruct (Hall pc Hpc) as (f & g & Hf & Hfp & Hcmp & Hg & Hgp & Hanswer).
    unfold compared in Hcmp. apply andb_true_iff in Hcmp.
    destruct Hcmp as [Hskip _]. apply negb_true_iff in Hskip.
    destruct (Hbytes (fst pc)) as (content & Hcl & Hco).
    { rewrite <- HL, <- Hfp. apply in_map. exact Hf. }
    { rewrite <- Hfp. exact Hskip. }
    rewrite (HLabs f Hf), (HRabs g Hg), Hfp, Hgp in Hanswer.
    rewrite (compareFiles_same_bytes _ _ _ _ _ _ Hcl Hco) in Hanswer.
    injection Hanswer as <-. reflexivity. }
  assert (Hhas : forall p, In p (tree_paths (dir_tree w localApp)) ->
                 Set_has (Set_new (tree_paths (dir_tree w localApp))) p = true).
  { intros p Hp. apply Set_has_In, Set_new_In, Hp. }
  repeat split.
  - rewrite HmL. apply filter_none. intros p Hp.
    apply (proj1 (Set_new_In _ _)) in Hp. rewrite (Hhas p Hp).
    apply andb_false_r.
  - rewrite HmO. apply filter_none. intros p Hp.
    apply (proj1 (Set_new_In _ _)) in Hp. rewrite (Hhas p Hp).
    apply andb_false_r.
  - rewrite Hmod, filter_none; [ reflexivity | ].
    intros pc Hpc. unfold is_modified. rewrite (Hmatch pc Hpc). reflexivity.
  - rewrite Hsig, filter_none; [ reflexivity | ].
    intros pc Hpc. unfold is_signatureOnly. rewrite (Hmatch pc Hpc).
    reflexivity.
  - rewrite Hmatched, filter_all.
    2: { intros pc Hpc. unfold is_match. rewrite (Hmatch pc Hpc). reflexivity. }
    rewrite <- (length_map fst classified), Hmap, filter_compared_paths, HL.
    f_equal. apply filter_ext_in. intros p Hp.
    rewrite (Hhas p Hp). apply andb_true_r.
Qed.

(** ** Distinct paths *)

Lemma distinct_NoDup (names : list string) :
  distinct names = true -> NoDup names.
Proof.
  induction names as [ | x rest IH]; simpl; intro H; constructor.
  - apply andb_true_iff in H. destruct H as [H _].
    apply negb_true_iff, Set_has_false in H. exact H.
  - apply IH. apply andb_true_iff in H. tauto.
Qed.

Lemma no_separator_cons (c : ascii) (s : string) :
  includes (String c s) "/" = false ->
  c <> "/"%char /\ includes s "/" = false.
Proof.
  cbn [includes strip_prefix].
  destruct (Ascii.eqb_spec "/" c) as [<- | Hne]; [ discriminate | ].
  intro H. split; [ congruence | exact H ].
Qed.

(** Two names without separator that are each followed by nothing or by a
    separator are equal when what they begin is equal. *)
Lemma names_equal (n m t1 t2 : string) :
  includes n "/" = false ->
  includes m "/" = false ->
  (t1 = "" \/ exists t, t1 = String "/" t) ->
  (t2 = "" \/ exists t, t2 = String "/" t) ->
  n +++ t1 = m +++ t2 ->
  n = m.
Proof.
  revert m. induction n as [ | c n IH]; intros [ | d m] Hn Hm Ht1 Ht2 H.
  - reflexivity.
  - exfalso. apply no_separator_cons in Hm. destruct Hm as [Hd _].
    simpl in H. destruct Ht1 as [-> | (t & ->)]; [ discriminate | ].
    injection H as H _. congruence.
  - exfalso. apply no_separator_cons in Hn. destruct Hn as [Hc _].
    simpl in H. destruct Ht2 as [-> | (t & ->)]; [ discriminate | ].
    injection H as H _. congruence.
  - apply no_separator_cons in Hn, Hm.
    simpl in H. injection H as -> H. f_equal.
    apply (IH m); tauto.
Qed.

(** Every path of an entry is the prefix, the name of the entry, and then
    nothing or a separator and more. *)
Lemma tree_paths_entry_shape (entry : Dirent) :
  forall prefix p,
    In p (tree_paths_entry prefix entry) ->
    exists tail,
      p = prefix +++ entry_name entry +++ tail
      /\ (tail = "" \/ exists t, tail = String "/" t).
Proof.
  induction entry as [entryName | entryName entries IH | entryName]
    using Dirent_induction; intros prefix p Hin.
  - destruct Hin as [<- | []]. exists "". simpl.
    rewrite append_nil_r. split; [ reflexivity | left; reflexivity ].
  - cbn [tree_paths_entry] in Hin. apply in_flat_map in Hin.
    destruct Hin as (e & He & Hp).
    rewrite Forall_forall in IH.
    destruct (IH e He _ _ Hp) as (tail & -> & _).
    exists ("/" +++ entry_name e +++ tail). simpl.
    split; [ | right; eexists; reflexivity ].
    rewrite !append_assoc. reflexivity.
  - destruct Hin.
Qed.

Lemma NoDup_flat_map_entries (entries : list Dirent) (prefix : string) :
  distinct (map entry_name entries) = true ->
  Forall (fun e => includes (entry_name e) "/" = false) entries ->
  Forall (fun e => forall q, NoDup (tree_paths_entry q e)) entries ->
  NoDup (flat_map (tree_paths_entry prefix) entries).
Proof.
  induction entries as [ | e rest IH]; intros Hdistinct Hsep Hall.
  - constructor.
  - cbn [flat_map]. simpl in Hdistinct.
    apply andb_true_iff in Hdistinct. destruct Hdistinct as [He Hrest].
    apply negb_true_iff, Set_has_false in He.
    inversion Hsep as [ | ? ? Hsep_e Hsep_rest]; subst.
    inversion Hall as [ | ? ? Hall_e Hall_rest]; subst.
    apply NoDup_app; [ apply Hall_e | apply IH; assumption | ].
    intros p Hp Hp'. apply in_flat_map in Hp'.
    destruct Hp' as (e' & He' & Hp').
    apply tree_paths_entry_shape in Hp, Hp'.
    destruct Hp as (t1 & -> & Ht1). destruct Hp' as (t2 & Heq & Ht2).
    apply append_inj_l in Heq.
    rewrite Forall_forall in Hsep_rest.
    apply (names_equal _ _ _ _ Hsep_e (Hsep_rest e' He') Ht1 Ht2) in Heq.
    apply He. rewrite Heq. apply in_map. exact He'.
Qed.

Lemma well_formed_name (entry : Dirent) :
  well_formed entry = true -> includes (entry_name entry) "/" = false.
Proof.
  destruct entry; cbn [well_formed]; intro H;
    apply andb_true_iff in H; destruct H as [H _];
    apply negb_true_iff in H; exact H.
Qed.

Lemma well_formed_NoDup (entry : Dirent) :
  well_formed entry = true -> forall prefix, NoDup (tree_paths_entry prefix entry).
Proof.
  induction entry as [entryName | entryName entries IH | entryName]
    using Dirent_induction; intros Hwf prefix.
  - constructor; [ intros [] | constructor ].
  - cbn [well_formed] in Hwf. cbn [tree_paths_entry].
    apply andb_true_iff in Hwf. destruct Hwf as [_ Hwf].
    apply andb_true_iff in Hwf. destruct Hwf as [Hdistinct Hall].
    rewrite forallb_forall in Hall. rewrite Forall_forall in IH.
    apply NoDup_flat_map_entries; [ exact Hdistinct | | ];
      apply Forall_forall; intros e He.
    + apply well_formed_name, Hall, He.
    + apply IH; [ exact He | apply Hall, He ].
  - constructor.
Qed.

(** The walk of a well-formed tree meets every relative path once. *)
Lemma well_formed_tree_NoDup (entries : list Dirent) :
  well_formed_tree entries = true -> NoDup (tree_paths entries).
Proof.
  unfold well_formed_tree, tree_paths. intro Hwf.
  apply andb_true_iff in Hwf. destruct Hwf as [Hdistinct Hall].
  rewrite forallb_forall in Hall.
  apply NoDup_flat_map_entries; [ exact Hdistinct | | ];
    apply Forall_forall; intros e He.
  - apply well_formed_name, Hall, He.
  - apply well_formed_NoDup, Hall, He.
Qed.

(** C10. In every report that [compareApps] returns, [matched] and the
    lengths of [signatureOnly] and [modified] add up to the number of local
    files that are not skipped and whose path is in the original. When the
    local tree is as a file system gives it (no separator in a name, no name
    twice in a directory) its relative paths are distinct, that number is
    the number of paths that are in both trees and not skipped, and each of
    these paths has exactly one outcome: the report is the tally of one
    classification per path, so no path is in both [modified] and
    [signatureOnly] or twice in one of them. The report exists when the
    files that are not skipped can be read. *)
Theorem compareApps_partition (w : World) (localApp originalApp tempDir : string) :
  let localFiles := getAllFiles w localApp localApp in
  let originalSet :=
    Set_new (map relativePath (getAllFiles w originalApp originalApp)) in
  (readable_files w localApp originalApp ->
   exists report, compareApps w localApp originalApp tempDir = Ok report)
  /\ (forall report,
        compareApps w localApp originalApp tempDir = Ok report ->
        (matched report + List.length (signatureOnly report)
         + List.length (modified report))%nat
        = List.length (filter (compared originalSet) localFiles))
  /\ (well_formed_tree (dir_tree w localApp) = true ->
      NoDup (map relativePath localFiles)
      /\ forall report,
           compareApps w localApp originalApp tempDir = Ok report ->
           (matched report + List.length (signatureOnly report)
            + List.length (modified report))%nat
           = List.length (common_paths w localApp originalApp)
           /\ NoDup (modified report ++ signatureOnly report)
           /\ exists classified,
                map fst classified = common_paths w localApp originalApp
                /\ matched report = List.length (filter is_match classified)
                /\ signatureOnly report
                   = map fst (filter is_signatureOnly classified)
                /\ modified report = map fst (filter is_modified classified)).
Proof.
  intros localFiles originalSet.
  split; [ apply compareApps_returns | ].
  assert (Hcount : forall report,
    compareApps w localApp originalApp tempDir = Ok report ->
    exists classified,
      map fst classified
      = map relativePath (filter (compared originalSet) localFiles)
      /\ matched report = List.length (filter is_match classified)
      /\ signatureOnly report = map fst (filter is_signatureOnly classified)
      /\ modified report = map fst (filter is_modified classified)
      /\ (matched report + List.length (signatureOnly report)
          + List.length (modified report))%nat
         = List.length (filter (compared originalSet) localFiles)).
  { intros report H.
    destruct (compareApps_report _ _ _ _ _ H)
      as (classified & Hmap & _ & Hmatched & Hmod & Hsig & _).
    exists classified. repeat split; try assumption.
    rewrite Hmatched, Hmod, Hsig, !length_map, classified_partition.
    rewrite <- (length_map fst classified), Hmap, length_map. reflexivity. }
  split.
  - intros report H. destruct (Hcount report H) as (? & _ & _ & _ & _ & Hsum).
    exact Hsum.
  - intro Hwf.
    assert (HL : NoDup (map relativePath localFiles)).
    { unfold localFiles. rewrite (proj1 (getAllFiles_paths w localApp)).
      apply well_formed_tree_NoDup, Hwf. }
    split; [ exact HL | ].
    intros report H.
    destruct (Hcount report H) as (classified & Hmap & Hmatched & Hsig & Hmod & Hsum).
    assert (Hcommon : map fst classified = common_paths w localApp originalApp).
    { rewrite Hmap, filter_compared_paths. unfold common_paths.
      fold localFiles originalSet. rewrite (Set_new_NoDup_id _ HL).
      reflexivity. }
    split; [ | split ].
    + rewrite Hsum, <- Hcommon, Hmap, length_map. reflexivity.
    + rewrite Hmod, Hsig. apply classified_NoDup.
      rewrite Hmap, filter_compared_paths. apply NoDup_filter, HL.
    + exists classified. auto.
Qed.

(** ** The properties at work *)

(** The first scenario of the specification: one file matches, the
    executable differs in its signature only, one file is missing, and the
    verdict is a failure. *)
Example signed_world_report :
  compareApps signed_world "/local" "/original" "/tmp"
  = Ok {| matched := 1;
          modified := [];
          signatureOnly := ["b.bin"];
          missingInLocal := ["c.txt"];
          missingInOriginal := [] |}
  /\ exitCode {| matched := 1;
                 modified := [];
                 signatureOnly := ["b.bin"];
                 missingInLocal := ["c.txt"];
                 missingInOriginal := [] |} = 1.
Proof.
  split; vm_compute; reflexivity.
Qed.

Lemma compareFiles_executable_witness :
  hashFile signed_world "/local/b.bin"
  = Ok (example_digest [xcf; xfa; xed; xfe; x01; x02; x03; xaa])
  /\ hashFile signed_world "/original/b.bin"
     = Ok (example_digest [xcf; xfa; xed; xfe; x01; x02; x03; xbb])
  /\ isMachO signed_world "/local/b.bin" = true
  /\ compareFiles signed_world "/local/b.bin" "/original/b.bin" "b.bin" "/tmp"
     = Ok SignatureOnly.
Proof.
  assert (H1 : hashFile signed_world "/local/b.bin"
               = Ok (example_digest [xcf; xfa; xed; xfe; x01; x02; x03; xaa]))
    by reflexivity.
  assert (H2 : hashFile signed_world "/original/b.bin"
               = Ok (example_digest [xcf; xfa; xed; xfe; x01; x02; x03; xbb]))
    by reflexivity.
  assert (H3 : example_digest [xcf; xfa; xed; xfe; x01; x02; x03; xaa]
               <> example_digest [xcf; xfa; xed; xfe; x01; x02; x03; xbb])
    by (vm_compute; discriminate).
  assert (H4 : isMachO signed_world "/local/b.bin" = true)
    by (vm_compute; reflexivity).
  split; [ exact H1 | split; [ exact H2 | split; [ exact H4 | ] ] ].
  apply (proj1 (compareFiles_executable signed_world "/local/b.bin"
                  "/original/b.bin" "b.bin" "/tmp" _ _ H1 H2 H3 H4)).
  exists (example_digest [x01; x02; x03]).
  split; vm_compute; reflexivity.
Defined.

Lemma compareFiles_not_executable_witness :
  hashFile signed_world "/local/note.txt" = Ok (example_digest [x01])
  /\ hashFile signed_world "/original/note.txt" = Ok (example_digest [x02])
  /\ isMachO signed_world "/local/note.txt" = false
  /\ compareFiles signed_world "/local/note.txt" "/original/note.txt"
       "note.txt" "/tmp" = Ok Modified.
Proof.
  assert (H1 : hashFile signed_world "/local/note.txt"
               = Ok (example_digest [x01])) by reflexivity.
  assert (H2 : hashFile signed_world "/original/note.txt"
               = Ok (example_digest [x02])) by reflexivity.
  assert (H3 : example_digest [x01] <> example_digest [x02])
    by (vm_compute; discriminate).
  assert (H4 : isMachO signed_world "/local/note.txt" = false)
    by (vm_compute; reflexivity).
  split; [ exact H1 | split; [ exact H2 | split; [ exact H4 | ] ] ].
  apply (compareFiles_not_executable signed_world "/local/note.txt"
           "/original/note.txt" "note.txt" "/tmp" _ _ H1 H2 H3 H4).
Defined.

Lemma compareApps_identical_witness :
  exists report,
    compareApps mirror_world "/local" "/original" "/tmp" = Ok report
    /\ missingInLocal report = []
    /\ missingInOriginal report = []
    /\ modified report = []
    /\ signatureOnly report = []
    /\ matched report = 2%nat.
Proof.
  apply (compareApps_identical mirror_world "/local" "/original" "/tmp").
  - reflexivity.
  - intros p _ _. exists [x68; x69]. split; reflexivity.
Defined.

Lemma verdict_pass_iff_witness :
  isValid {| matched := 1;
             modified := [];
             signatureOnly := ["b.bin"];
             missingInLocal := [];
             missingInOriginal := ["entitlements.plist"] |} = true.
Proof.
  apply (proj2 (proj1 (verdict_pass_iff _))). split; reflexivity.
Defined.

Lemma isMachO_iff_magic_witness :
  isMachO signed_world "/local/b.bin" = true
  /\ isMachO signed_world "/local/a.txt" = false
  /\ isMachO signed_world "/local/_CodeSignature/CodeResources" = false.
Proof.
  destruct (isMachO_iff_magic signed_world "/local/b.bin") as (Hiff & _).
  destruct (isMachO_iff_magic signed_world "/local/a.txt") as (_ & _ & _ & Hshort & _).
  destruct (isMachO_iff_magic signed_world "/local/_CodeSignature/CodeResources")
    as (_ & _ & Hnone & _).
  split; [ | split ].
  - apply Hiff. exists xcf, xfa, xed, xfe, [x01; x02; x03; xaa].
    split; [ reflexivity | right; left; reflexivity ].
  - apply (Hshort [x68; x69]); [ reflexivity | simpl; lia ].
  - apply Hnone. reflexivity.
Defined.

Lemma parseSections_filtered_witness :
  parseSections signed_otool
  = [ {| name := "__TEXT.__text"; offset := Num 4; size := Num 3 |} ]
  /\ List.length (sectionTable signed_otool) = 3%nat
  /\ Forall (fun s => size s <> Num 0 /\ offset s <> Num 0)
       (parseSections signed_otool).
Proof.
  split; [ vm_compute; reflexivity | ].
  split; [ vm_compute; reflexivity | ].
  apply (proj1 (proj2 (parseSections_filtered signed_otool))).
Defined.

Lemma compareApps_missing_witness :
  exists report,
    compareApps signed_world "/local" "/original" "/tmp" = Ok report
    /\ In "c.txt" (missingInLocal report).
Proof.
  destruct (compareApps_missing signed_world "/local" "/original" "/tmp")
    as [_ H].
  eexists. split; [ vm_compute; reflexivity | ].
  apply (proj1 (H _ eq_refl)).
  split; [ vm_compute; tauto | ].
  split; [ | reflexivity ].
  vm_compute. intros [E | [E | [E | []]]]; discriminate E.
Defined.

Lemma compareApps_excluded_witness :
  exists report,
    compareApps signed_world "/local" "/original" "/tmp" = Ok report
    /\ excluded "_CodeSignature/CodeResources"
    /\ In "_CodeSignature/CodeResources"
         (map relativePath (getAllFiles signed_world "/local" "/local"))
    /\ ~ In "_CodeSignature/CodeResources" (missingInOriginal report).
Proof.
  destruct (compareApps_excluded signed_world "/local" "/original" "/tmp")
    as (_ & H & _).
  assert (Hex : excluded "_CodeSignature/CodeResources")
    by (apply shouldSkipFile_excluded; reflexivity).
  eexists. split; [ vm_compute; reflexivity | ].
  split; [ exact Hex | ].
  split; [ vm_compute; tauto | ].
  apply (H _ _ eq_refl Hex).
Defined.

Lemma compareApps_partition_witness :
  well_formed_tree (dir_tree signed_world "/local") = true
  /\ exists report,
       compareApps signed_world "/local" "/original" "/tmp" = Ok report
       /\ (matched report + List.length (signatureOnly report)
           + List.length (modified report))%nat = 2%nat
       /\ common_paths signed_world "/local" "/original" = ["a.txt"; "b.bin"].
Proof.
  destruct (compareApps_partition signed_world "/local" "/original" "/tmp")
    as (_ & _ & H).
  assert (Hwf : well_formed_tree (dir_tree signed_world "/local") = true)
    by (vm_compute; reflexivity).
  split; [ exact Hwf | ].
  eexists. split; [ vm_compute; reflexivity | ].
  split; [ | vm_compute; reflexivity ].
  destruct (H Hwf) as [_ Hreport].
  destruct (Hreport _ eq_refl) as [Hsum _].
  exact Hsum.
Defined.

(** * Further properties: the collaborators of the comparator *)

(** ** [findCefClientApp] *)

Lemma length_append (a b : string) :
  String.length (a +++ b) = (String.length a + String.length b)%nat.
Proof.
  induction a as [ | c a IH]; simpl; [ reflexivity | ].
  rewrite IH. reflexivity.
Qed.

Lemma path_join_not_empty (currentDir entryName : string) :
  path_join currentDir entryName <> EmptyString.
Proof.
  unfold path_join. destruct currentDir; discriminate.
Qed.

Lemma find_append {A : Type} (f : A -> bool) (l1 l2 : list A) :
  List.find f (l1 ++ l2) =
  match List.find f l1 with
  | Some x => Some x
  | None => List.find f l2
  end.
Proof.
  induction l1 as [ | x l1 IH]; simpl; [ reflexivity | ].
  destruct (f x); [ reflexivity | exact IH ].
Qed.

Lemma directories_not_empty (entry : Dirent) :
  forall currentDir d,
    In d (directories currentDir entry) -> fst d <> EmptyString.
Proof.
  induction entry as [entryName | entryName entries IH | entryName]
    using Dirent_induction; intros currentDir d Hin.
  - destruct Hin.
  - cbn [directories] in Hin. destruct Hin as [<- | Hin].
    + apply path_join_not_empty.
    + apply in_flat_map in Hin. destruct Hin as (e & He & Hd).
      rewrite Forall_forall in IH. exact (IH e He _ _ Hd).
  - destruct Hin.
Qed.

(** The loop body, entry by entry, finds the first directory of that name
    in depth-first order. *)
Lemma find_entry_first (entry : Dirent) :
  forall currentDir,
    find_entry currentDir entry
    = option_map fst (List.find named_app (directories currentDir entry)).
Proof.
  induction entry as [entryName | entryName entries IH | entryName]
    using Dirent_induction; intro currentDir.
  - reflexivity.
  - cbn [find_entry directories List.find]. cbv zeta.
    change (named_app (path_join currentDir entryName, entryName))
      with (String.eqb entryName "cefclient.app").
    destruct (String.eqb entryName "cefclient.app"); [ reflexivity | ].
    set (fullPath := path_join currentDir entryName).
    assert (Hloop : first_return (map (find_entry fullPath) entries)
      = option_map fst
          (List.find named_app (flat_map (directories fullPath) entries))).
    { clear - IH. induction IH as [ | e rest He _ IHrest]; [ reflexivity | ].
      cbn [map first_return flat_map].
      rewrite find_append, He.
      destruct (List.find named_app (directories fullPath e)) as [d | ];
        [ reflexivity | exact IHrest ]. }
    rewrite Hloop.
    destruct (List.find named_app (flat_map (directories fullPath) entries))
      as [d | ] eqn:E; [ | reflexivity ].
    apply find_some in E. destruct E as [Hin _].
    apply in_flat_map in Hin. destruct Hin as (e & _ & Hd).
    apply directories_not_empty in Hd.
    cbn [option_map truthy]. destruct (fst d); [ contradiction | reflexivity ].
  - reflexivity.
Qed.

Lemma find_in_first (currentDir : string) (entries : list Dirent) :
  find_in currentDir entries
  = option_map fst
      (List.find named_app (flat_map (directories currentDir) entries)).
Proof.
  unfold find_in. induction entries as [ | e rest IH]; [ reflexivity | ].
  cbn [map first_return flat_map].
  rewrite find_append, find_entry_first.
  destruct (List.find named_app (directories currentDir e)) as [d | ];
    [ reflexivity | exact IH ].
Qed.

(** X1. [findCefClientApp] returns the path of the first directory named
    [cefclient.app] in the depth-first order of the tree, a directory coming
    before what it contains, and [null] exactly when no directory of the
    tree has that name. *)
Theorem findCefClientApp_first (w : World) (dir : string) :
  findCefClientApp w dir
  = option_map fst
      (List.find named_app (flat_map (directories dir) (dir_tree w dir)))
  /\ (findCefClientApp w dir = None
      <-> ~ In "cefclient.app"
            (map snd (flat_map (directories dir) (dir_tree w dir)))).
Proof.
  unfold findCefClientApp. rewrite find_in_first. split; [ reflexivity | ].
  destruct (List.find named_app (flat_map (directories dir) (dir_tree w dir)))
    as [d | ] eqn:E.
  - apply find_some in E. destruct E as [Hin Hname].
    unfold named_app in Hname. apply String.eqb_eq in Hname.
    split; [ discriminate | ].
    intro H. exfalso. apply H. rewrite <- Hname. apply in_map. exact Hin.
  - split; [ | reflexivity ].
    intros _ Hin. apply in_map_iff in Hin. destruct Hin as (d & Hname & Hin).
    pose proof (find_none _ _ E d Hin) as Hnot.
    unfold named_app in Hnot. rewrite Hname, String.eqb_refl in Hnot.
    discriminate.
Qed.

Lemma directories_below (entry : Dirent) :
  forall currentDir d,
    In d (directories currentDir entry) ->
    exists parent,
      fst d = path_join parent (snd d)
      /\ (parent = currentDir \/ exists rel, parent = path_join currentDir rel).
Proof.
  induction entry as [entryName | entryName entries IH | entryName]
    using Dirent_induction; intros currentDir d Hin.
  - destruct Hin.
  - cbn [directories] in Hin. destruct Hin as [<- | Hin].
    + exists currentDir. split; [ reflexivity | left; reflexivity ].
    + apply in_flat_map in Hin. destruct Hin as (e & He & Hd).
      rewrite Forall_forall in IH.
      destruct (IH e He _ _ Hd) as (parent & Hfst & Hparent).
      exists parent. split; [ exact Hfst | right ].
      destruct Hparent as [-> | (rel & ->)].
      * exists entryName. reflexivity.
      * exists (path_join entryName rel). unfold path_join.
        rewrite !append_assoc. reflexivity.
  - destruct Hin.
Qed.

(** X2. A path that [findCefClientApp] returns is below the directory
    searched, [dir] itself or a directory under it joined with the name
    [cefclient.app]; it is never the directory searched itself and never
    empty. *)
Theorem findCefClientApp_below (w : World) (dir appPath : string) :
  findCefClientApp w dir = Some appPath ->
  (exists parent,
     appPath = path_join parent "cefclient.app"
     /\ (parent = dir \/ exists rel, parent = path_join dir rel))
  /\ (exists rel, appPath = path_join dir rel)
  /\ appPath <> dir
  /\ appPath <> EmptyString.
Proof.
  intro H. unfold findCefClientApp in H. rewrite find_in_first in H.
  destruct (List.find named_app (flat_map (directories dir) (dir_tree w dir)))
    as [d | ] eqn:E; [ | discriminate ].
  injection H as <-.
  apply find_some in E. destruct E as [Hin Hname].
  unfold named_app in Hname. apply String.eqb_eq in Hname.
  apply in_flat_map in Hin. destruct Hin as (e & _ & Hd).
  destruct (directories_below e dir d Hd) as (parent & Hfst & Hparent).
  rewrite Hname in Hfst.
  assert (Hrel : exists rel, fst d = path_join dir rel).
  { rewrite Hfst. destruct Hparent as [-> | (rel & ->)].
    - exists "cefclient.app". reflexivity.
    - exists (path_join rel "cefclient.app"). unfold path_join.
      rewrite !append_assoc. reflexivity. }
  split; [ exists parent; split; assumption | ].
  split; [ exact Hrel | ].
  split.
  - destruct Hrel as (rel & ->). unfold path_join. intro Heq.
    apply (f_equal String.length) in Heq.
    rewrite length_append in Heq. simpl in Heq. lia.
  - rewrite Hfst. apply path_join_not_empty.
Qed.

(** ** [split] and [join] *)

Lemma split_on_not_nil (sep : ascii) (s : string) : split_on sep s <> [].
Proof.
  destruct s as [ | c s]; simpl; [ discriminate | ].
  destruct (Ascii.eqb c sep); [ discriminate | ].
  destruct (split_on sep s); discriminate.
Qed.

(** Joining what a split gives, with the same separator, gives the string
    back. *)
Lemma join_split (sep : ascii) (s : string) :
  join_with (String sep EmptyString) (split_on sep s) = s.
Proof.
  induction s as [ | c s IH]; [ reflexivity | ].
  cbn [split_on]. pose proof (split_on_not_nil sep s) as Hne.
  destruct (Ascii.eqb_spec c sep) as [-> | Hc].
  - destruct (split_on sep s) as [ | part parts]; [ contradiction | ].
    change (join_with (String sep "") ("" :: part :: parts))
      with (String sep (join_with (String sep "") (part :: parts))).
    rewrite IH. reflexivity.
  - destruct (split_on sep s) as [ | part parts]; [ contradiction | ].
    destruct parts as [ | part' parts].
    + simpl in *. rewrite IH. reflexivity.
    + change (join_with (String sep "") (String c part :: part' :: parts))
        with (String c (join_with (String sep "") (part :: part' :: parts))).
      rewrite IH. reflexivity.
Qed.

Lemma includes_dot_cons (c : ascii) (s : string) :
  includes (String c s) "." = Ascii.eqb "." c || includes s ".".
Proof.
  cbn [includes strip_prefix]. destruct (Ascii.eqb "." c); reflexivity.
Qed.

Lemma split_no_dot (s : string) :
  includes s "." = false -> split_on "." s = [s].
Proof.
  induction s as [ | c s IH]; [ reflexivity | ].
  rewrite includes_dot_cons. intro H. apply orb_false_iff in H.
  destruct H as [Hc Hs]. cbn [split_on].
  rewrite Ascii.eqb_sym, Hc, (IH Hs). reflexivity.
Qed.

Lemma split_dot_append (part s : string) :
  includes part "." = false ->
  split_on "." (part +++ "." +++ s) = part :: split_on "." s.
Proof.
  induction part as [ | c part IH]; intro H; [ reflexivity | ].
  rewrite includes_dot_cons in H. apply orb_false_iff in H.
  destruct H as [Hc Hpart].
  change (String c part +++ "." +++ s) with (String c (part +++ "." +++ s)).
  cbn [split_on]. rewrite Ascii.eqb_sym, Hc, (IH Hpart). reflexivity.
Qed.

(** The components of a split contain no separator. *)
Lemma split_components (s : string) :
  Forall (fun part => includes part "." = false) (split_on "." s).
Proof.
  induction s as [ | c s IH]; [ repeat constructor | ].
  cbn [split_on]. destruct (Ascii.eqb_spec c ".") as [-> | Hc].
  - constructor; [ reflexivity | exact IH ].
  - pose proof (split_on_not_nil "." s) as Hne.
    destruct (split_on "." s) as [ | part parts]; [ contradiction | ].
    inversion IH as [ | ? ? Hpart Hparts]; subst.
    constructor; [ | exact Hparts ].
    rewrite includes_dot_cons, Hpart.
    destruct (Ascii.eqb_spec "." c) as [<- | ]; [ contradiction | reflexivity ].
Qed.

(** Splitting a join of components without separator gives them back. *)
Lemma split_join (parts : list string) :
  parts <> [] ->
  Forall (fun part => includes part "." = false) parts ->
  split_on "." (join_with "." parts) = parts.
Proof.
  induction parts as [ | part rest IH]; intros Hne Hall; [ contradiction | ].
  inversion Hall as [ | ? ? Hpart Hrest]; subst.
  destruct rest as [ | part' rest].
  - simpl. apply split_no_dot, Hpart.
  - change (join_with "." (part :: part' :: rest))
      with (part +++ "." +++ join_with "." (part' :: rest)).
    rewrite (split_dot_append _ _ Hpart), IH; [ reflexivity | discriminate | exact Hrest ].
Qed.

Lemma join_app (l1 l2 : list string) :
  l1 <> [] -> l2 <> [] ->
  join_with "." (l1 ++ l2) = join_with "." l1 +++ "." +++ join_with "." l2.
Proof.
  induction l1 as [ | part rest IH]; intros H1 H2; [ contradiction | ].
  destruct rest as [ | part' rest].
  - destruct l2 as [ | q l2]; [ contradiction | ]. reflexivity.
  - change (join_with "." ((part :: part' :: rest) ++ l2))
      with (part +++ "." +++ join_with "." ((part' :: rest) ++ l2)).
    rewrite IH by (assumption || discriminate).
    change (join_with "." (part :: part' :: rest))
      with (part +++ "." +++ join_with "." (part' :: rest)).
    rewrite !append_assoc. reflexivity.
Qed.

Lemma Forall_firstn {A : Type} (P : A -> Prop) (n : nat) (l : list A) :
  Forall P l -> Forall P (firstn n l).
Proof.
  revert n. induction l as [ | x l IH]; intros n H.
  - rewrite firstn_nil. constructor.
  - destruct n as [ | n]; [ constructor | ].
    inversion H; subst. simpl. constructor; auto.
Qed.

(** What the first three components of a version are to the version. *)
Lemma first_three_components (bundleVersion : string) :
  let version := join_with "." (firstn 3 (split_on "." bundleVersion)) in
  split_on "." version = firstn 3 (split_on "." bundleVersion)
  /\ (version = bundleVersion
      \/ exists rest, bundleVersion = version +++ "." +++ rest)
  /\ ((components bundleVersion <= 3)%nat -> version = bundleVersion).
Proof.
  intro version. unfold version, components.
  pose proof (split_on_not_nil "." bundleVersion) as Hne.
  pose proof (split_components bundleVersion) as Hall.
  pose proof (join_split "." bundleVersion) as Hjoin.
  split; [ | split ].
  - apply split_join; [ | apply Forall_firstn, Hall ].
    destruct (split_on "." bundleVersion); [ contradiction | discriminate ].
  - pose proof (firstn_skipn 3 (split_on "." bundleVersion)) as Hparts.
    destruct (skipn 3 (split_on "." bundleVersion)) as [ | q rest] eqn:E.
    + left. rewrite app_nil_r in Hparts. rewrite Hparts. exact Hjoin.
    + right. exists (join_with "." (q :: rest)).
      rewrite <- join_app; [ rewrite Hparts; symmetry; exact Hjoin | | discriminate ].
      destruct (split_on "." bundleVersion); [ contradiction | discriminate ].
  - intro Hle. rewrite firstn_all2 by exact Hle. exact Hjoin.
Qed.

(** ** [detectCefVersion] *)

Lemma detectCefVersion_try_string (t : PlistTool)
    (infoPlistPath bundleVersion : string) :
  bundleVersion <> EmptyString ->
  plutil_field t infoPlistPath = Ok (FieldString bundleVersion) ->
  detectCefVersion_try t infoPlistPath
  = Ok (join_with "." (firstn 3 (split_on "." bundleVersion))).
Proof.
  intros Hne H. unfold detectCefVersion_try. rewrite H. cbn [bind].
  destruct bundleVersion; [ contradiction | reflexivity ].
Qed.

(** X3. The version that [detectCefVersion] returns is made of the first
    three components of the bundle version: it has between one and three
    components, it is the bundle version itself when that has at most three
    components, and otherwise the bundle version continues it after a dot. *)
Theorem detectCefVersion_components (t : PlistTool) (appPath version : string) :
  detectCefVersion t appPath = Ok version ->
  exists bundleVersion,
    plutil_field t (path_join (path_join appPath "Contents") "Info.plist")
    = Ok (FieldString bundleVersion)
    /\ bundleVersion <> EmptyString
    /\ split_on "." version = firstn 3 (split_on "." bundleVersion)
    /\ (1 <= components version <= 3)%nat
    /\ (version = bundleVersion
        \/ exists rest, bundleVersion = version +++ "." +++ rest)
    /\ ((components bundleVersion <= 3)%nat -> version = bundleVersion)
    /\ ((3 <= components bundleVersion)%nat -> components version = 3%nat).
Proof.
  unfold detectCefVersion. cbv zeta.
  destruct (plist_exists t _); cbn [negb]; [ | discriminate ].
  destruct (plutil_field t _) as [ [bundleVersion | | ] | m ] eqn:E;
    try (unfold detectCefVersion_try; rewrite E; discriminate).
  destruct (String.eqb_spec bundleVersion EmptyString) as [-> | Hne];
    [ unfold detectCefVersion_try; rewrite E; discriminate | ].
  rewrite (detectCefVersion_try_string _ _ _ Hne E).
  intro H.
  assert (Hv : version = join_with "." (firstn 3 (split_on "." bundleVersion)))
    by congruence.
  rewrite Hv. clear H Hv.
  exists bundleVersion.
  destruct (first_three_components bundleVersion) as (Hsplit & Hprefix & Hsame).
  split; [ reflexivity | ]. split; [ exact Hne | ].
  split; [ exact Hsplit | ].
  assert (Hlen : components (join_with "." (firstn 3 (split_on "." bundleVersion)))
                 = Nat.min 3 (components bundleVersion)).
  { unfold components at 1. rewrite Hsplit, length_firstn. reflexivity. }
  assert (Hpos : (1 <= components bundleVersion)%nat).
  { unfold components. pose proof (split_on_not_nil "." bundleVersion).
    destruct (split_on "." bundleVersion); [ contradiction | simpl; lia ]. }
  split; [ rewrite Hlen; lia | ].
  split; [ exact Hprefix | ].
  split; [ exact Hsame | ].
  intro H3. rewrite Hlen. lia.
Qed.

(** X4. [detectCefVersion] returns a version exactly when the property
    list exists and its version is a string that is not empty. Without the
    file it throws its own message; every other failure is rethrown with the
    prefix of the [catch], and a version that is missing or empty is
    reported as not found. *)
Theorem detectCefVersion_errors (t : PlistTool) (appPath : string) :
  let infoPlistPath := path_join (path_join appPath "Contents") "Info.plist" in
  ((exists version, detectCefVersion t appPath = Ok version)
   <-> plist_exists t infoPlistPath = true
       /\ exists c s, plutil_field t infoPlistPath = Ok (FieldString (String c s)))
  /\ (plist_exists t infoPlistPath = false ->
      detectCefVersion t appPath
      = Throw "Could not find Info.plist to detect version")
  /\ (plist_exists t infoPlistPath = true ->
      forall message,
        detectCefVersion t appPath = Throw message ->
        exists cause, message = "Failed to parse Info.plist: " +++ cause)
  /\ (plist_exists t infoPlistPath = true ->
      plutil_field t infoPlistPath = Ok FieldFalsy
      \/ plutil_field t infoPlistPath = Ok (FieldString EmptyString) ->
      detectCefVersion t appPath
      = Throw "Failed to parse Info.plist: CFBundleShortVersionString not found").
Proof.
  intro infoPlistPath.
  unfold detectCefVersion, detectCefVersion_try. cbv zeta.
  fold infoPlistPath.
  destruct (plist_exists t infoPlistPath); cbn [negb].
  - destruct (plutil_field t infoPlistPath) as [field | m]; cbn [bind].
    + destruct field as [ [ | c s] | | ].
      * split; [ split; [ intros (v & H); discriminate
                         | intros (_ & c & s & H); discriminate ] | ].
        split; [ discriminate | ].
        split; [ intros _ message H; injection H as <-; eexists; reflexivity | ].
        reflexivity.
      * split; [ split; [ intros _; split; [ reflexivity | exists c, s; reflexivity ]
                         | intros _; eexists; reflexivity ] | ].
        split; [ discriminate | ].
        split; [ intros _ message H; discriminate | ].
        intros _ [H | H]; discriminate.
      * split; [ split; [ intros (v & H); discriminate
                         | intros (_ & c & s & H); discriminate ] | ].
        split; [ discriminate | ].
        split; [ intros _ message H; injection H as <-; eexists; reflexivity | ].
        reflexivity.
      * split; [ split; [ intros (v & H); discriminate
                         | intros (_ & c & s & H); discriminate ] | ].
        split; [ discriminate | ].
        split; [ intros _ message H; injection H as <-; eexists; reflexivity | ].
        intros _ [H | H]; discriminate.
    + split; [ split; [ intros (v & H); discriminate
                       | intros (_ & c & s & H); discriminate ] | ].
      split; [ discriminate | ].
      split; [ intros _ message H; injection H as <-; eexists; reflexivity | ].
      intros _ [H | H]; discriminate.
  - split; [ split; [ intros (v & H); discriminate
                     | intros (H & _); discriminate ] | ].
    split; [ reflexivity | ].
    split; discriminate.
Qed.

(** ** [findOriginalCefBuild] *)

Lemma startsWith_Some (s prefix : string) :
  startsWith s prefix = true <-> exists rest, s = prefix +++ rest.
Proof.
  unfold startsWith. split.
  - destruct (strip_prefix prefix s) as [rest | ] eqn:E; [ | discriminate ].
    intros _. exists rest. apply strip_prefix_Some. exact E.
  - intros (rest & ->). rewrite strip_prefix_append. reflexivity.
Qed.

(** The test of the loop is [version_matches]: a version of three
    components or more is not empty, so it is truthy. *)
Lemma matches_version_matches (version buildVersion : string) :
  let fullVersion :=
    if (3 <=? components version)%nat then Some version else None in
  (if truthy fullVersion then
     match fullVersion with
     | Some fullVersion => startsWith buildVersion (fullVersion +++ "+")
     | None => false
     end
   else startsWith buildVersion (hd EmptyString (split_on "." version) +++ "."))
  = version_matches version buildVersion.
Proof.
  unfold version_matches. cbv zeta.
  destruct (3 <=? components version)%nat eqn:E; [ | reflexivity ].
  destruct version as [ | c version]; [ discriminate | reflexivity ].
Qed.

(** The loop over one platform returns the first acceptable build. *)
Lemma search_builds_first (version : string) (builds : list Build) :
  search_builds (hd EmptyString (split_on "." version))
    (if (3 <=? components version)%nat then Some version else None) builds
  = match List.find (acceptable version) builds with
    | Some build => option_map descriptor_of (clientFileOf build)
    | None => None
    end.
Proof.
  induction builds as [ | build rest IH]; [ reflexivity | ].
  cbn [search_builds List.find]. unfold acceptable at 1.
  destruct (cef_version build) as [ [ | c buildVersion] | ]; try exact IH.
  - destruct (clientFileOf build); exact IH.
  - rewrite (matches_version_matches version (String c buildVersion)).
    change (String.eqb (String c buildVersion) "") with false.
    cbn [negb andb].
    destruct (version_matches version (String c buildVersion)).
    + destruct (clientFileOf build) as [clientFile | ] eqn:Ec.
      * cbn [option_map]. rewrite Ec. reflexivity.
      * exact IH.
    + destruct (clientFileOf build); exact IH.
Qed.

Lemma findOriginalCefBuild_find (index : CefIndex) (version : string) :
  findOriginalCefBuild (Ok index) version
  = match List.find (acceptable version) (all_builds index) with
    | Some build =>
        match clientFileOf build with
        | Some clientFile => Ok (descriptor_of clientFile)
        | None =>
            Throw ("Could not find CEF build for version " +++ version
                   +++ ". Check https://cef-builds.spotifycdn.com/index.html")
        end
    | None =>
        Throw ("Could not find CEF build for version " +++ version
               +++ ". Check https://cef-builds.spotifycdn.com/index.html")
    end.
Proof.
  unfold findOriginalCefBuild, all_builds. cbn [bind]. cbv zeta.
  fold (components version).
  rewrite !search_builds_first, find_append.
  assert (Hclient : forall builds build,
    List.find (acceptable version) builds = Some build ->
    exists clientFile, clientFileOf build = Some clientFile).
  { intros builds build H. apply find_some in H. destruct H as [_ H].
    unfold acceptable in H. destruct (cef_version build); [ | discriminate ].
    destruct (clientFileOf build) as [clientFile | ]; [ | discriminate ].
    exists clientFile. reflexivity. }
  destruct (List.find (acceptable version) (versions_of (macosx64 index)))
    as [build | ] eqn:E1.
  - destruct (Hclient _ _ E1) as (clientFile & ->). reflexivity.
  - destruct (List.find (acceptable version) (versions_of (macosarm64 index)))
      as [build | ] eqn:E2; [ | reflexivity ].
    destruct (Hclient _ _ E2) as (clientFile & ->). reflexivity.
Qed.

(** X5. [findOriginalCefBuild] returns the descriptor of the client file
    of the first acceptable build, the builds of [macosx64] coming before
    those of [macosarm64] and each platform in the order of the index; a
    build whose version matches but that has no client file is passed over.
    It throws, with the message that names the version, exactly when the
    index has no acceptable build. *)
Theorem findOriginalCefBuild_first (index : CefIndex) (version : string) :
  (forall descriptor,
     findOriginalCefBuild (Ok index) version = Ok descriptor
     <-> exists build clientFile,
           List.find (acceptable version) (all_builds index) = Some build
           /\ clientFileOf build = Some clientFile
           /\ descriptor = descriptor_of clientFile)
  /\ ((exists message, findOriginalCefBuild (Ok index) version = Throw message)
      <-> forall build, In build (all_builds index) ->
                        acceptable version build = false)
  /\ (forall message,
        findOriginalCefBuild (Ok index) version = Throw message ->
        message = "Could not find CEF build for version " +++ version
                  +++ ". Check https://cef-builds.spotifycdn.com/index.html").
Proof.
  rewrite findOriginalCefBuild_find.
  destruct (List.find (acceptable version) (all_builds index))
    as [build | ] eqn:E.
  - pose proof (find_some _ _ E) as [Hin Hacc].
    assert (Hclient : exists clientFile, clientFileOf build = Some clientFile).
    { unfold acceptable in Hacc. destruct (cef_version build); [ | discriminate ].
      destruct (clientFileOf build) as [clientFile | ]; [ | discriminate ].
      exists clientFile. reflexivity. }
    destruct Hclient as (clientFile & Hclient). rewrite Hclient.
    split; [ | split ].
    + intro descriptor. split.
      * intro H. exists build, clientFile. repeat split; congruence.
      * intros (b & f & Hb & Hf & ->). congruence.
    + split; [ intros (message & H); discriminate | ].
      intro H. rewrite (H build Hin) in Hacc. discriminate.
    + intros message H. discriminate.
  - split; [ | split ].
    + intro descriptor. split; [ discriminate | ].
      intros (b & f & Hb & _). discriminate.
    + split; [ intros _; apply (find_none _ _ E) | ].
      intros _. eexists. reflexivity.
    + intros message H. injection H as <-. reflexivity.
Qed.

(** X6. The descriptor that [findOriginalCefBuild] returns is made from a
    file of type [client] of a build of the index: the URL is the CDN prefix
    followed by the name of the file, and checksum, size and name are those
    of the file. When the version asked has three components or more the
    version of the build is that version followed by a plus sign, so 73.1.5
    does not select a build 73.1.50; otherwise it is the first component
    followed by a dot. *)
Theorem findOriginalCefBuild_match (index : CefIndex) (version : string)
    (descriptor : BuildDescriptor) :
  findOriginalCefBuild (Ok index) version = Ok descriptor ->
  exists build buildVersion fs clientFile rest,
    In build (all_builds index)
    /\ cef_version build = Some buildVersion
    /\ files build = Some fs
    /\ In clientFile fs
    /\ file_type clientFile = "client"
    /\ url descriptor
       = "https://cef-builds.spotifycdn.com/" +++ file_name clientFile
    /\ sha1 descriptor = file_sha1 clientFile
    /\ size_bytes descriptor = file_size clientFile
    /\ archive_name descriptor = file_name clientFile
    /\ ((3 <= components version)%nat ->
        buildVersion = version +++ "+" +++ rest)
    /\ ((components version < 3)%nat ->
        buildVersion = hd EmptyString (split_on "." version) +++ "." +++ rest).
Proof.
  rewrite findOriginalCefBuild_find.
  destruct (List.find (acceptable version) (all_builds index))
    as [build | ] eqn:E; [ | discriminate ].
  apply find_some in E. destruct E as [Hin Hacc].
  unfold acceptable in Hacc.
  destruct (cef_version build) as [buildVersion | ] eqn:Ev; [ | discriminate ].
  destruct (clientFileOf build) as [clientFile | ] eqn:Ec; [ | discriminate ].
  intro H. assert (Hd : descriptor = descriptor_of clientFile) by congruence.
  subst descriptor. clear H.
  apply andb_true_iff in Hacc. destruct Hacc as [_ Hmatch].
  unfold clientFileOf in Ec.
  destruct (files build) as [fs | ] eqn:Ef; [ | discriminate ].
  apply find_some in Ec. destruct Ec as [Hfile Htype].
  apply String.eqb_eq in Htype.
  unfold version_matches in Hmatch.
  assert (Hrest : exists rest,
    ((3 <= components version)%nat -> buildVersion = version +++ "+" +++ rest)
    /\ ((components version < 3)%nat ->
        buildVersion = hd EmptyString (split_on "." version) +++ "." +++ rest)).
  { destruct (3 <=? components version)%nat eqn:E3.
    - apply Nat.leb_le in E3. apply startsWith_Some in Hmatch.
      destruct Hmatch as (rest & ->). exists rest.
      split; [ intros _; rewrite append_assoc; reflexivity | lia ].
    - apply Nat.leb_gt in E3. apply startsWith_Some in Hmatch.
      destruct Hmatch as (rest & ->). exists rest.
      split; [ lia | intros _; rewrite append_assoc; reflexivity ]. }
  destruct Hrest as (rest & H3 & H2).
  exists build, buildVersion, fs, clientFile, rest.
  split; [ exact Hin | ]. split; [ exact Ev | ]. split; [ exact Ef | ].
  split; [ exact Hfile | ]. split; [ exact Htype | ].
  split; [ reflexivity | ]. split; [ reflexivity | ].
  split; [ reflexivity | ]. split; [ reflexivity | ].
  split; assumption.
Qed.

Lemma first_component (version : string) :
  let majorVersion := hd EmptyString (split_on "." version) in
  split_on "." majorVersion = [majorVersion].
Proof.
  cbv zeta. apply split_no_dot.
  pose proof (split_components version) as Hall.
  pose proof (split_on_not_nil "." version) as Hne.
  destruct (split_on "." version) as [ | part parts]; [ contradiction | ].
  inversion Hall; subst. assumption.
Qed.

(** X7. A version of one or two components is searched by its first
    component alone: asking for 73.1 finds what asking for 73 finds, whatever
    the second component is. *)
Theorem findOriginalCefBuild_partial_version (fetched : completion CefIndex)
    (version : string) (descriptor : BuildDescriptor) :
  (components version < 3)%nat ->
  findOriginalCefBuild fetched version = Ok descriptor
  <-> findOriginalCefBuild fetched (hd EmptyString (split_on "." version))
      = Ok descriptor.
Proof.
  intro Hlt. unfold findOriginalCefBuild.
  destruct fetched as [index | m]; cbn [bind]; [ | tauto ].
  cbv zeta. pose proof (first_component version) as Hfirst. cbv zeta in Hfirst.
  rewrite Hfirst. cbn [hd List.length].
  fold (components version).
  replace (3 <=? components version)%nat with false
    by (symmetry; apply Nat.leb_gt; exact Hlt).
  change (3 <=? 1)%nat with false. cbv iota.
  destruct (search_builds (hd "" (split_on "." version)) None
              (versions_of (macosx64 index))); [ tauto | ].
  destruct (search_builds (hd "" (split_on "." version)) None
              (versions_of (macosarm64 index))); [ tauto | ].
  split; discriminate.
Qed.

(** ** [main] *)

(** Opens one step of a sequence that is known to complete. *)
Tactic Notation "step" hyp(H) "as" simple_intropattern(pat) ident(E) :=
  match type of H with
  | bind ?r _ = Ok _ =>
      destruct r as pat eqn:E; cbn [bind] in H; [ | discriminate H ]
  | match ?x with _ => _ end = Ok _ =>
      destruct x as pat eqn:E; try discriminate H
  | (if ?b then _ else _) = Ok _ =>
      destruct b eqn:E; try discriminate H
  end.

Lemma findCefClientApp_not_empty (w : World) (dir : string) :
  findCefClientApp w dir <> Some EmptyString.
Proof.
  unfold findCefClientApp. rewrite find_in_first.
  destruct (List.find named_app (flat_map (directories dir) (dir_tree w dir)))
    as [d | ] eqn:E; [ | discriminate ].
  apply find_some in E. destruct E as [Hin _].
  apply in_flat_map in Hin. destruct Hin as (entry & _ & Hd).
  apply directories_not_empty in Hd.
  cbn [option_map]. congruence.
Qed.

(** The [try] block reaches [process.exit] exactly after a verified run,
    and the status is the verdict on the report. *)
Lemma main_try_Ok (e : Env) (localZipPath : string)
    (cefVersionArg : option string) (tempDir : string) (status : Z) :
  main_try e localZipPath cefVersionArg tempDir = Ok status
  <-> exists report,
        verified_run e localZipPath cefVersionArg tempDir report
        /\ status = exitCode report.
Proof.
  unfold main_try, verified_run, hashFileSha1, readFileSync. cbv zeta. split.
  - intro H.
    step H as [ [] | ] Hunzip.
    step H as [ [ | c0 p0 ] | ] Hlocal.
    step H as [ cefVersion | ] Hversion.
    step H as [ originalBuild | ] Hbuild.
    step H as [ [] | ] Hdownload.
    destruct (file_bytes (env_world e) (path_join tempDir "original.tar.bz2"))
      as [content | ] eqn:Hcontent; cbn [bind] in H; [ | discriminate H ].
    step H as [ | ] Hsha1.
    step H as [ [] | ] Huntar.
    step H as [ [ | c1 p1 ] | ] Horiginal.
    step H as [ report | ] Hreport.
    injection H as <-.
    apply negb_false_iff, String.eqb_eq in Hsha1.
    exists report. split; [ | reflexivity ].
    exists (String c0 p0), cefVersion, originalBuild, content, (String c1 p1).
    split; [ first [ assumption | reflexivity ] | ].
    split; [ first [ assumption | reflexivity ] | ].
    split.
    { unfold version_for.
      destruct cefVersionArg as [ [ | c v ] | ].
      + right. split; [ right; reflexivity | exact Hversion ].
      + left. exists c, v. split; [ reflexivity | congruence ].
      + right. split; [ left; reflexivity | exact Hversion ]. }
    repeat (split; [ first [ assumption | reflexivity ] | ]).
    exact Hreport.
  - intros (report & (localAppPath & cefVersion & originalBuild & content
                       & originalAppPath & H1 & H2 & H3 & H4 & H5 & H6 & H7
                       & H8 & H9 & H10) & ->).
    rewrite H1. cbn [bind]. rewrite H2.
    destruct localAppPath as [ | c0 p0 ];
      [ exfalso; exact (findCefClientApp_not_empty _ _ H2) | ].
    assert (Hversion :
      match cefVersionArg with
      | Some (String c v) => Ok (String c v)
      | _ => detectCefVersion
               {| plist_exists := env_existsSync e; plutil_field := env_plutil e |}
               (String c0 p0)
      end = Ok cefVersion).
    { destruct H3 as [ (c & v & -> & ->) | ([-> | ->] & H3) ];
        [ reflexivity | exact H3 | exact H3 ]. }
    rewrite Hversion. cbn [bind]. rewrite H4. cbn [bind].
    rewrite H5. cbn [bind]. rewrite H6. cbn [bind].
    rewrite H7, String.eqb_refl. cbn [negb]. rewrite H8. cbn [bind].
    rewrite H9.
    destruct originalAppPath as [ | c1 p1 ];
      [ exfalso; exact (findCefClientApp_not_empty _ _ H9) | ].
    rewrite H10. reflexivity.
Qed.

Lemma exitCode_zero (report : Report) :
  exitCode report = 0 <-> missingInLocal report = [] /\ modified report = [].
Proof.
  unfold exitCode, isValid.
  destruct (modified report), (missingInLocal report); simpl;
    split; try discriminate; try tauto;
    intros [H1 H2]; discriminate.
Qed.

(** X8. [main] exits with status 0 exactly when it is given an archive
    that exists, the temporary directory is made, and the run is verified:
    the local archive unpacks and holds the application, the index has a
    build for the version, the download completes and its SHA-1 is the one
    the index gives, the original unpacks and holds the application, and
    [compareApps] returns a report in which nothing is missing and nothing
    is modified. *)
Theorem main_exit_zero (e : Env) (args : list string) :
  exit_code (main e args) = 0
  <-> exists localZipPath rest tempDir report,
        args = localZipPath :: rest
        /\ env_existsSync e localZipPath = true
        /\ env_mkdtempSync e = Ok tempDir
        /\ verified_run e localZipPath (hd_error rest) tempDir report
        /\ missingInLocal report = []
        /\ modified report = [].
Proof.
  unfold main. split.
  - destruct args as [ | localZipPath rest ]; [ discriminate | ].
    destruct (env_existsSync e localZipPath) eqn:Hexists;
      cbn [negb]; [ | discriminate ].
    destruct (env_mkdtempSync e) as [tempDir | ] eqn:Htemp; [ | discriminate ].
    destruct (main_try e localZipPath (hd_error rest) tempDir)
      as [status | ] eqn:Htry; [ | discriminate ].
    cbn [exit_code]. intros ->.
    apply main_try_Ok in Htry. destruct Htry as (report & Hrun & Hstatus).
    symmetry in Hstatus. apply exitCode_zero in Hstatus.
    exists localZipPath, rest, tempDir, report. tauto.
  - intros (localZipPath & rest & tempDir & report & -> & Hexists & Htemp
            & Hrun & Hmissing & Hmodified).
    rewrite Hexists, Htemp. cbn [negb].
    assert (Htry : main_try e localZipPath (hd_error rest) tempDir = Ok 0).
    { apply main_try_Ok. exists report. split; [ exact Hrun | ].
      symmetry. apply exitCode_zero. tauto. }
    rewrite Htry. reflexivity.
Qed.

(** X9. The temporary directory is removed exactly when it has been made
    and the [try] block throws; the status is then 1. A run that reaches a
    verdict, pass or fail, leaves the directory behind: the exit happens
    inside the [try] block. The status is always 0 or 1. *)
Theorem main_cleanup (e : Env) (args : list string) :
  (cleaned_up (main e args) = true
   <-> exists localZipPath rest tempDir message,
         args = localZipPath :: rest
         /\ env_existsSync e localZipPath = true
         /\ env_mkdtempSync e = Ok tempDir
         /\ main_try e localZipPath (hd_error rest) tempDir = Throw message)
  /\ (cleaned_up (main e args) = true -> exit_code (main e args) = 1)
  /\ (forall localZipPath rest tempDir report,
        args = localZipPath :: rest ->
        env_existsSync e localZipPath = true ->
        env_mkdtempSync e = Ok tempDir ->
        verified_run e localZipPath (hd_error rest) tempDir report ->
        main e args = {| exit_code := exitCode report; cleaned_up := false |})
  /\ (exit_code (main e args) = 0 \/ exit_code (main e args) = 1).
Proof.
  unfold main. split; [ | split; [ | split ] ].
  - split.
    + destruct args as [ | localZipPath rest ]; [ discriminate | ].
      destruct (env_existsSync e localZipPath) eqn:Hexists;
        cbn [negb]; [ | discriminate ].
      destruct (env_mkdtempSync e) as [tempDir | ] eqn:Htemp; [ | discriminate ].
      destruct (main_try e localZipPath (hd_error rest) tempDir)
        as [status | message] eqn:Htry; [ discriminate | ].
      intros _. exists localZipPath, rest, tempDir, message. tauto.
    + intros (localZipPath & rest & tempDir & message & -> & Hexists & Htemp
              & Htry).
      rewrite Hexists, Htemp, Htry. reflexivity.
  - destruct args as [ | localZipPath rest ]; [ discriminate | ].
    destruct (env_existsSync e localZipPath); cbn [negb]; [ | discriminate ].
    destruct (env_mkdtempSync e) as [tempDir | ]; [ | discriminate ].
    destruct (main_try e localZipPath (hd_error rest) tempDir);
      [ discriminate | reflexivity ].
  - intros localZipPath rest tempDir report -> Hexists Htemp Hrun.
    rewrite Hexists, Htemp. cbn [negb].
    assert (Htry : main_try e localZipPath (hd_error rest) tempDir
                   = Ok (exitCode report)).
    { apply main_try_Ok. exists report. split; [ exact Hrun | reflexivity ]. }
    rewrite Htry. reflexivity.
  - destruct args as [ | localZipPath rest ]; [ right; reflexivity | ].
    destruct (env_existsSync e localZipPath); cbn [negb];
      [ | right; reflexivity ].
    destruct (env_mkdtempSync e) as [tempDir | ]; [ | right; reflexivity ].
    destruct (main_try e localZipPath (hd_error rest) tempDir)
      as [status | message] eqn:Htry; [ | right; reflexivity ].
    apply main_try_Ok in Htry. destruct Htry as (report & _ & ->).
    cbn [exit_code]. unfold exitCode. destruct (isValid report); tauto.
Qed.

(** X10. A version given on the command line, when it is not empty, is
    used as it is: the property list of the application is not read, and
    reading it differently, or not being able to read it, changes nothing.
    An empty version argument is the same as none, and arguments after the
    second are ignored. *)
Theorem main_version_argument (e : Env) (localZipPath : string)
    (c : ascii) (v : string) (rest : list string) :
  (forall plutil,
     main (with_plutil e plutil) (localZipPath :: String c v :: rest)
     = main e (localZipPath :: String c v :: rest))
  /\ main e (localZipPath :: EmptyString :: rest) = main e [localZipPath]
  /\ main e (localZipPath :: String c v :: rest)
     = main e [localZipPath; String c v].
Proof.
  split; [ | split ].
  - intro plutil. unfold main. cbn [hd_error with_plutil env_existsSync
      env_mkdtempSync].
    destruct (env_existsSync e localZipPath); cbn [negb]; [ | reflexivity ].
    destruct (env_mkdtempSync e) as [tempDir | ]; [ | reflexivity ].
    replace (main_try (with_plutil e plutil) localZipPath (Some (String c v))
               tempDir)
      with (main_try e localZipPath (Some (String c v)) tempDir);
      reflexivity.
  - unfold main. cbn [hd_error].
    destruct (env_existsSync e localZipPath); cbn [negb]; [ | reflexivity ].
    destruct (env_mkdtempSync e) as [tempDir | ]; [ | reflexivity ].
    replace (main_try e localZipPath (Some EmptyString) tempDir)
      with (main_try e localZipPath None tempDir); reflexivity.
  - reflexivity.
Qed.

(** ** [download-release.js] *)

Lemma find_first_split {A : Type} (f : A -> bool) (l : list A) (x : A) :
  List.find f l = Some x ->
  exists before after,
    l = before ++ x :: after
    /\ (forall a, In a before -> f a = false)
    /\ f x = true.
Proof.
  induction l as [ | a l IH]; simpl; [ discriminate | ].
  destruct (f a) eqn:E.
  - intro H. injection H as <-. exists [], l.
    split; [ reflexivity | ]. split; [ intros ? [] | exact E ].
  - intro H. destruct (IH H) as (before & after & -> & Hbefore & Hx).
    exists (a :: before), after.
    split; [ reflexivity | ]. split; [ | exact Hx ].
    intros b [<- | Hb]; [ exact E | exact (Hbefore b Hb) ].
Qed.

Lemma release_api_url_eq (owner repo tag : string) :
  (if String.eqb tag "latest"
   then "https://api.github.com/repos/" +++ owner +++ "/" +++ repo
        +++ "/releases/latest"
   else "https://api.github.com/repos/" +++ owner +++ "/" +++ repo
        +++ "/releases/tags/" +++ tag)
  = release_api_url owner repo tag.
Proof.
  unfold release_api_url. destruct (String.eqb tag "latest"); reflexivity.
Qed.

(** X11. [downloadGitHubRelease] first asks the API for the release, the
    latest one for the tag [latest] and the tagged one otherwise, and then
    makes at most one more request: it downloads, to the output path, the
    URL of the first asset of the release that has the name asked for, and
    ends as that download ends. When the API request fails it ends with
    that failure, and when no asset has the name it throws, and in both
    cases nothing is downloaded. *)
Theorem downloadGitHubRelease_requests (gh : GitHub)
    (owner repo tag assetName outputPath : string) :
  let run := downloadGitHubRelease gh owner repo tag assetName outputPath in
  let apiUrl := release_api_url owner repo tag in
  (exists message,
     gh_fetchJson gh apiUrl = Throw message
     /\ run = ([Fetch apiUrl], Throw message))
  \/ (exists assets message,
        gh_fetchJson gh apiUrl = Ok assets
        /\ (forall a, In a assets -> asset_name a <> assetName)
        /\ run = ([Fetch apiUrl], Throw message))
  \/ (exists before asset after,
        gh_fetchJson gh apiUrl = Ok (before ++ asset :: after)
        /\ (forall a, In a before -> asset_name a <> assetName)
        /\ asset_name asset = assetName
        /\ run = ([Fetch apiUrl;
                   Download (browser_download_url asset) outputPath],
                  gh_downloadFile gh (browser_download_url asset) outputPath)).
Proof.
  intros run apiUrl. unfold run, downloadGitHubRelease. cbv zeta.
  rewrite release_api_url_eq. fold apiUrl.
  destruct (gh_fetchJson gh apiUrl) as [assets | message] eqn:Hfetch.
  - destruct (List.find (fun a => String.eqb (asset_name a) assetName) assets)
      as [asset | ] eqn:Hfind.
    + right. right.
      destruct (find_first_split _ _ _ Hfind)
        as (before & after & -> & Hbefore & Hname).
      exists before, asset, after.
      split; [ reflexivity | ]. split; [ | split ].
      * intros a Ha. apply String.eqb_neq. exact (Hbefore a Ha).
      * apply String.eqb_eq. exact Hname.
      * reflexivity.
    + right. left. eexists assets, _.
      split; [ reflexivity | ]. split; [ | reflexivity ].
      intros a Ha. apply String.eqb_neq. exact (find_none _ _ Hfind a Ha).
  - left. exists message. split; reflexivity.
Qed.

(** A run logs the API request alone and throws, or logs one download
    after it and ends as the download ends. *)
Lemma downloadGitHubRelease_shape (gh : GitHub)
    (owner repo tag assetName outputPath : string) :
  let run := downloadGitHubRelease gh owner repo tag assetName outputPath in
  (exists apiUrl message, run = ([Fetch apiUrl], Throw message))
  \/ (exists apiUrl downloadUrl,
        run = ([Fetch apiUrl; Download downloadUrl outputPath],
               gh_downloadFile gh downloadUrl outputPath)).
Proof.
  cbv zeta. unfold downloadGitHubRelease. cbv zeta.
  destruct (gh_fetchJson gh _) as [assets | message].
  - destruct (List.find _ assets) as [asset | ].
    + right. eexists _, _. reflexivity.
    + left. eexists _, _. reflexivity.
  - left. eexists _, _. reflexivity.
Qed.

(** X12. Run from the command line with fewer than four arguments the
    script makes no request and exits with status 1. With four, the output
    path is the name of the asset; arguments after the fifth are ignored.
    The status is 0 exactly when an asset was downloaded and the download
    completed, and whatever the outcome at most one download is requested. *)
Theorem download_release_cli_arguments (gh : GitHub) (args : list string) :
  ((List.length args < 4)%nat -> download_release_cli gh args = ([], 1))
  /\ (forall owner repo tag assetName,
        download_release_cli gh [owner; repo; tag; assetName]
        = download_release_cli gh [owner; repo; tag; assetName; assetName])
  /\ (forall owner repo tag assetName outputPath rest,
        download_release_cli gh
          (owner :: repo :: tag :: assetName :: outputPath :: rest)
        = download_release_cli gh [owner; repo; tag; assetName; outputPath])
  /\ (snd (download_release_cli gh args) = 0
      <-> exists downloadUrl outputPath,
            In (Download downloadUrl outputPath)
               (fst (download_release_cli gh args))
            /\ gh_downloadFile gh downloadUrl outputPath = Ok tt)
  /\ (List.length (filter is_download (fst (download_release_cli gh args)))
      <= 1)%nat.
Proof.
  split; [ | split; [ | split; [ | split ] ] ].
  - intro Hlen.
    destruct args as [ | a [ | b [ | c [ | d rest ] ] ] ]; try reflexivity.
    simpl in Hlen. lia.
  - reflexivity.
  - reflexivity.
  - unfold download_release_cli.
    destruct args as [ | owner [ | repo [ | tag [ | assetName rest ] ] ] ];
      try (cbn [fst snd]; split; [ discriminate | intros (? & ? & [] & _) ]).
    set (outputPath := match rest with [] => assetName | p :: _ => p end).
    destruct (downloadGitHubRelease_shape gh owner repo tag assetName outputPath)
      as [ (apiUrl & message & ->) | (apiUrl & downloadUrl & ->) ].
    + cbn [fst snd]. split; [ discriminate | ].
      intros (u & p & [ H | [] ] & _). discriminate.
    + destruct (gh_downloadFile gh downloadUrl outputPath)
        as [ [] | message ] eqn:Hdownload; cbn [fst snd].
      * split; [ | reflexivity ]. intros _.
        exists downloadUrl, outputPath.
        split; [ right; left; reflexivity | exact Hdownload ].
      * split; [ discriminate | ].
        intros (u & p & [ H | [ H | [] ] ] & Hok); [ discriminate | ].
        injection H as <- <-. rewrite Hdownload in Hok. discriminate.
  - unfold download_release_cli.
    destruct args as [ | owner [ | repo [ | tag [ | assetName rest ] ] ] ];
      try (cbn [fst filter List.length]; lia).
    set (outputPath := match rest with [] => assetName | p :: _ => p end).
    destruct (downloadGitHubRelease_shape gh owner repo tag assetName outputPath)
      as [ (apiUrl & message & ->) | (apiUrl & downloadUrl & ->) ].
    + cbn. lia.
    + destruct (gh_downloadFile gh downloadUrl outputPath); cbn; lia.
Qed.

(** ** Further properties of the comparator *)

(** *** Failures of [compareFiles] and of the loop that calls it *)

Lemma compareFiles_Throw (w : World)
    (localPath originalPath relativePath tempDir message : string) :
  compareFiles w localPath originalPath relativePath tempDir = Throw message ->
  (file_bytes w localPath = None /\ hashFile w localPath = Throw message)
  \/ (file_bytes w localPath <> None
      /\ file_bytes w originalPath = None
      /\ hashFile w originalPath = Throw message).
Proof.
  intro H.
  destruct (file_bytes w localPath) as [l | ] eqn:El.
  - destruct (file_bytes w originalPath) as [o | ] eqn:Eo.
    + destruct (compareFiles_returns w localPath originalPath relativePath tempDir)
        as (c & Hc); [ congruence | congruence | ].
      rewrite Hc in H. discriminate.
    + right. split; [ discriminate | ]. split; [ reflexivity | ].
      unfold compareFiles, hashFile, readFileSync in *.
      rewrite El, Eo in H. rewrite Eo. cbn [bind] in *.
      injection H as <-. reflexivity.
  - left. split; [ reflexivity | ].
    unfold compareFiles, hashFile, readFileSync in *.
    rewrite El in *. cbn [bind] in *. injection H as <-. reflexivity.
Qed.

Lemma compareFiles_unreadable (w : World)
    (localPath originalPath relativePath tempDir : string) :
  file_bytes w localPath = None \/ file_bytes w originalPath = None ->
  exists message,
    compareFiles w localPath originalPath relativePath tempDir = Throw message.
Proof.
  intro H. unfold compareFiles, hashFile, readFileSync.
  destruct (file_bytes w localPath) as [l | ]; cbn [bind];
    [ | eexists; reflexivity ].
  destruct H as [H | H]; [ discriminate | ].
  rewrite H. eexists; reflexivity.
Qed.


Lemma compareMatching_throws (w : World) (originalSet : list string)
    (originalFiles : list FileEntry) (tempDir : string)
    (localFiles : list FileEntry) :
  (forall p, In p originalSet -> In p (map relativePath originalFiles)) ->
  forall r,
    ((exists message,
        compareMatching w originalSet originalFiles tempDir localFiles r
        = Throw message)
     <-> exists f, In f localFiles
                   /\ unreadable_pair w originalSet originalFiles f)
    /\ (forall message,
          compareMatching w originalSet originalFiles tempDir localFiles r
          = Throw message ->
          exists f g,
            In f localFiles
            /\ compared originalSet f = true
            /\ find (fun g => String.eqb (relativePath g) (relativePath f))
                 originalFiles = Some g
            /\ compareFiles w (absolutePath f) (absolutePath g)
                 (relativePath f) tempDir = Throw message).
Proof.
  intro Hset. induction localFiles as [ | f rest IH]; intro r.
  - split; [ split | ].
    + intros (message & H). discriminate.
    + intros (f & [] & _).
    + intros message H. discriminate.
  - cbn [compareMatching].
    assert (Hlater : forall r',
      ((exists message,
          compareMatching w originalSet originalFiles tempDir rest r'
          = Throw message)
       -> exists f', In f' (f :: rest)
                     /\ unreadable_pair w originalSet originalFiles f')
      /\ (forall message,
            compareMatching w originalSet originalFiles tempDir rest r'
            = Throw message ->
            exists f' g,
              In f' (f :: rest)
              /\ compared originalSet f' = true
              /\ find (fun g => String.eqb (relativePath g) (relativePath f'))
                   originalFiles = Some g
              /\ compareFiles w (absolutePath f') (absolutePath g)
                   (relativePath f') tempDir = Throw message)).
    { intro r'. destruct (IH r') as [Hiff Hmsg]. split.
      - intro H. apply (proj1 Hiff) in H. destruct H as (f' & Hin & Hu).
        exists f'. split; [ right; exact Hin | exact Hu ].
      - intros message H. destruct (Hmsg message H) as (f' & g & Hin & H').
        exists f', g. split; [ right; exact Hin | exact H' ]. }
    assert (Hskip : compared originalSet f = false ->
      forall r',
        ((exists message,
            compareMatching w originalSet originalFiles tempDir rest r'
            = Throw message)
         <-> exists f', In f' (f :: rest)
                        /\ unreadable_pair w originalSet originalFiles f')
        /\ (forall message,
              compareMatching w originalSet originalFiles tempDir rest r'
              = Throw message ->
              exists f' g,
                In f' (f :: rest)
                /\ compared originalSet f' = true
                /\ find (fun g => String.eqb (relativePath g) (relativePath f'))
                     originalFiles = Some g
                /\ compareFiles w (absolutePath f') (absolutePath g)
                     (relativePath f') tempDir = Throw message)).
    { intros Hc r'. destruct (Hlater r') as [Hthrows Hmsg].
      split; [ | exact Hmsg ].
      split; [ exact Hthrows | ].
      intros (f' & [<- | Hin] & Hu).
      - destruct Hu as [Hu _]. congruence.
      - apply (proj2 (proj1 (IH r'))). exists f'. tauto. }
    unfold compared in Hskip.
    destruct (shouldSkipFile (relativePath f)) eqn:Eskip;
      [ apply Hskip; reflexivity | ].
    destruct (Set_has originalSet (relativePath f)) eqn:Ehas; cbn [negb];
      [ | apply Hskip; reflexivity ].
    clear Hskip.
    destruct (find_relativePath originalFiles (relativePath f)) as (g & Efind).
    { apply Hset, Set_has_In, Ehas. }
    rewrite Efind.
    assert (Hcompared : compared originalSet f = true).
    { unfold compared. rewrite Eskip, Ehas. reflexivity. }
    destruct (compareFiles w (absolutePath f) (absolutePath g)
                (relativePath f) tempDir) as [c | message] eqn:Ecmp;
      cbn [bind].
    + destruct (Hlater (tally r c (relativePath f))) as [Hthrows Hmsg].
      split; [ | exact Hmsg ].
      split; [ exact Hthrows | ].
      intros (f' & [<- | Hin] & Hu).
      * exfalso. destruct Hu as [_ Hu].
        assert (Hnone : file_bytes w (absolutePath f) = None
                        \/ file_bytes w (absolutePath g) = None).
        { destruct Hu as [Hu | (g' & Hg' & Hu)]; [ left; exact Hu | ].
          right. congruence. }
        destruct (compareFiles_unreadable w (absolutePath f) (absolutePath g)
                    (relativePath f) tempDir Hnone) as (m & Hm).
        congruence.
      * apply (proj2 (proj1 (IH (tally r c (relativePath f))))).
        exists f'. tauto.
    + split; [ split | ].
      * intros _. exists f. split; [ left; reflexivity | ].
        split; [ exact Hcompared | ].
        apply compareFiles_Throw in Ecmp.
        destruct Ecmp as [[Hnone _] | (_ & Hnone & _)];
          [ left; exact Hnone | ].
        right. exists g. split; [ exact Efind | exact Hnone ].
      * intros _. eexists. reflexivity.
      * intros message' H. injection H as <-.
        exists f, g. split; [ left; reflexivity | ]. tauto.
Qed.

(** X14. The loop of [compareApps] that compares the files, whatever the
    two lists of files are that it is given: it throws exactly when one of
    the files it compares, a local file that is not skipped and is in the
    original or the file of the original with the same relative path, cannot
    be read, and what it throws is the exception of that call of
    [compareFiles], as it is. The lookup of the original file never fails,
    so the [TypeError] of reading a property of [undefined] is never
    thrown. *)
Theorem compareMatching_throws_iff (w : World)
    (originalFiles localFiles : list FileEntry) (tempDir : string)
    (r : Report) :
  let originalSet := Set_new (map relativePath originalFiles) in
  ((exists message,
      compareMatching w originalSet originalFiles tempDir localFiles r
      = Throw message)
   <-> exists f, In f localFiles
                 /\ unreadable_pair w originalSet originalFiles f)
  /\ (forall f,
        In f localFiles -> compared originalSet f = true ->
        exists g,
          find (fun g => String.eqb (relativePath g) (relativePath f))
            originalFiles = Some g)
  /\ (forall message,
        compareMatching w originalSet originalFiles tempDir localFiles r
        = Throw message ->
        exists f g,
          In f localFiles
          /\ compared originalSet f = true
          /\ find (fun g => String.eqb (relativePath g) (relativePath f))
               originalFiles = Some g
          /\ compareFiles w (absolutePath f) (absolutePath g)
               (relativePath f) tempDir = Throw message).
Proof.
  intro originalSet.
  assert (Hset : forall p,
    In p originalSet -> In p (map relativePath originalFiles)).
  { intros p Hp. apply (proj1 (Set_new_In _ _)) in Hp. exact Hp. }
  destruct (compareMatching_throws w originalSet originalFiles tempDir
              localFiles Hset r) as [Hiff Hmsg].
  split; [ exact Hiff | ]. split; [ | exact Hmsg ].
  intros f _ Hc. apply find_relativePath, Hset, Set_has_In.
  unfold compared in Hc. apply andb_true_iff in Hc. tauto.
Qed.

(** *** The section digest *)

(** X15. Two files whose bytes differ, the local one an executable, both
    with sections that can be read, each of a size from 1 to 2^30 at an
    offset that is a safe integer: the answer is [SignatureOnly] exactly
    when the digest of the local sections' bytes is the digest of the
    original sections' bytes. It is, in particular, when both have the same
    sections and the same bytes in each, whatever else differs between the
    files: the header, the [__LINKEDIT] segment, anything between the
    sections. *)
Theorem compareFiles_same_sections (w : World)
    (localPath originalPath relativePath tempDir localOtool originalOtool : string)
    (localContent originalContent : list byte) :
  file_bytes w localPath = Some localContent ->
  file_bytes w originalPath = Some originalContent ->
  sha256_hex w localContent <> sha256_hex w originalContent ->
  isMachO w localPath = true ->
  otool_l w localPath = Some localOtool ->
  otool_l w originalPath = Some originalOtool ->
  parseSections localOtool <> [] ->
  parseSections originalOtool <> [] ->
  forallb readable_section (parseSections localOtool) = true ->
  forallb readable_section (parseSections originalOtool) = true ->
  (compareFiles w localPath originalPath relativePath tempDir = Ok SignatureOnly
   <-> sha256_hex w
         (flat_map (section_bytes localContent) (parseSections localOtool))
       = sha256_hex w
           (flat_map (section_bytes originalContent)
              (parseSections originalOtool)))
  /\ (parseSections localOtool = parseSections originalOtool ->
      (forall s, In s (parseSections localOtool) ->
                 section_bytes localContent s = section_bytes originalContent s) ->
      compareFiles w localPath originalPath relativePath tempDir
      = Ok SignatureOnly).
Proof.
  intros Hl Ho Hne Hexe Hotl Hoto Hnl Hno Hrl Hro.
  assert (Hanswer :
    compareFiles w localPath originalPath relativePath tempDir
    = if String.eqb
           (sha256_hex w
              (flat_map (section_bytes localContent) (parseSections localOtool)))
           (sha256_hex w
              (flat_map (section_bytes originalContent)
                 (parseSections originalOtool)))
      then Ok SignatureOnly else Ok Modified).
  { rewrite (compareFiles_differ w localPath originalPath relativePath tempDir
               (sha256_hex w localContent) (sha256_hex w originalContent)).
    - rewrite Hexe.
      rewrite (hashMachOSegments_digest w localPath tempDir "local"
                 localOtool localContent Hl Hotl Hnl Hrl).
      rewrite (hashMachOSegments_digest w originalPath tempDir "original"
                 originalOtool originalContent Ho Hoto Hno Hro).
      reflexivity.
    - unfold hashFile, readFileSync. rewrite Hl. reflexivity.
    - unfold hashFile, readFileSync. rewrite Ho. reflexivity.
    - exact Hne. }
  assert (Hiff :
    compareFiles w localPath originalPath relativePath tempDir = Ok SignatureOnly
    <-> sha256_hex w
          (flat_map (section_bytes localContent) (parseSections localOtool))
        = sha256_hex w
            (flat_map (section_bytes originalContent)
               (parseSections originalOtool))).
  { rewrite Hanswer.
    destruct (String.eqb_spec
      (sha256_hex w
         (flat_map (section_bytes localContent) (parseSections localOtool)))
      (sha256_hex w
         (flat_map (section_bytes originalContent)
            (parseSections originalOtool)))) as [Heq | Hneq].
    - tauto.
    - split; [ discriminate | contradiction ]. }
  split; [ exact Hiff | ].
  intros Hsame Hbytes. apply Hiff. rewrite <- Hsame. f_equal.
  clear - Hbytes.
  induction (parseSections localOtool) as [ | s rest IH]; [ reflexivity | ].
  cbn [flat_map]. rewrite (Hbytes s) by (left; reflexivity).
  f_equal. apply IH. intros s' Hs'. apply Hbytes. right. exact Hs'.
Qed.

Lemma read_section_unreadable (fd : list byte) (s : Section) :
  portable_section s = true ->
  readable_section s = false ->
  size s <> Num 0 ->
  (buffer <- Buffer_alloc (size s) ;;
   readSync fd buffer 0 (size s) (offset s)) = Throw "ERR_OUT_OF_RANGE".
Proof.
  unfold portable_section, readable_section, Buffer_alloc, readSync.
  destruct (offset s) as [ | position]; [ discriminate | ].
  destruct (size s) as [ | length]; [ reflexivity | ].
  intros Hp H Hnz.
  assert (Hlength : length <> 0) by congruence. clear Hnz.
  apply andb_true_iff in Hp. destruct Hp as [Hposition Hsize].
  rewrite <- andb_assoc, Hposition, andb_true_r in H.
  destruct ((0 <=? length) && (length <=? kMaxLength)) eqn:Ealloc;
    [ | reflexivity ].
  cbn [bind].
  apply andb_true_iff in Ealloc. destruct Ealloc as [H0 Hmax].
  apply Z.leb_le in H0. apply Z.leb_le in Hmax.
  assert (Hlarge : INT32_MAX < length).
  { apply orb_true_iff in Hsize. destruct Hsize as [Hsize | Hsize].
    - exfalso. apply Z.leb_le in Hsize.
      apply andb_false_iff in H. destruct H as [H | H];
        apply Z.leb_gt in H; lia.
    - apply andb_true_iff in Hsize. destruct Hsize as [Hsize _].
      apply Z.ltb_lt in Hsize. exact Hsize. }
  change (0 <? 0) with false. cbv iota.
  rewrite repeat_length.
  replace (Z.to_nat length =? 0)%nat with false
    by (symmetry; apply Nat.eqb_neq; lia).
  rewrite ToInt32_wraps by lia.
  replace (length - 2 ^ 32 =? 0) with false
    by (symmetry; apply Z.eqb_neq; unfold kMaxLength in *; lia).
  replace (length - 2 ^ 32 <? 0) with true
    by (symmetry; apply Z.ltb_lt; unfold kMaxLength in *; lia).
  reflexivity.
Qed.

Lemma hashSections_unreadable (fd : list byte) (sections : list Section)
    (hash : list byte) :
  Forall (fun s => size s <> Num 0) sections ->
  forallb portable_section sections = true ->
  forallb readable_section sections = false ->
  hashSections fd sections hash = Throw "ERR_OUT_OF_RANGE".
Proof.
  intro Hnz. revert hash.
  induction Hnz as [ | s rest Hs Hrest IH]; intros hash Hp H;
    [ discriminate | ].
  cbn [forallb] in H, Hp. cbn [hashSections].
  apply andb_true_iff in Hp. destruct Hp as [Hps Hprest].
  destruct (readable_section s) eqn:Es.
  - pose proof (read_section fd s Es) as Hread.
    destruct (Buffer_alloc (size s)) as [buffer | m]; cbn [bind] in *;
      [ | discriminate ].
    rewrite Hread. cbn [bind]. apply IH; assumption.
  - pose proof (read_section_unreadable fd s Hps Es Hs) as Hread.
    destruct (Buffer_alloc (size s)) as [buffer | m]; cbn [bind] in *.
    + rewrite Hread. reflexivity.
    + exact Hread.
Qed.

Lemma sizes_nonzero (otoolOutput : string) :
  Forall (fun s => size s <> Num 0) (parseSections otoolOutput).
Proof.
  apply Forall_forall. intros s Hin.
  apply (parseSections_nonzero otoolOutput s Hin).
Qed.

Lemma readable_when_portable (sections : list Section) :
  forallb portable_section sections = true ->
  existsb (fun s => negb (readable_size (size s))) sections
  = negb (forallb readable_section sections).
Proof.
  induction sections as [ | s rest IH]; [ reflexivity | ].
  cbn [forallb existsb]. intro H.
  apply andb_true_iff in H. destruct H as [Hs Hrest].
  rewrite (IH Hrest), negb_andb. f_equal. f_equal.
  unfold portable_section in Hs. unfold readable_size, readable_section.
  destruct (offset s) as [ | position]; [ discriminate | ].
  apply andb_true_iff in Hs. destruct Hs as [Hs _].
  destruct (size s) as [ | length]; [ reflexivity | ].
  rewrite <- andb_assoc, Hs, andb_true_r. reflexivity.
Qed.

(** X16. Where the releases of Node.js and the platforms agree, that is
    when every retained section has an offset that is a safe integer and a
    size that, if it is a number, is at most 2^30 or from 2^31 to 2^32 - 1,
    [hashMachOSegments] throws in four cases and no other: [otool] fails; no
    section is left to hash; the file cannot be opened; or a retained
    section has a size that is not a number from 1 to 2^30, which
    [Buffer.alloc] or, from 2^31 on, [fs.readSync] refuses. Every message it
    throws begins with the prefix that its [catch] adds. *)
Theorem hashMachOSegments_throws_iff (w : World)
    (filePath tempDir prefix : string) :
  (forall otoolOutput,
     otool_l w filePath = Some otoolOutput ->
     forallb portable_section (parseSections otoolOutput) = true) ->
  ((exists message,
      hashMachOSegments w filePath tempDir prefix = Throw message)
   <-> otool_l w filePath = None
       \/ exists otoolOutput,
            otool_l w filePath = Some otoolOutput
            /\ (parseSections otoolOutput = []
                \/ file_bytes w filePath = None
                \/ existsb (fun s => negb (readable_size (size s)))
                     (parseSections otoolOutput) = true))
  /\ (forall message,
        hashMachOSegments w filePath tempDir prefix = Throw message ->
        exists cause, message = "Failed to hash segments: " +++ cause).
Proof.
  intro Hagree. split.
  - unfold hashMachOSegments, hashMachOSegments_try, execSync_otool, openSync.
    destruct (otool_l w filePath) as [otoolOutput | ]; cbn [bind].
    2: { split; [ intros _; left; reflexivity | intros _; eexists; reflexivity ]. }
    specialize (Hagree otoolOutput eq_refl).
    pose proof (readable_when_portable _ Hagree) as Hsizes.
    destruct (parseSections otoolOutput) as [ | s rest] eqn:Es.
    { cbn [List.length Nat.eqb].
      split; [ intros _; right; exists otoolOutput; tauto
             | intros _; eexists; reflexivity ]. }
    cbn [List.length Nat.eqb]. rewrite <- Es in *.
    destruct (file_bytes w filePath) as [content | ]; cbn [bind].
    2: { split; [ intros _; right; exists otoolOutput; tauto
                | intros _; eexists; reflexivity ]. }
    destruct (forallb readable_section (parseSections otoolOutput)) eqn:Er;
      cbn [negb] in Hsizes.
    + rewrite (hashSections_bytes _ _ _ Er). cbn [bind].
      split; [ intros (message & H); discriminate | ].
      intros [H | (out & Hout & [H | [H | H]])]; try discriminate;
        injection Hout as <-; congruence.
    + rewrite (hashSections_unreadable _ _ _ (sizes_nonzero otoolOutput)
                 Hagree Er).
      cbn [bind].
      split; [ intros _; right; exists otoolOutput; tauto
             | intros _; eexists; reflexivity ].
  - intros message. unfold hashMachOSegments.
    destruct (hashMachOSegments_try w filePath); [ discriminate | ].
    intro H. injection H as <-. eexists. reflexivity.
Qed.

(** *** The offsets of the sections *)

Lemma is_digit_cases (c : ascii) :
  is_digit c = true ->
  In c ["0"; "1"; "2"; "3"; "4"; "5"; "6"; "7"; "8"; "9"]%char.
Proof.
  destruct c as [b0 b1 b2 b3 b4 b5 b6 b7].
  destruct b0, b1, b2, b3, b4, b5, b6, b7; vm_compute; intro H;
    try discriminate H; tauto.
Qed.

Lemma parse_digits_decimal (s : string) (acc : Z) :
  all_chars is_digit s = true ->
  0 <= acc ->
  exists v, parse_digits 10 s (Some acc) = Some v /\ 0 <= v.
Proof.
  revert acc. induction s as [ | c s IH]; intros acc Hall Hacc.
  - exists acc. split; [ reflexivity | exact Hacc ].
  - cbn [all_chars] in Hall. apply andb_true_iff in Hall.
    destruct Hall as [Hc Hs].
    cbn [parse_digits]. unfold digitValue. unfold is_digit in Hc.
    rewrite Hc. bool_to_prop.
    replace (code c - 48 <? 10) with true by (symmetry; apply Z.ltb_lt; lia).
    apply IH; [ exact Hs | lia ].
Qed.

(** [parseInt] of a string of decimal digits is a number, and not a
    negative one. *)
Lemma parseInt_decimal (s : string) :
  s <> EmptyString ->
  all_chars is_digit s = true ->
  exists v, parseInt s 10 = Num v /\ 0 <= v.
Proof.
  destruct s as [ | c s]; [ contradiction | ]. intros _ Hall.
  cbn [all_chars] in Hall. apply andb_true_iff in Hall.
  destruct Hall as [Hc Hs].
  assert (Hhead : parseInt (String c s) 10
    = match parse_digits 10 s (Some (code c - 48)) with
      | Some v => Num (1 * v)
      | None => NaN
      end).
  { apply is_digit_cases in Hc. simpl in Hc.
    decompose [or] Hc; subst; try contradiction; reflexivity. }
  rewrite Hhead.
  destruct (parse_digits_decimal s (code c - 48) Hs) as (v & -> & Hv).
  { unfold is_digit in Hc. bool_to_prop. lia. }
  exists (1 * v). split; [ reflexivity | lia ].
Qed.

Lemma span_all_chars (p : ascii -> bool) (s run rest : string) :
  span p s = (run, rest) -> all_chars p run = true.
Proof.
  revert run rest. induction s as [ | c s IH]; intros run rest H; simpl in H.
  - injection H as <- <-. reflexivity.
  - destruct (p c) eqn:Ec.
    + destruct (span p s) as [run' rest'] eqn:E.
      injection H as <- <-. cbn [all_chars]. rewrite Ec.
      exact (IH _ _ eq_refl).
    + injection H as <- <-. reflexivity.
Qed.

Lemma plus_all_chars (p : ascii -> bool) (s run rest : string) :
  plus p s = Some (run, rest) ->
  run <> EmptyString /\ all_chars p run = true.
Proof.
  unfold plus. destruct (span p s) as [run' rest'] eqn:E.
  apply span_all_chars in E.
  destruct run' as [ | c run']; [ discriminate | ].
  intro H. injection H as <- <-. split; [ discriminate | exact E ].
Qed.

(** The last group of a match is a string of digits that is not empty. *)
Lemma sectionRegex_at_offset (s rest : string) (m : SectionMatch) :
  sectionRegex_at s = Some (m, rest) ->
  m_offsetStr m <> EmptyString /\ all_chars is_digit (m_offsetStr m) = true.
Proof.
  unfold sectionRegex_at. intro H.
  repeat match type of H with
  | match strip_prefix ?p ?x with _ => _ end = _ =>
      destruct (strip_prefix p x);
        [ cbv beta iota in H | discriminate ]
  | match plus ?p ?x with _ => _ end = _ =>
      let E := fresh "E" in
      destruct (plus p x) as [ [? ?] | ] eqn:E;
        [ cbv beta iota in H | discriminate ]
  end.
  inversion H; subst. cbn [m_offsetStr].
  match goal with
  | E : plus is_digit _ = Some _ |- _ => exact (plus_all_chars _ _ _ _ E)
  end.
Qed.

Lemma sectionRegex_exec_offset (s rest : string) (m : SectionMatch) :
  sectionRegex_exec s = Some (m, rest) ->
  m_offsetStr m <> EmptyString /\ all_chars is_digit (m_offsetStr m) = true.
Proof.
  induction s as [ | c s IH]; cbn [sectionRegex_exec].
  - destruct (sectionRegex_at "") as [ [m' rest'] | ] eqn:E; [ | discriminate ].
    intro H. injection H as -> ->. exact (sectionRegex_at_offset _ _ _ E).
  - destruct (sectionRegex_at (String c s)) as [ [m' rest'] | ] eqn:E.
    + intro H. injection H as -> ->. exact (sectionRegex_at_offset _ _ _ E).
    + exact IH.
Qed.

Lemma sectionTable_loop_offsets (fuel : nat) (otoolOutput : string) :
  Forall (fun m => m_offsetStr m <> EmptyString
                   /\ all_chars is_digit (m_offsetStr m) = true)
    (sectionTable_loop fuel otoolOutput).
Proof.
  revert otoolOutput. induction fuel as [ | fuel IH]; intro s; simpl.
  - constructor.
  - destruct (sectionRegex_exec s) as [ [m rest] | ] eqn:E; [ | constructor ].
    constructor; [ exact (sectionRegex_exec_offset _ _ _ E) | apply IH ].
Qed.

(** X17. The offset of every section that is hashed is a number, never
    [NaN], and a positive one: the expression captures it as decimal digits
    and the loop drops the offset 0. So a retained section can fail to be
    read only because of its size, or of an offset that is no safe
    integer. *)
Theorem parseSections_offsets (otoolOutput : string) (s : Section) :
  In s (parseSections otoolOutput) ->
  exists position, offset s = Num position /\ 1 <= position.
Proof.
  unfold parseSections. rewrite parseSections_loop_table. intro Hin.
  apply in_map_iff in Hin. destruct Hin as (m & <- & Hm).
  apply filter_In in Hm. destruct Hm as [Hm Hc].
  pose proof (sectionTable_loop_offsets (S (String.length otoolOutput))
                otoolOutput) as Hall.
  rewrite Forall_forall in Hall. destruct (Hall m Hm) as [Hne Hdigits].
  destruct (parseInt_decimal _ Hne Hdigits) as (v & Hv & Hpos).
  apply comparable_spec in Hc. destruct Hc as (_ & Hoff & _).
  cbn [section_of offset] in *. rewrite Hv in *.
  exists v. split; [ reflexivity | ].
  assert (v <> 0) by congruence. lia.
Qed.

(** *** The exclusion filter *)

Lemma contains_extend (s marker before after : string) :
  contains s marker -> contains (before +++ s +++ after) marker.
Proof.
  intros (b & a & ->). exists (before +++ b), (a +++ after).
  rewrite !append_assoc. reflexivity.
Qed.

(** X18. A path that contains a skipped path is skipped. So every file
    under a directory whose path is skipped is skipped, whatever the names
    below: all that a [_CodeSignature] directory holds, and equally a file
    that merely has a marker inside its name. *)
Theorem shouldSkipFile_closed (relPath : string) :
  shouldSkipFile relPath = true ->
  (forall before after,
     shouldSkipFile (before +++ relPath +++ after) = true)
  /\ (forall prefix entry,
        relPath = prefix +++ entry_name entry ->
        forall p, In p (tree_paths_entry prefix entry) ->
                  shouldSkipFile p = true).
Proof.
  intro H.
  assert (Hclosed : forall before after,
    shouldSkipFile (before +++ relPath +++ after) = true).
  { intros before after. apply shouldSkipFile_excluded.
    apply shouldSkipFile_excluded in H. destruct H as (marker & Hin & Hc).
    exists marker. split; [ exact Hin | ].
    apply contains_extend. exact Hc. }
  split; [ exact Hclosed | ].
  intros prefix entry -> p Hp.
  apply tree_paths_entry_shape in Hp. destruct Hp as (tail & -> & _).
  specialize (Hclosed EmptyString tail). cbn [String.append] in Hclosed.
  rewrite append_assoc in Hclosed. exact Hclosed.
Qed.

(** *** The tree differ *)

(** X19. Exchanging the two trees exchanges the two lists of missing
    files: what the original lacks, seen from one side, is what the local
    build lacks, seen from the other, path for path and in the same order. *)
Theorem compareApps_swap (w : World)
    (localApp originalApp tempDir tempDir' : string) (r r' : Report) :
  compareApps w localApp originalApp tempDir = Ok r ->
  compareApps w originalApp localApp tempDir' = Ok r' ->
  missingInLocal r = missingInOriginal r'
  /\ missingInOriginal r = missingInLocal r'.
Proof.
  intros H H'.
  destruct (compareApps_report _ _ _ _ _ H)
    as (_ & _ & _ & _ & _ & _ & HmL & HmO).
  destruct (compareApps_report _ _ _ _ _ H')
    as (_ & _ & _ & _ & _ & _ & HmL' & HmO').
  rewrite HmL, HmO, HmL', HmO'. split; reflexivity.
Qed.

(** X20. Every file that [getAllFiles] lists has for absolute path the
    root joined with its relative path, and taking that path relative to the
    root gives the relative path back. The relative paths are those of the
    tree, in the order of the walk, so two roots that hold the same tree
    give the same relative paths. *)
Theorem getAllFiles_relative (w : World) (root : string) :
  (forall f, In f (getAllFiles w root root) ->
             absolutePath f = path_join root (relativePath f)
             /\ path_relative root (absolutePath f) = relativePath f)
  /\ map relativePath (getAllFiles w root root) = tree_paths (dir_tree w root)
  /\ (forall root',
        dir_tree w root' = dir_tree w root ->
        map relativePath (getAllFiles w root' root')
        = map relativePath (getAllFiles w root root)).
Proof.
  destruct (getAllFiles_paths w root) as [Hrel Habs].
  split; [ | split ].
  - intros f Hf. rewrite (Habs f Hf).
    split; [ reflexivity | apply path_relative_below ].
  - exact Hrel.
  - intros root' Htree.
    rewrite Hrel, (proj1 (getAllFiles_paths w root')), Htree. reflexivity.
Qed.

(** ** [formatBytes] *)

Example formatBytes_examples :
  formatBytes 0 = "0 B"
  /\ formatBytes 1023 = "1023 B"
  /\ formatBytes 1024 = "1.0 KB"
  /\ formatBytes 1536 = "1.5 KB"
  /\ formatBytes 1048575 = "1024.0 KB"
  /\ formatBytes 1048576 = "1.0 MB"
  /\ formatBytes 98765432 = "94.2 MB".
Proof.
  repeat split; vm_compute; reflexivity.
Qed.

Lemma tenths_of_bounds (num den : Z) :
  0 < den ->
  let tenths := tenths_of num den in
  - den <= 2 * (10 * num - tenths * den) < den.
Proof.
  intros Hden tenths. unfold tenths, tenths_of.
  pose proof (Z.div_mod (20 * num + den) (2 * den)) as Hdiv.
  pose proof (Z.mod_pos_bound (20 * num + den) (2 * den)) as Hmod.
  nia.
Qed.

Lemma tenths_of_monotone (num num' den : Z) :
  0 < den -> num <= num' -> tenths_of num den <= tenths_of num' den.
Proof.
  intros Hden Hle. unfold tenths_of.
  apply Z.div_le_mono; lia.
Qed.

(** X21. For an integer number of bytes from 1024 to 2^53 - 1, the range
    in which a number holds it and its quotient exactly, [formatBytes] shows
    the number of KB, below 1024 * 1024 bytes, or of MB, rounded to the
    nearest tenth, a half going up: what it shows differs from the quotient
    by at most 0.05, is at least 1.0, and does not decrease when the number
    of bytes grows within a unit and within that range. Rounding can reach
    the next unit: the last 51 sizes below 1024 * 1024 bytes are shown as
    1024.0 KB. *)
Theorem formatBytes_rounding (bytes : Z) :
  1024 <= bytes <= MAX_SAFE_INTEGER ->
  let den := if bytes <? 1024 * 1024 then 1024 else 1024 * 1024 in
  let tenths := tenths_of bytes den in
  formatBytes bytes
  = decimal (tenths / 10) +++ "." +++ decimal (tenths mod 10)
    +++ (if bytes <? 1024 * 1024 then " KB" else " MB")
  /\ - den <= 2 * (10 * bytes - tenths * den) < den
  /\ 10 <= tenths
  /\ (forall bytes',
        bytes <= bytes' <= MAX_SAFE_INTEGER ->
        (bytes' <? 1024 * 1024) = (bytes <? 1024 * 1024) ->
        tenths <= tenths_of bytes' den)
  /\ (1048525 <= bytes < 1024 * 1024 -> formatBytes bytes = "1024.0 KB").
Proof.
  intros [Hmin Hmax] den tenths.
  assert (Hden : 0 < den) by (unfold den; destruct (bytes <? 1024 * 1024); lia).
  pose proof (tenths_of_bounds bytes den Hden) as Hbounds.
  cbv zeta in Hbounds. fold tenths in Hbounds.
  assert (Hformat : formatBytes bytes
    = decimal (tenths / 10) +++ "." +++ decimal (tenths mod 10)
      +++ (if bytes <? 1024 * 1024 then " KB" else " MB")).
  { unfold formatBytes, toFixed1, tenths, den.
    replace (bytes <? 1024) with false by (symmetry; apply Z.ltb_ge; lia).
    destruct (bytes <? 1024 * 1024); cbv zeta; rewrite !append_assoc;
      reflexivity. }
  split; [ exact Hformat | ]. split; [ exact Hbounds | ].
  split; [ | split ].
  - unfold den in *. destruct (bytes <? 1024 * 1024) eqn:E.
    + lia.
    + apply Z.ltb_ge in E. lia.
  - intros bytes' [Hle _] _. apply tenths_of_monotone; assumption.
  - intros [Hlow Hhigh]. rewrite Hformat.
    assert (E : (bytes <? 1024 * 1024) = true) by (apply Z.ltb_lt; exact Hhigh).
    assert (Ht : tenths = 10240).
    { unfold den in *. rewrite E in *. lia. }
    rewrite E, Ht. reflexivity.
Qed.

(** ** The further properties at work *)

(** The example run: the version is read from the property list, the
    build is found, the executable differs in its signature only, and the
    script exits with status 0, leaving its directory behind. *)
Example example_run :
  main example_env ["cefclient.zip"]
  = {| exit_code := 0; cleaned_up := false |}
  /\ detectCefVersion
       {| plist_exists := env_existsSync example_env;
          plutil_field := env_plutil example_env |}
       "/tmp/cef-verify-1/local/cefclient.app" = Ok "73.1.5"
  /\ compareApps example_world "/tmp/cef-verify-1/local/cefclient.app"
       "/tmp/cef-verify-1/original/cef_binary_client/Release/cefclient.app"
       "/tmp/cef-verify-1"
     = Ok {| matched := 1;
             modified := [];
             signatureOnly := ["Contents/MacOS/cefclient"];
             missingInLocal := [];
             missingInOriginal := [] |}.
Proof.
  repeat split; vm_compute; reflexivity.
Qed.

Lemma findCefClientApp_first_witness :
  findCefClientApp example_world "/tmp/cef-verify-1/original"
  = Some "/tmp/cef-verify-1/original/cef_binary_client/Release/cefclient.app"
  /\ findCefClientApp example_world "/tmp/cef-verify-1/local/cefclient.app"
     = None.
Proof.
  destruct (findCefClientApp_first example_world "/tmp/cef-verify-1/original")
    as [Hfirst _].
  destruct (findCefClientApp_first example_world
              "/tmp/cef-verify-1/local/cefclient.app") as [_ Hnone].
  split.
  - rewrite Hfirst. vm_compute. reflexivity.
  - apply Hnone. vm_compute. intros [E | [E | [E | []]]]; discriminate E.
Defined.

Lemma findCefClientApp_below_witness :
  exists rel,
    "/tmp/cef-verify-1/local/cefclient.app"
    = path_join "/tmp/cef-verify-1/local" rel.
Proof.
  assert (H : findCefClientApp example_world "/tmp/cef-verify-1/local"
              = Some "/tmp/cef-verify-1/local/cefclient.app")
    by (vm_compute; reflexivity).
  exact (proj1 (proj2 (findCefClientApp_below example_world
                         "/tmp/cef-verify-1/local" _ H))).
Defined.

Lemma detectCefVersion_components_witness :
  detectCefVersion
    {| plist_exists := env_existsSync example_env;
       plutil_field := env_plutil example_env |}
    "/tmp/cef-verify-1/local/cefclient.app" = Ok "73.1.5"
  /\ exists bundleVersion,
       env_plutil example_env
         (path_join (path_join "/tmp/cef-verify-1/local/cefclient.app" "Contents")
            "Info.plist")
       = Ok (FieldString bundleVersion)
       /\ (exists rest, bundleVersion = "73.1.5" +++ "." +++ rest).
Proof.
  assert (H : detectCefVersion
    {| plist_exists := env_existsSync example_env;
       plutil_field := env_plutil example_env |}
    "/tmp/cef-verify-1/local/cefclient.app" = Ok "73.1.5")
    by (vm_compute; reflexivity).
  split; [ exact H | ].
  destruct (detectCefVersion_components _ _ _ H)
    as (bundleVersion & Hfield & _ & _ & _ & Hprefix & _).
  exists bundleVersion. split; [ exact Hfield | ].
  destruct Hprefix as [Heq | Hrest]; [ | exact Hrest ].
  exfalso. cbn in Hfield. rewrite <- Heq in Hfield. discriminate Hfield.
Defined.

Lemma detectCefVersion_errors_witness :
  detectCefVersion
    {| plist_exists := fun _ => false;
       plutil_field := env_plutil example_env |} "/app"
  = Throw "Could not find Info.plist to detect version"
  /\ detectCefVersion
       {| plist_exists := fun _ => true;
          plutil_field := fun _ => Ok FieldFalsy |} "/app"
     = Throw "Failed to parse Info.plist: CFBundleShortVersionString not found".
Proof.
  split.
  - apply (proj1 (proj2 (detectCefVersion_errors
                           {| plist_exists := fun _ => false;
                              plutil_field := env_plutil example_env |} "/app"))).
    reflexivity.
  - apply (proj2 (proj2 (proj2 (detectCefVersion_errors
                           {| plist_exists := fun _ => true;
                              plutil_field := fun _ => Ok FieldFalsy |} "/app")))).
    + reflexivity.
    + left. reflexivity.
Defined.

Lemma findOriginalCefBuild_first_witness :
  exists build clientFile,
    List.find (acceptable "73.1.5") (all_builds example_index) = Some build
    /\ clientFileOf build = Some clientFile
    /\ file_name clientFile = "cef_binary_73.1.5_client.tar.bz2".
Proof.
  destruct (findOriginalCefBuild_first example_index "73.1.5") as [Hiff _].
  destruct (proj1 (Hiff _) eq_refl) as (build & clientFile & Hfind & Hclient & Hd).
  exists build, clientFile. split; [ exact Hfind | ]. split; [ exact Hclient | ].
  apply (f_equal archive_name) in Hd. symmetry. exact Hd.
Defined.

Lemma findOriginalCefBuild_match_witness :
  exists descriptor build rest,
    findOriginalCefBuild (Ok example_index) "73.1.5" = Ok descriptor
    /\ In build (all_builds example_index)
    /\ cef_version build = Some ("73.1.5" +++ "+" +++ rest)
    /\ url descriptor
       = "https://cef-builds.spotifycdn.com/cef_binary_73.1.5_client.tar.bz2".
Proof.
  assert (H : findOriginalCefBuild (Ok example_index) "73.1.5"
              = Ok (descriptor_of
                      {| file_type := "client";
                         file_name := "cef_binary_73.1.5_client.tar.bz2";
                         file_sha1 := example_digest example_archive;
                         file_size := 75497472 |}))
    by (vm_compute; reflexivity).
  destruct (findOriginalCefBuild_match _ _ _ H)
    as (build & buildVersion & fs & clientFile & rest & Hin & Hv & _ & _ & _
        & _ & _ & _ & _ & H3 & _).
  eexists _, build, rest.
  split; [ exact H | ]. split; [ exact Hin | ].
  split; [ | reflexivity ].
  rewrite Hv, (H3 ltac:(vm_compute; lia)). reflexivity.
Defined.

Lemma findOriginalCefBuild_partial_version_witness :
  (components "73.9" < 3)%nat
  /\ exists descriptor,
       findOriginalCefBuild (Ok example_index) "73.9" = Ok descriptor
       /\ findOriginalCefBuild (Ok example_index) "73" = Ok descriptor.
Proof.
  assert (Hlt : (components "73.9" < 3)%nat) by (vm_compute; lia).
  split; [ exact Hlt | ].
  eexists. split; [ vm_compute; reflexivity | ].
  apply (proj1 (findOriginalCefBuild_partial_version (Ok example_index)
                  "73.9" _ Hlt)).
  vm_compute. reflexivity.
Defined.

Lemma main_exit_zero_witness :
  exists localZipPath rest tempDir report,
    ["cefclient.zip"] = localZipPath :: rest
    /\ env_existsSync example_env localZipPath = true
    /\ env_mkdtempSync example_env = Ok tempDir
    /\ verified_run example_env localZipPath (hd_error rest) tempDir report
    /\ missingInLocal report = []
    /\ modified report = [].
Proof.
  apply (proj1 (main_exit_zero example_env ["cefclient.zip"])).
  vm_compute. reflexivity.
Defined.

Lemma main_cleanup_witness :
  cleaned_up (main example_env ["cefclient.zip"; "99"]) = true
  /\ exit_code (main example_env ["cefclient.zip"; "99"]) = 1.
Proof.
  assert (H : cleaned_up (main example_env ["cefclient.zip"; "99"]) = true)
    by (vm_compute; reflexivity).
  split; [ exact H | ].
  exact (proj1 (proj2 (main_cleanup example_env ["cefclient.zip"; "99"])) H).
Defined.

Lemma main_version_argument_witness :
  main (with_plutil example_env (fun _ => Throw "plutil failed"))
    ["cefclient.zip"; "73.1.5"]
  = main example_env ["cefclient.zip"; "73.1.5"].
Proof.
  exact (proj1 (main_version_argument example_env "cefclient.zip"
                  "7"%char "3.1.5" []) (fun _ => Throw "plutil failed")).
Defined.

Lemma downloadGitHubRelease_requests_witness :
  exists asset,
    asset_name asset = "cefclient.zip"
    /\ fst (downloadGitHubRelease example_github "wowlocal" "cef-build-macos"
              "73" "cefclient.zip" "out.zip")
       = [ Fetch (release_api_url "wowlocal" "cef-build-macos" "73");
           Download (browser_download_url asset) "out.zip" ].
Proof.
  destruct (downloadGitHubRelease_requests example_github "wowlocal"
              "cef-build-macos" "73" "cefclient.zip" "out.zip")
    as [ (message & Hfetch & _)
       | [ (assets & message & Hfetch & Hnone & _)
         | (before & asset & after & Hfetch & Hbefore & Hname & Hrun) ] ].
  - vm_compute in Hfetch. discriminate Hfetch.
  - exfalso. vm_compute in Hfetch. injection Hfetch as <-.
    apply (Hnone {| asset_name := "cefclient.zip"; asset_size := 75497472;
                    browser_download_url := "https://example.org/cefclient.zip" |}).
    + right. left. reflexivity.
    + reflexivity.
  - exists asset. split; [ exact Hname | ]. rewrite Hrun. reflexivity.
Defined.

Lemma download_release_cli_arguments_witness :
  download_release_cli example_github ["wowlocal"; "cef-build-macos"; "73"]
  = ([], 1)
  /\ download_release_cli example_github
       ["wowlocal"; "cef-build-macos"; "73"; "cefclient.zip"]
     = download_release_cli example_github
         ["wowlocal"; "cef-build-macos"; "73"; "cefclient.zip"; "cefclient.zip"].
Proof.
  destruct (download_release_cli_arguments example_github
              ["wowlocal"; "cef-build-macos"; "73"]) as (Hshort & _).
  destruct (download_release_cli_arguments example_github []) as (_ & Hdefault & _).
  split; [ apply Hshort; simpl; lia | apply Hdefault ].
Defined.


Lemma compareMatching_throws_iff_witness :
  exists message,
    compareMatching signed_world
      (Set_new (map relativePath
         [ {| absolutePath := "/original/absent.txt"; relativePath := "a.txt" |} ]))
      [ {| absolutePath := "/original/absent.txt"; relativePath := "a.txt" |} ]
      "/tmp"
      [ {| absolutePath := "/local/a.txt"; relativePath := "a.txt" |} ]
      {| matched := 0; modified := []; signatureOnly := [];
         missingInLocal := []; missingInOriginal := [] |}
    = Throw message.
Proof.
  apply (proj2 (proj1 (compareMatching_throws_iff signed_world
    [ {| absolutePath := "/original/absent.txt"; relativePath := "a.txt" |} ]
    [ {| absolutePath := "/local/a.txt"; relativePath := "a.txt" |} ]
    "/tmp"
    {| matched := 0; modified := []; signatureOnly := [];
       missingInLocal := []; missingInOriginal := [] |}))).
  exists {| absolutePath := "/local/a.txt"; relativePath := "a.txt" |}.
  split; [ left; reflexivity | ].
  split; [ reflexivity | ].
  right.
  exists {| absolutePath := "/original/absent.txt"; relativePath := "a.txt" |}.
  split; reflexivity.
Defined.

Lemma compareFiles_same_sections_witness :
  compareFiles signed_world "/local/b.bin" "/original/b.bin" "b.bin" "/tmp"
  = Ok SignatureOnly.
Proof.
  apply (proj2 (compareFiles_same_sections signed_world "/local/b.bin"
                  "/original/b.bin" "b.bin" "/tmp" signed_otool signed_otool
                  [xcf; xfa; xed; xfe; x01; x02; x03; xaa]
                  [xcf; xfa; xed; xfe; x01; x02; x03; xbb]
                  eq_refl eq_refl
                  ltac:(vm_compute; discriminate)
                  ltac:(vm_compute; reflexivity)
                  eq_refl eq_refl
                  ltac:(vm_compute; discriminate)
                  ltac:(vm_compute; discriminate)
                  ltac:(vm_compute; reflexivity)
                  ltac:(vm_compute; reflexivity))).
  - reflexivity.
  - intros s Hs. vm_compute in Hs. destruct Hs as [<- | []].
    vm_compute. reflexivity.
Defined.

Lemma hashMachOSegments_throws_iff_witness :
  parseSections oversized_otool
  = [ {| name := "__TEXT.__text"; offset := Num 4; size := Num (2 ^ 31) |} ]
  /\ exists message,
       hashMachOSegments oversized_world "/app/bin" "/tmp" "local"
       = Throw message.
Proof.
  assert (Hagree : forall otoolOutput,
    otool_l oversized_world "/app/bin" = Some otoolOutput ->
    forallb portable_section (parseSections otoolOutput) = true).
  { intros otoolOutput H.
    change (Some oversized_otool = Some otoolOutput) in H.
    injection H as <-. vm_compute. reflexivity. }
  split; [ vm_compute; reflexivity | ].
  apply (proj2 (proj1 (hashMachOSegments_throws_iff oversized_world
                         "/app/bin" "/tmp" "local" Hagree))).
  right. exists oversized_otool. split; [ reflexivity | ].
  right. right. vm_compute. reflexivity.
Defined.

Lemma parseSections_offsets_witness :
  exists position,
    offset {| name := "__TEXT.__text"; offset := Num 4; size := Num 3 |}
    = Num position
    /\ 1 <= position.
Proof.
  apply (parseSections_offsets signed_otool).
  vm_compute. left. reflexivity.
Defined.

Lemma shouldSkipFile_closed_witness :
  shouldSkipFile "_CodeSignature" = true
  /\ shouldSkipFile ("Contents/" +++ "_CodeSignature" +++ "/CodeResources")
     = true.
Proof.
  assert (H : shouldSkipFile "_CodeSignature" = true) by reflexivity.
  split; [ exact H | ].
  exact (proj1 (shouldSkipFile_closed "_CodeSignature" H)
           "Contents/" "/CodeResources").
Defined.

Lemma compareApps_swap_witness :
  exists r r',
    compareApps signed_world "/local" "/original" "/tmp" = Ok r
    /\ compareApps signed_world "/original" "/local" "/tmp" = Ok r'
    /\ missingInLocal r = missingInOriginal r'
    /\ missingInLocal r = ["c.txt"].
Proof.
  eexists _, _.
  assert (H : compareApps signed_world "/local" "/original" "/tmp" = Ok _)
    by (vm_compute; reflexivity).
  assert (H' : compareApps signed_world "/original" "/local" "/tmp" = Ok _)
    by (vm_compute; reflexivity).
  split; [ exact H | ]. split; [ exact H' | ].
  split; [ exact (proj1 (compareApps_swap _ _ _ _ _ _ _ H H')) | reflexivity ].
Defined.

Lemma getAllFiles_relative_witness :
  map relativePath (getAllFiles mirror_world "/local" "/local")
  = map relativePath (getAllFiles mirror_world "/original" "/original").
Proof.
  apply (proj2 (proj2 (getAllFiles_relative mirror_world "/original"))).
  reflexivity.
Defined.

Lemma formatBytes_rounding_witness :
  1024 <= 1048570 <= MAX_SAFE_INTEGER
  /\ formatBytes 1048570 = "1024.0 KB".
Proof.
  assert (H : 1024 <= 1048570 <= MAX_SAFE_INTEGER)
    by (unfold MAX_SAFE_INTEGER; lia).
  split; [ exact H | ].
  apply (proj2 (proj2 (proj2 (proj2 (formatBytes_rounding 1048570 H))))).
  lia.
Defined.

(** ** What the outcomes mean *)

(** What each answer of [compareFiles] says of the two files. *)
Lemma compareFiles_answer (w : World)
    (localPath originalPath relativePath tempDir : string) (answer : Comparison) :
  compareFiles w localPath originalPath relativePath tempDir = Ok answer ->
  match answer with
  | Match =>
      exists digest,
        hashFile w localPath = Ok digest /\ hashFile w originalPath = Ok digest
  | SignatureOnly =>
      digests_differ w localPath originalPath
      /\ sections_agree w localPath originalPath tempDir
  | Modified =>
      digests_differ w localPath originalPath
      /\ ~ sections_agree w localPath originalPath tempDir
  end.
Proof.
  unfold compareFiles, digests_differ, sections_agree.
  destruct (hashFile w localPath) as [l | ]; cbn [bind]; [ | discriminate ].
  destruct (hashFile w originalPath) as [o | ]; cbn [bind]; [ | discriminate ].
  destruct (String.eqb_spec l o) as [-> | Hne].
  - intro H. injection H as <-. exists o. split; reflexivity.
  - assert (Hd : exists localHash originalHash,
      Ok l = Ok localHash /\ @Ok string o = Ok originalHash
      /\ localHash <> originalHash).
    { exists l, o. repeat split. exact Hne. }
    destruct (isMachO w localPath).
    + destruct (hashMachOSegments w localPath tempDir "local") as [dl | ];
        cbn [bind].
      * destruct (hashMachOSegments w originalPath tempDir "original")
          as [dor | ]; cbn [bind].
        -- destruct (String.eqb_spec dl dor) as [-> | Hdne];
             intro H; injection H as <-.
           ++ split; [ exact Hd | ]. split; [ reflexivity | ].
              exists dor. split; reflexivity.
           ++ split; [ exact Hd | ]. intros (_ & d & H1 & H2). congruence.
        -- intro H. injection H as <-. split; [ exact Hd | ].
           intros (_ & d & _ & H2). discriminate.
      * intro H. injection H as <-. split; [ exact Hd | ].
        intros (_ & d & H1 & _). discriminate.
    + intro H. injection H as <-. split; [ exact Hd | ].
      intros (H1 & _). discriminate.
Qed.

(** X22. In a report of [compareApps] every path of [signatureOnly] is the
    relative path of a local file and of a file of the original, not
    skipped, whose bytes differ, the local one being an executable, and
    whose section digests are both computed and equal; every path of
    [modified] is such a pair whose bytes differ and for which that does not
    hold. *)
Theorem compareApps_outcomes (w : World) (localApp originalApp tempDir : string)
    (report : Report) :
  compareApps w localApp originalApp tempDir = Ok report ->
  (forall p, In p (signatureOnly report) ->
     exists f g,
       In f (getAllFiles w localApp localApp)
       /\ In g (getAllFiles w originalApp originalApp)
       /\ relativePath f = p /\ relativePath g = p
       /\ shouldSkipFile p = false
       /\ digests_differ w (absolutePath f) (absolutePath g)
       /\ sections_agree w (absolutePath f) (absolutePath g) tempDir)
  /\ (forall p, In p (modified report) ->
        exists f g,
          In f (getAllFiles w localApp localApp)
          /\ In g (getAllFiles w originalApp originalApp)
          /\ relativePath f = p /\ relativePath g = p
          /\ shouldSkipFile p = false
          /\ digests_differ w (absolutePath f) (absolutePath g)
          /\ ~ sections_agree w (absolutePath f) (absolutePath g) tempDir).
Proof.
  intro H.
  destruct (compareApps_report _ _ _ _ _ H)
    as (classified & _ & Hall & _ & Hmod & Hsig & _).
  rewrite Forall_forall in Hall.
  assert (Hpair : forall pc, In pc classified ->
    exists f g,
      In f (getAllFiles w localApp localApp)
      /\ In g (getAllFiles w originalApp originalApp)
      /\ relativePath f = fst pc /\ relativePath g = fst pc
      /\ shouldSkipFile (fst pc) = false
      /\ compareFiles w (absolutePath f) (absolutePath g) (fst pc) tempDir
         = Ok (snd pc)).
  { intros pc Hpc.
    destruct (Hall pc Hpc) as (f & g & Hf & Hfp & Hc & Hg & Hgp & Hanswer).
    exists f, g. repeat split; try assumption.
    unfold compared in Hc. apply andb_true_iff in Hc. destruct Hc as [Hc _].
    apply negb_true_iff in Hc. rewrite <- Hfp. exact Hc. }
  split; intros p Hp.
  - rewrite Hsig in Hp. apply in_map_iff in Hp. destruct Hp as (pc & <- & Hpc).
    apply filter_In in Hpc. destruct Hpc as [Hpc Hkind].
    destruct (Hpair pc Hpc) as (f & g & Hf & Hg & Hfp & Hgp & Hskip & Hanswer).
    apply compareFiles_answer in Hanswer.
    unfold is_signatureOnly in Hkind.
    destruct (snd pc); try discriminate.
    exists f, g. tauto.
  - rewrite Hmod in Hp. apply in_map_iff in Hp. destruct Hp as (pc & <- & Hpc).
    apply filter_In in Hpc. destruct Hpc as [Hpc Hkind].
    destruct (Hpair pc Hpc) as (f & g & Hf & Hg & Hfp & Hgp & Hskip & Hanswer).
    apply compareFiles_answer in Hanswer.
    unfold is_modified in Hkind.
    destruct (snd pc); try discriminate.
    exists f, g. tauto.
Qed.

(** ** The section expression on the output of [otool] *)

Lemma span_run (p : ascii -> bool) (run rest : string) :
  all_chars p run = true ->
  match rest with
  | EmptyString => True
  | String c _ => p c = false
  end ->
  span p (run +++ rest) = (run, rest).
Proof.
  intros Hrun Hrest. induction run as [ | c run IH].
  - destruct rest as [ | c rest]; simpl; [ reflexivity | ].
    rewrite Hrest. reflexivity.
  - cbn [all_chars] in Hrun. apply andb_true_iff in Hrun.
    destruct Hrun as [Hc Hrun].
    change (String c run +++ rest) with (String c (run +++ rest)).
    cbn [span]. rewrite Hc, (IH Hrun). reflexivity.
Qed.

Lemma plus_run (p : ascii -> bool) (run rest : string) :
  run <> EmptyString ->
  all_chars p run = true ->
  match rest with
  | EmptyString => True
  | String c _ => p c = false
  end ->
  plus p (run +++ rest) = Some (run, rest).
Proof.
  intros Hne Hrun Hrest. unfold plus. rewrite (span_run _ _ _ Hrun Hrest).
  destruct run; [ contradiction | reflexivity ].
Qed.

Lemma is_token_spec (s : string) :
  is_token s = true -> s <> EmptyString /\ all_chars non_space s = true.
Proof.
  unfold is_token. intro H. apply andb_true_iff in H. destruct H as [H1 H2].
  apply negb_true_iff, String.eqb_neq in H1. tauto.
Qed.

Lemma is_gap_spec (s : string) :
  is_gap s = true ->
  s <> EmptyString /\ all_chars is_space s = true
  /\ forall rest, match s +++ rest with
                  | EmptyString => True
                  | String c _ => non_space c = false
                  end.
Proof.
  unfold is_gap. intro H. apply andb_true_iff in H. destruct H as [H1 H2].
  apply negb_true_iff, String.eqb_neq in H1.
  split; [ exact H1 | ]. split; [ exact H2 | ].
  intro rest. destruct s as [ | c s]; [ contradiction | ].
  cbn [all_chars] in H2. apply andb_true_iff in H2. destruct H2 as [Hc _].
  simpl. unfold non_space. rewrite Hc. reflexivity.
Qed.

(** X23. The matcher recognises a section block as [otool -l] prints it:
    the five labelled fields in order, each field free of white space, any
    white space between a field and the next label, the offset in decimal
    digits and not followed by a digit. It captures the section name, the
    segment name, the size and the offset as they are written, and leaves
    what follows the offset. *)
Theorem sectionRegex_at_block (sectname ws1 segname ws2 addr ws3 sizeHex ws4
    offsetStr rest : string) :
  is_token sectname = true -> is_gap ws1 = true ->
  is_token segname = true -> is_gap ws2 = true ->
  is_token addr = true -> is_gap ws3 = true ->
  is_token sizeHex = true -> is_gap ws4 = true ->
  offsetStr <> EmptyString -> all_chars is_digit offsetStr = true ->
  no_digit_ahead rest = true ->
  sectionRegex_at
    (section_block sectname ws1 segname ws2 addr ws3 sizeHex ws4 offsetStr rest)
  = Some ({| m_sectname := sectname;
             m_segname := segname;
             m_sizeHex := sizeHex;
             m_offsetStr := offsetStr |}, rest).
Proof.
  intros Hsect Hws1 Hseg Hws2 Haddr Hws3 Hsize Hws4 Hoff Hdigits Hrest.
  apply is_token_spec in Hsect, Hseg, Haddr, Hsize.
  apply is_gap_spec in Hws1, Hws2, Hws3, Hws4.
  destruct Hsect as [Hsect1 Hsect2]. destruct Hseg as [Hseg1 Hseg2].
  destruct Haddr as [Haddr1 Haddr2]. destruct Hsize as [Hsize1 Hsize2].
  destruct Hws1 as (Hws11 & Hws12 & Hws13).
  destruct Hws2 as (Hws21 & Hws22 & Hws23).
  destruct Hws3 as (Hws31 & Hws32 & Hws33).
  destruct Hws4 as (Hws41 & Hws42 & Hws43).
  unfold section_block, sectionRegex_at.
  rewrite strip_prefix_append.
  rewrite (plus_run non_space sectname _ Hsect1 Hsect2 (Hws13 _)).
  rewrite (plus_run is_space ws1);
    [ | exact Hws11 | exact Hws12 | reflexivity ].
  rewrite strip_prefix_append.
  rewrite (plus_run non_space segname _ Hseg1 Hseg2 (Hws23 _)).
  rewrite (plus_run is_space ws2);
    [ | exact Hws21 | exact Hws22 | reflexivity ].
  rewrite strip_prefix_append.
  rewrite (plus_run non_space addr _ Haddr1 Haddr2 (Hws33 _)).
  rewrite (plus_run is_space ws3);
    [ | exact Hws31 | exact Hws32 | reflexivity ].
  rewrite strip_prefix_append.
  rewrite (plus_run non_space sizeHex _ Hsize1 Hsize2 (Hws43 _)).
  rewrite (plus_run is_space ws4);
    [ | exact Hws41 | exact Hws42 | reflexivity ].
  rewrite strip_prefix_append.
  rewrite (plus_run is_digit offsetStr rest Hoff Hdigits).
  - reflexivity.
  - destruct rest as [ | c rest]; [ exact I | ].
    simpl in Hrest. apply negb_true_iff in Hrest. exact Hrest.
Qed.

Lemma compareApps_outcomes_witness :
  exists f g,
    relativePath f = "b.bin" /\ relativePath g = "b.bin"
    /\ digests_differ signed_world (absolutePath f) (absolutePath g)
    /\ sections_agree signed_world (absolutePath f) (absolutePath g) "/tmp".
Proof.
  assert (H : compareApps signed_world "/local" "/original" "/tmp"
              = Ok {| matched := 1;
                      modified := [];
                      signatureOnly := ["b.bin"];
                      missingInLocal := ["c.txt"];
                      missingInOriginal := [] |})
    by (vm_compute; reflexivity).
  destruct (proj1 (compareApps_outcomes signed_world "/local" "/original"
                     "/tmp" _ H) "b.bin")
    as (f & g & _ & _ & Hf & Hg & _ & Hdiffer & Hagree).
  - left. reflexivity.
  - exists f, g. tauto.
Defined.

Lemma sectionRegex_at_block_witness :
  sectionRegex_at
    (section_block "__text" (newline +++ "   ") "__TEXT" (newline +++ "      ")
       "0x0000000100000f50" (newline +++ "      ") "0x0000000000000052"
       (newline +++ "    ") "3920" (newline +++ "     align 2^4 (16)"))
  = Some ({| m_sectname := "__text";
             m_segname := "__TEXT";
             m_sizeHex := "0x0000000000000052";
             m_offsetStr := "3920" |},
          newline +++ "     align 2^4 (16)").
Proof.
  apply sectionRegex_at_block;
    first [ reflexivity | discriminate ].
Defined.
